(** * Music-Tuning-System-Player: tuning engine, sequence parser, MIDI encoder

    A shallow embedding of the three core modules of the repository
    ([PythagoreanTuning], [Parser], [MIDIExporter]) together with the
    properties their specification states about them.

    Modelling conventions.
    - A JavaScript string is a [string] whose characters are read as code
      units below 256 (Latin-1); on ASCII text this is the JavaScript
      behaviour verbatim.
    - A JavaScript number is a [number A]: [NaN], a signed infinity or a
      finite value of the carrier [A].  The parser only reads decimal
      literals and compares them, so it computes over exact rationals
      ([A := Q]); the tuning engine and the MIDI encoder use [Math.pow] and
      [Math.log2] and work over the reals ([A := R]).
    - Doubles.  The degree of an interval symbol is an integer: it is
      rounded to the nearest double where [parseInt] returns it and where
      one is subtracted from it ([nearestDouble]), and [Math.pow(2, n)]
      for an integer [n] leaves the range of the doubles at [n = 1024]
      ([pow2Z]).  Over the reals a quotient too small for a double is zero
      ([quotient]); otherwise the arithmetic over the reals and the
      rationals is exact: rounding to 53 bits, overflow and the sign of
      zero are not modelled there, the octave number of a note name and
      the value of a decimal literal are the numbers their digits denote,
      and the statements that depend on the difference carry their bounds
      as hypotheses.
    - A thrown [Error] is a [Thrown] completion carrying its message. *)

From Stdlib Require Import ZArith QArith Qround List String Ascii Bool Lia.
From Stdlib Require Import DecimalString DecimalN DecimalNat DecimalFacts.
From Stdlib Require Import Reals Qreals Lra.
From Stdlib Require Import Qpower.
Import ListNotations.

Set Implicit Arguments.

(* ================================================================== *)
(** * JavaScript primitives used by the sources *)
(* ================================================================== *)

Module JS.

Local Open Scope string_scope.
Local Open Scope bool_scope.

(** ** Completions: a normal return or a thrown [Error] *)

Inductive completion (A : Type) : Type :=
| Returned (value : A)
| Thrown (message : string).

Arguments Returned {A} value.
Arguments Thrown {A} message.

Definition bind {A B : Type} (c : completion A) (k : A -> completion B)
  : completion B :=
  match c with
  | Returned a => k a
  | Thrown m => Thrown m
  end.

Definition throws {A : Type} (c : completion A) : bool :=
  match c with Returned _ => false | Thrown _ => true end.

(** ** Numbers *)

Inductive number (A : Type) : Type :=
| NaN
| Infinity (negative : bool)
| Num (x : A).

Arguments NaN {A}.
Arguments Infinity {A} negative.
Arguments Num {A} x.

Definition isNaN {A : Type} (n : number A) : bool :=
  match n with NaN => true | _ => false end.

(** ** Characters *)

Definition code (c : ascii) : nat := nat_of_ascii c.

(** [WhiteSpace] and [LineTerminator] code units below 256. *)
Definition isWhiteSpace (c : ascii) : bool :=
  let n := code c in
  ((9 <=? n) && (n <=? 13))%nat || (n =? 32)%nat || (n =? 160)%nat.

(** The regular-expression class [\d]. *)
Definition isDigit (c : ascii) : bool :=
  let n := code c in ((48 <=? n) && (n <=? 57))%nat.

Definition toLowerChar (c : ascii) : ascii :=
  let n := code c in
  if ((65 <=? n) && (n <=? 90))%nat then ascii_of_nat (n + 32)
  else if ((192 <=? n) && (n <=? 222) && negb (n =? 215))%nat
       then ascii_of_nat (n + 32)
  else c.

(** ** Strings *)

Fixpoint map_string (f : ascii -> ascii) (s : string) : string :=
  match s with
  | EmptyString => EmptyString
  | String c r => String (f c) (map_string f r)
  end.

Definition toLowerCase (s : string) : string := map_string toLowerChar s.

Fixpoint forall_string (p : ascii -> bool) (s : string) : bool :=
  match s with
  | EmptyString => true
  | String c r => p c && forall_string p r
  end.

(** No character of [s] is white space. *)
Definition noBlank (s : string) : bool :=
  forall_string (fun c => negb (isWhiteSpace c)) s.

Definition isEmpty (s : string) : bool :=
  match s with EmptyString => true | _ => false end.

Fixpoint trimStart (s : string) : string :=
  match s with
  | EmptyString => EmptyString
  | String c r => if isWhiteSpace c then trimStart r else s
  end.

Fixpoint trimEnd (s : string) : string :=
  match s with
  | EmptyString => EmptyString
  | String c r =>
      match trimEnd r with
      | EmptyString => if isWhiteSpace c then EmptyString
                       else String c EmptyString
      | r' => String c r'
      end
  end.

Definition trim (s : string) : string := trimEnd (trimStart s).

Fixpoint startsWith (s p : string) {struct p} : bool :=
  match p with
  | EmptyString => true
  | String a p' =>
      match s with
      | EmptyString => false
      | String b s' => Ascii.eqb b a && startsWith s' p'
      end
  end.

(** [s.indexOf(c)] for a one-character needle; [None] stands for [-1]. *)
Fixpoint indexOf (s : string) (c : ascii) : option nat :=
  match s with
  | EmptyString => None
  | String d r => if Ascii.eqb d c then Some O
                  else option_map S (indexOf r c)
  end.

(** [s.substring(i)] and [s.substring(0, i)]. *)
Definition substringFrom (s : string) (i : nat) : string :=
  substring i (length s - i) s.

Definition substringTo (s : string) (i : nat) : string :=
  substring 0 i s.

(** [s.split(c)] for a one-character separator. *)
Fixpoint split (s : string) (sep : ascii) : list string :=
  match s with
  | EmptyString => [EmptyString]
  | String c r =>
      if Ascii.eqb c sep then EmptyString :: split r sep
      else match split r sep with
           | h :: t => String c h :: t
           | [] => [String c EmptyString]
           end
  end.

(** Longest prefix of characters satisfying [p], and the rest. *)
Fixpoint span (p : ascii -> bool) (s : string) : string * string :=
  match s with
  | EmptyString => (EmptyString, EmptyString)
  | String c r =>
      if p c then let (a, b) := span p r in (String c a, b)
      else (EmptyString, s)
  end.

(** ** Decimal digits *)

(** Value of a string of decimal digits (leading zeros allowed). *)
Definition digitsValue (s : string) : Z :=
  match NilEmpty.uint_of_string s with
  | Some d => Z.of_N (N.of_uint d)
  | None => 0
  end.

(** [String(n)] for a non-negative integer [n]. *)
Definition decimal (n : Z) : string :=
  NilZero.string_of_uint (N.to_uint (Z.to_N n)).

(** [parseInt(s)] on the arguments the sources pass: an optional minus
    sign followed by decimal digits (the regular expressions that precede
    every call guarantee that shape).  This is the integer the digits
    denote; the Number JavaScript makes of it is [nearestDouble] of it. *)
Definition parseInt (s : string) : Z :=
  match s with
  | String "-" r => - digitsValue r
  | _ => digitsValue s
  end.

(** The double nearest to an integer.  An integer of magnitude up to
    [2^53] is a double; a larger one is rounded to 53 significant bits,
    a tie going to the even significand. *)
Definition nearestFinite (z : Z) : Z :=
  let a := Z.abs z in
  if (a <=? 2 ^ 53)%Z then z
  else
    let e := (Z.log2 a - 52)%Z in
    let m := Z.shiftr a e in
    let r := (a mod 2 ^ e)%Z in
    let half := (2 ^ (e - 1))%Z in
    let m' :=
      if (r <? half)%Z then m
      else if (half <? r)%Z then (m + 1)%Z
      else if Z.even m then m else (m + 1)%Z in
    (Z.sgn z * (m' * 2 ^ e))%Z.

(** The Number value of an integer: the nearest double, or an infinity
    when rounding takes the magnitude to [2^1024]. *)
Definition nearestDouble (z : Z) : number Z :=
  let v := nearestFinite z in
  if (2 ^ 1024 <=? Z.abs v)%Z then Infinity (z <? 0)%Z else Num v.

(** ** [parseFloat] *)

(** The exponent part [[eE][+-]?digits] of a decimal literal, 0 if absent. *)
Definition exponentPart (s : string) : Z :=
  match s with
  | String c r =>
      if Ascii.eqb (toLowerChar c) "e" then
        match r with
        | String "-" r' =>
            let (ds, _) := span isDigit r' in
            if isEmpty ds then 0%Z else (- digitsValue ds)%Z
        | String "+" r' =>
            let (ds, _) := span isDigit r' in
            if isEmpty ds then 0%Z else digitsValue ds
        | _ =>
            let (ds, _) := span isDigit r in
            if isEmpty ds then 0%Z else digitsValue ds
        end
      else 0%Z
  | EmptyString => 0%Z
  end.

(** Unsigned part of [StrDecimalLiteral]: the longest prefix of the form
    [Infinity], [digits], [digits.digits?] or [.digits], each but the first
    with an optional exponent. *)
Definition parseUnsigned (negative : bool) (s : string) : number Q :=
  if startsWith s "Infinity" then Infinity negative
  else
    let (ip, r) := span isDigit s in
    let (fp, r') :=
      match r with
      | String "." r1 => span isDigit r1
      | _ => (EmptyString, r)
      end in
    if isEmpty ip && isEmpty fp then NaN
    else
      let mantissa := digitsValue (ip ++ fp) in
      let e := (exponentPart r' - Z.of_nat (length fp))%Z in
      let q := Qred (inject_Z mantissa * Qpower (inject_Z 10) e) in
      Num (if negative then Qopp q else q).

Definition parseFloat (s : string) : number Q :=
  match trimStart s with
  | String "-" r => parseUnsigned true r
  | String "+" r => parseUnsigned false r
  | t => parseUnsigned false t
  end.

(** [x <= 0] on numbers over the rationals. *)
Definition leZero (n : number Q) : bool :=
  match n with
  | NaN => false
  | Infinity negative => negative
  | Num q => Qle_bool q 0
  end.

End JS.

(* ================================================================== *)
(** * [Parser]: the chord-sequence notation (src/js/parser.js) *)
(* ================================================================== *)

Module Parser.

Import JS.
Local Open Scope string_scope.
Local Open Scope bool_scope.

Record ParsedChord : Type := mkChord {
  fundamental : string;
  intervals : list string;
  duration : number Q
}.

Definition dquote : string := String "034" EmptyString.

(** ** The regular expression [/duration\s*=\s*([0-9.]+)/i] *)

(** Case-insensitive match of the literal [lit] (given in lower case) at
    the start of [s]; returns what follows. *)
Fixpoint matchLiteralCI (lit s : string) : option string :=
  match lit with
  | EmptyString => Some s
  | String l lit' =>
      match s with
      | String c r =>
          if Ascii.eqb (toLowerChar c) l && (code c <? 128)%nat
          then matchLiteralCI lit' r else None
      | EmptyString => None
      end
  end.

Definition isDurationChar (c : ascii) : bool :=
  isDigit c || Ascii.eqb c ".".

(** The match anchored at the first character of [s]; the result is the
    capture group. *)
Definition matchDurationAt (s : string) : option string :=
  match matchLiteralCI "duration" s with
  | None => None
  | Some r =>
      match trimStart r with
      | String "=" r1 =>
          let (cap, _) := span isDurationChar (trimStart r1) in
          if isEmpty cap then None else Some cap
      | _ => None
      end
  end.

(** [part.match(...)]: the leftmost position at which the expression
    matches. *)
Fixpoint matchDuration (s : string) : option string :=
  match matchDurationAt s with
  | Some cap => Some cap
  | None =>
      match s with
      | EmptyString => None
      | String _ r => matchDuration r
      end
  end.

(** ** [parseChordLine] *)

Definition errMissingColon : string :=
  "Invalid format: Missing colon. Expected format: " ++ dquote
    ++ "A4: 1,3,5, duration=2" ++ dquote.

Definition errDurationFormat (part : string) : string :=
  "Invalid duration format: " ++ part ++ ". Expected format: " ++ dquote
    ++ "duration=2" ++ dquote.

Definition errDurationValue (captured : string) : string :=
  "Invalid duration value: " ++ captured ++ ". Must be a positive number.".

Definition errNoIntervals (fundamental : string) : string :=
  "No intervals specified for fundamental " ++ fundamental.

Definition isDurationPart (part : string) : bool :=
  startsWith (toLowerCase part) "duration".

(** One iteration of [for (const part of parts)]: the loop state is the
    pair of the local variables [intervals] and [duration]. *)
Definition partStep (st : list string * number Q) (part : string)
  : completion (list string * number Q) :=
  let (ivs, dur) := st in
  if isDurationPart part then
    match matchDuration part with
    | None => Thrown (errDurationFormat part)
    | Some captured =>
        let d := parseFloat captured in
        if isNaN d || leZero d then Thrown (errDurationValue captured)
        else Returned (ivs, d)
    end
  else if negb (isEmpty part) then Returned ((ivs ++ [part])%list, dur)
  else Returned (ivs, dur).

Fixpoint partsLoop (parts : list string) (st : list string * number Q)
  : completion (list string * number Q) :=
  match parts with
  | [] => Returned st
  | part :: rest => bind (partStep st part) (partsLoop rest)
  end.

Definition one : number Q := Num (1 # 1).

(** The comma-separated, trimmed parts after the colon at [colonIndex]. *)
Definition partsOf (line : string) (colonIndex : nat) : list string :=
  map trim (split (trim (substringFrom line (colonIndex + 1))) ",").

Definition isSkipped (line : string) : bool :=
  isEmpty line || startsWith line "#" || startsWith line "//".

(** [null] is [Returned None]. *)
Definition parseChordLine (line : string) : completion (option ParsedChord) :=
  let line := trim line in
  if isSkipped line then Returned None
  else
    match indexOf line ":" with
    | None => Thrown errMissingColon
    | Some colonIndex =>
        let fundamental := trim (substringTo line colonIndex) in
        bind (partsLoop (partsOf line colonIndex) ([], one))
          (fun st =>
             let (intervals, duration) := st in
             if (List.length intervals =? 0)%nat
             then Thrown (errNoIntervals fundamental)
             else Returned (Some (mkChord fundamental intervals duration)))
    end.

(** ** [parseChordSequence] *)

Definition errLine (lineNumber : nat) (message : string) : string :=
  "Line " ++ decimal (Z.of_nat lineNumber) ++ ": " ++ message.

Definition errEmptySequence : string := "No valid chords found in input".

(** The [for] loop over [lines] from index [i] on, with the chords
    collected so far. *)
Fixpoint linesLoop (lines : list string) (i : nat) (chords : list ParsedChord)
  : completion (list ParsedChord) :=
  match lines with
  | [] => Returned chords
  | line :: rest =>
      match parseChordLine line with
      | Thrown message => Thrown (errLine (i + 1) message)
      | Returned None => linesLoop rest (i + 1) chords
      | Returned (Some chord) => linesLoop rest (i + 1) (chords ++ [chord])%list
      end
  end.

Definition newline : ascii := "010"%char.

Definition parseChordSequence (input : string)
  : completion (list ParsedChord) :=
  bind (linesLoop (split input newline) 0 [])
    (fun chords =>
       if (List.length chords =? 0)%nat then Thrown errEmptySequence
       else Returned chords).

(** ** Vocabulary for the statements about the loop over the parts *)

(** A part that the loop collects as an interval. *)
Definition isIntervalPart (part : string) : bool :=
  negb (isDurationPart part) && negb (isEmpty part).

(** A part that the loop passes without throwing. *)
Definition acceptedPart (part : string) : Prop :=
  isDurationPart part = true ->
  exists captured,
    matchDuration part = Some captured
    /\ isNaN (parseFloat captured) || leZero (parseFloat captured) = false.

(** ** [validateChord] *)

Definition validateChord (chord : ParsedChord) : completion bool :=
  if isEmpty (fundamental chord) then Thrown "Missing fundamental"
  else if (List.length (intervals chord) =? 0)%nat
       then Thrown "No intervals specified"
  else if leZero (duration chord) then Thrown "Invalid duration"
  else Returned true.

(** A duration read from digits and dots that passed the check. *)
Definition positiveDuration (d : number Q) : Prop :=
  exists q, d = Num q /\ (0 < q)%Q.

(** The chords a list of line results contributes, in order. *)
Definition chordsOf (results : list (option ParsedChord))
  : list ParsedChord :=
  flat_map (fun r => match r with Some c => [c] | None => [] end) results.

End Parser.

(* ================================================================== *)
(** * [PythagoreanTuning]: the tuning engine (src/unnamed/part_001) *)
(* ================================================================== *)

Module RealNumber.

(** Arithmetic of JavaScript numbers over the reals: sums, products,
    powers and logarithms are exact; a quotient too small for a double is
    zero. *)

Import JS.
Local Open Scope R_scope.

Inductive sign : Type := Negative | Zero | Positive.

Definition signOf (x : R) : sign :=
  match total_order_T x 0 with
  | inleft (left _) => Negative
  | inleft (right _) => Zero
  | inright _ => Positive
  end.

Definition ofZ (z : Z) : number R := Num (IZR z).

Definition ofQ (n : number Q) : number R :=
  match n with
  | NaN => NaN
  | Infinity s => Infinity s
  | Num q => Num (Q2R q)
  end.

Definition neg (a : number R) : number R :=
  match a with
  | NaN => NaN
  | Infinity s => Infinity (negb s)
  | Num x => Num (- x)
  end.

Definition add (a b : number R) : number R :=
  match a, b with
  | NaN, _ | _, NaN => NaN
  | Num x, Num y => Num (x + y)
  | Infinity s, Num _ | Num _, Infinity s => Infinity s
  | Infinity s, Infinity t => if Bool.eqb s t then Infinity s else NaN
  end.

Definition sub (a b : number R) : number R := add a (neg b).

Definition mul (a b : number R) : number R :=
  match a, b with
  | NaN, _ | _, NaN => NaN
  | Num x, Num y => Num (x * y)
  | Infinity s, Infinity t => Infinity (xorb s t)
  | Infinity s, Num y | Num y, Infinity s =>
      match signOf y with
      | Negative => Infinity (negb s)
      | Zero => NaN
      | Positive => Infinity s
      end
  end.

(** The smallest positive double, [2^-1074] (about [5e-324]). *)
Definition minDouble : R := / IZR (2 ^ 1074).

(** A quotient of doubles: when it is at most half the smallest positive
    double in magnitude, the nearest double is zero. *)
Definition quotient (x y : R) : R :=
  if Rle_dec (Rabs (x / y)) (minDouble / 2) then 0 else x / y.

Definition div (a b : number R) : number R :=
  match a, b with
  | NaN, _ | _, NaN => NaN
  | Num x, Num y =>
      match signOf y with
      | Zero =>
          match signOf x with
          | Negative => Infinity true
          | Zero => NaN
          | Positive => Infinity false
          end
      | _ => Num (quotient x y)
      end
  | Num _, Infinity _ => Num 0
  | Infinity s, Num y =>
      match signOf y with
      | Negative => Infinity (negb s)
      | _ => Infinity s
      end
  | Infinity _, Infinity _ => NaN
  end.

(** [Math.log2] *)
Definition log2 (a : number R) : number R :=
  match a with
  | NaN => NaN
  | Infinity s => if s then NaN else Infinity false
  | Num x =>
      match signOf x with
      | Negative => NaN
      | Zero => Infinity true
      | Positive => Num (ln x / ln 2)
      end
  end.

(** [Math.pow(2, y)] *)
Definition pow2 (y : number R) : number R :=
  match y with
  | NaN => NaN
  | Infinity s => if s then Num 0 else Infinity false
  | Num x => Num (Rpower 2 x)
  end.

(** [Math.round]: the nearest integer, ties towards plus infinity. *)
Definition round (a : number R) : number R :=
  match a with
  | Num x => Num (IZR (Int_part (x + / 2)))
  | other => other
  end.

(** [Math.abs] *)
Definition abs (a : number R) : number R :=
  match a with
  | NaN => NaN
  | Infinity _ => Infinity false
  | Num x => Num (Rabs x)
  end.

(** [a > y] for a finite [y]. *)
Definition gtb (a : number R) (y : R) : bool :=
  match a with
  | NaN => false
  | Infinity s => negb s
  | Num x => if Rlt_dec y x then true else false
  end.

(** [Math.min(c, a)] and [Math.max(c, a)] for a finite [c]. *)
Definition min (c : R) (a : number R) : number R :=
  match a with
  | NaN => NaN
  | Infinity s => if s then Infinity true else Num c
  | Num x => Num (Rmin c x)
  end.

Definition max (c : R) (a : number R) : number R :=
  match a with
  | NaN => NaN
  | Infinity s => if s then Num c else Infinity false
  | Num x => Num (Rmax c x)
  end.

(** Truncation towards zero. *)
Definition truncate (x : R) : Z :=
  if Rle_dec 0 x then Int_part x else (- Int_part (- x))%Z.

Definition wrap32 (z : Z) : Z := ((z + 2 ^ 31) mod 2 ^ 32 - 2 ^ 31)%Z.

(** [ToInt32], applied by [&], [|] and [>>] to their operands. *)
Definition toInt32 (a : number R) : Z :=
  match a with
  | Num x => wrap32 (truncate x)
  | _ => 0%Z
  end.

(** [ToUint8], applied when a number is stored in a [Uint8Array]. *)
Definition toUint8 (a : number R) : Z :=
  match a with
  | Num x => (truncate x mod 256)%Z
  | _ => 0%Z
  end.

End RealNumber.

Module PythagoreanTuning.

Import JS.
Local Open Scope string_scope.
Local Open Scope bool_scope.
Local Open Scope Z_scope.

(** ** Object literals used as tables *)

(** What a property read [table[key]] evaluates to. *)
Inductive value : Type :=
| Undefined
| Number (n : Q)
| Inherited (name : string).

(** Properties every object literal inherits from [Object.prototype]. *)
Definition objectPrototype : list string :=
  [ "constructor"; "hasOwnProperty"; "isPrototypeOf";
    "propertyIsEnumerable"; "toLocaleString"; "toString"; "valueOf";
    "__proto__"; "__defineGetter__"; "__defineSetter__";
    "__lookupGetter__"; "__lookupSetter__" ].

Fixpoint ownProperty (table : list (string * Q)) (key : string) : option Q :=
  match table with
  | [] => None
  | (k, v) :: rest => if String.eqb k key then Some v else ownProperty rest key
  end.

Definition getProperty (table : list (string * Q)) (key : string) : value :=
  match ownProperty table key with
  | Some v => Number v
  | None =>
      if existsb (String.eqb key) objectPrototype then Inherited key
      else Undefined
  end.

(** Truthiness of a property value: a number is falsy when it is zero. *)
Definition truthy (v : value) : bool :=
  match v with
  | Undefined => false
  | Number q => negb (Qeq_bool q 0)
  | Inherited _ => true
  end.

(** [v + n], [v / 12] and [v * n] for a finite number [n], and [v * n]
    for any [n]: [undefined] gives [NaN]; an inherited function gives [NaN]
    for [/] and [*], and for [+] a string that the division which follows
    turns into [NaN]. *)
Definition plus (v : value) (n : Q) : number Q :=
  match v with
  | Number q => Num (q + n)%Q
  | _ => NaN
  end.

Definition toNumber (v : value) : number Q :=
  match v with
  | Number q => Num q
  | _ => NaN
  end.

Definition times (v : value) (n : number Q) : number Q :=
  match v, n with
  | Number q, Num p => Num (q * p)%Q
  | Number q, Infinity negative =>
      match (q ?= 0)%Q with
      | Gt => Infinity negative
      | Lt => Infinity (negb negative)
      | Eq => NaN
      end
  | _, _ => NaN
  end.

(** [v + n] for a number [n] that is an integer or infinite. *)
Definition plusNumber (v : value) (n : number Z) : number Q :=
  match v, n with
  | Number q, Num k => Num (q + inject_Z k)%Q
  | Number q, Infinity negative => Infinity negative
  | _, _ => NaN
  end.

(** Base Pythagorean interval ratios (within one octave). *)
Definition intervals : list (string * Q) :=
  [ ("1", 1 # 1); ("b2", 256 # 243); ("2", 9 # 8); ("b3", 32 # 27);
    ("3", 81 # 64); ("4", 4 # 3); ("#4", 729 # 512); ("b5", 729 # 512);
    ("5", 3 # 2); ("b6", 128 # 81); ("6", 27 # 16); ("b7", 16 # 9);
    ("7", 243 # 128); ("8", 2 # 1) ]%Q.

(** Note names to semitone offsets from A. *)
Definition noteToSemitone : list (string * Q) :=
  map (fun p => (fst p, inject_Z (snd p)))
    [ ("C", -9); ("C#", -8); ("Db", -8); ("D", -7); ("D#", -6); ("Eb", -6);
      ("E", -5); ("F", -4); ("F#", -3); ("Gb", -3); ("G", -2); ("G#", -1);
      ("Ab", -1); ("A", 0); ("A#", 1); ("Bb", 1); ("B", 2) ].

(** ** Regular expressions *)

Definition isAccidental (c : ascii) : bool :=
  Ascii.eqb c "#" || Ascii.eqb c "b".

Definition isNoteLetter (c : ascii) : bool :=
  let n := code c in ((65 <=? n) && (n <=? 71))%nat.

(** [\d+$] *)
Definition isDigits (s : string) : bool :=
  negb (isEmpty s) && forall_string isDigit s.

(** [-?\d+$] *)
Definition isSignedDigits (s : string) : bool :=
  match s with
  | String "-" r => isDigits r
  | _ => isDigits s
  end.

(** [/^([#b]?)(\d+)$/]: the two capture groups. *)
Definition matchInterval (s : string) : option (string * string) :=
  match s with
  | EmptyString => None
  | String c r =>
      if isAccidental c then
        if isDigits r then Some (String c EmptyString, r) else None
      else if isDigits s then Some (EmptyString, s) else None
  end.

(** [/^([A-G][#b]?)(-?\d+)$/]: the two capture groups. *)
Definition matchNote (s : string) : option (string * string) :=
  match s with
  | EmptyString => None
  | String l r =>
      if isNoteLetter l then
        match r with
        | EmptyString => None
        | String a r' =>
            if isAccidental a then
              if isSignedDigits r'
              then Some (String l (String a EmptyString), r') else None
            else if isSignedDigits r
                 then Some (String l EmptyString, r) else None
        end
      else None
  end.

(** ** [noteToFrequency] *)

Definition noteToFrequency (note : string) : completion (number R) :=
  match matchNote note with
  | None =>
      Thrown ("Invalid note format: " ++ note
                ++ ". Use format like A4, C#3, Bb5")
  | Some (noteName, octaveDigits) =>
      let octave := parseInt octaveDigits in
      match getProperty noteToSemitone noteName with
      | Undefined => Thrown ("Invalid note name: " ++ noteName)
      | semitoneOffset =>
          let totalSemitones :=
            plus semitoneOffset (inject_Z ((octave - 4) * 12)) in
          let exponent :=
            RealNumber.div (RealNumber.ofQ totalSemitones)
                           (RealNumber.ofZ 12) in
          Returned (RealNumber.mul (RealNumber.ofZ 440)
                                   (RealNumber.pow2 exponent))
      end
  end.

(** ** [getIntervalRatio] *)

(** What [getIntervalRatio] returns: a ratio, or whatever truthy value the
    first property read produced. *)
Inductive ratioResult : Type :=
| Ratio (r : number Q)
| NotANumber (name : string).

(** [number <= bound] for the degree read from a symbol. *)
Definition atMost (number : JS.number Z) (bound : Z) : bool :=
  match number with
  | NaN => false
  | Infinity negative => negative
  | Num n => n <=? bound
  end.

(** [n * k] for a positive integer [k]. *)
Definition timesZ (n : JS.number Z) (k : Z) : JS.number Z :=
  match n with
  | Num o => Num (o * k)
  | other => other
  end.

(** [Math.floor((number - 1) / 7)] and [String(((number - 1) % 7) + 1)]
    for a degree above 8.  The difference is rounded to a double as the
    degree was.  The floor is that of the exact quotient: it is what the
    code computes for a dividend below [2^53], where rounding the quotient
    cannot reach the next integer.  For an infinite degree the quotient is
    infinite and the remainder not-a-number. *)
Definition reduceDegree (number : JS.number Z) : JS.number Z * string :=
  match number with
  | NaN => (NaN, "NaN")
  | Infinity negative => (Infinity negative, "NaN")
  | Num n =>
      let less := nearestFinite (n - 1) in
      (Num (less / 7), decimal (Z.rem less 7 + 1))
  end.

(** [Math.pow(2, n)] for an integral [n]: the powers of two from
    [2^-1074] to [2^1023] are doubles, a larger one is infinite and a
    smaller one zero. *)
Definition pow2Z (n : JS.number Z) : JS.number Q :=
  match n with
  | NaN => NaN
  | Infinity negative => if negative then Num 0%Q else Infinity false
  | Num k =>
      if 1024 <=? k then Infinity false
      else if k <? -1074 then Num 0%Q
      else Num (Qpower (inject_Z 2) k)
  end.

Definition getIntervalRatio (interval : string) : completion ratioResult :=
  let interval := trim interval in
  let direct := getProperty intervals interval in
  if truthy direct then
    match direct with
    | Number q => Returned (Ratio (Num q))
    | _ => Returned (NotANumber interval)
    end
  else
    match matchInterval interval with
    | None => Thrown ("Invalid interval: " ++ interval)
    | Some (accidental, digits) =>
        let number := nearestDouble (parseInt digits) in
        if atMost number 8 then Thrown ("Unknown interval: " ++ interval)
        else
          let (octaves, simpleIntervalNumber) := reduceDegree number in
          let simpleInterval := accidental ++ simpleIntervalNumber in
          let base := getProperty intervals simpleInterval in
          if negb (truthy base) then
            Thrown ("Unknown compound interval: " ++ interval
                      ++ " (derived from " ++ simpleInterval ++ ")")
          else Returned (Ratio (times base (pow2Z octaves)))
    end.

(** ** [calculateFrequency] and [calculateChord] *)

Definition ratioNumber (r : ratioResult) : number R :=
  match r with
  | Ratio q => RealNumber.ofQ q
  | NotANumber _ => NaN
  end.

Definition calculateFrequency (fundamental : number R) (interval : string)
  : completion (number R) :=
  bind (getIntervalRatio interval)
    (fun ratio => Returned (RealNumber.mul fundamental (ratioNumber ratio))).

Record Note : Type := mkNote {
  interval : string;
  frequency : number R;
  ratio : ratioResult
}.

Record Chord : Type := mkChord {
  fundamental : number R;
  notes : list Note
}.

(** The argument [fundamental] is a string or a number. *)
Inductive fundamentalArg : Type :=
| FromString (s : string)
| FromNumber (n : number R).

Definition errInvalidFundamental (s : string) : string :=
  "Invalid fundamental: " ++ s.

(** The [if (typeof fundamental === 'string')] statement. *)
Definition resolveFundamental (fundamental : fundamentalArg)
  : completion (number R) :=
  match fundamental with
  | FromString s =>
      match noteToFrequency s with
      | Returned f => Returned f
      | Thrown _ =>
          let f := parseFloat s in
          if isNaN f then Thrown (errInvalidFundamental s)
          else Returned (RealNumber.ofQ f)
      end
  | FromNumber n => Returned n
  end.

(** [intervals.map(...)]: the first callback that throws ends the map. *)
Fixpoint mapNotes (fundamentalFreq : number R) (l : list string)
  : completion (list Note) :=
  match l with
  | [] => Returned []
  | i :: rest =>
      bind (calculateFrequency fundamentalFreq i) (fun f =>
      bind (getIntervalRatio i) (fun r =>
      bind (mapNotes fundamentalFreq rest) (fun ns =>
      Returned (mkNote i f r :: ns))))
  end.

Definition calculateChord (fundamental : fundamentalArg)
  (intervals : list string) : completion Chord :=
  bind (resolveFundamental fundamental) (fun fundamentalFreq =>
  bind (mapNotes fundamentalFreq intervals) (fun frequencies =>
  Returned (mkChord fundamentalFreq frequencies))).

(** ** [calculateEqualTemperament] *)

Definition intervalToSemitones : list (string * Q) :=
  map (fun p => (fst p, inject_Z (snd p)))
    [ ("1", 0); ("b2", 1); ("2", 2); ("b3", 3); ("3", 4); ("4", 5);
      ("#4", 6); ("b5", 6); ("5", 7); ("b6", 8); ("6", 9); ("b7", 10);
      ("7", 11); ("8", 12) ].

(** The value of the local variable [semitones] after the [if]. *)
Definition semitonesOf (interval : string) : completion (number Q) :=
  match matchInterval interval with
  | None => Thrown ("Invalid interval: " ++ interval)
  | Some (accidental, digits) =>
      let number := nearestDouble (parseInt digits) in
      if atMost number 8 then
        match getProperty intervalToSemitones interval with
        | Undefined =>
            Thrown ("Unknown interval for equal temperament: " ++ interval)
        | semitones => Returned (toNumber semitones)
        end
      else
        let (octaves, simpleNumber) := reduceDegree number in
        let simpleInterval := accidental ++ simpleNumber in
        Returned (plusNumber (getProperty intervalToSemitones simpleInterval)
                             (timesZ octaves 12))
  end.

Definition calculateEqualTemperament (fundamental : number R)
  (interval : string) : completion (number R) :=
  bind (semitonesOf interval) (fun semitones =>
    Returned
      (RealNumber.mul fundamental
         (RealNumber.pow2
            (RealNumber.div (RealNumber.ofQ semitones)
                            (RealNumber.ofZ 12))))).

(** ** Vocabulary for the statements about interval symbols *)

(** The degree written in an interval symbol, 0 if it has none. *)
Definition degreeOf (s : string) : Z :=
  match matchInterval s with
  | Some (_, digits) => parseInt digits
  | None => 0
  end.

Definition accidentals : list string :=
  [ EmptyString; "#"; "b" ].

(** A string that [parseFloat] reads as a positive real number. *)
Definition positiveLiteral (s : string) : Prop :=
  exists q, parseFloat s = Num q /\ (0 < q)%Q.

End PythagoreanTuning.

(* ================================================================== *)
(** * [MIDIExporter]: the MIDI encoder (src/unnamed/part_003) *)
(* ================================================================== *)

Module MIDIExporter.

Import JS.
Import RealNumber.
Local Open Scope Z_scope.

Record MIDIEvent : Type := mkEvent {
  deltaTime : number R;
  data : list (number R)
}.

Record NoteData : Type := mkNoteData { frequency : number R }.

Record ChordData : Type := mkChordData {
  pythagoreanNotes : list NoteData;
  duration : number R
}.

Definition ppq : Z := 480.

(** [array.forEach((x, index) => ...)] threading the state the callback
    mutates. *)
Fixpoint forEach {A S : Type} (f : S -> A -> nat -> S) (l : list A)
  (index : nat) (s : S) : S :=
  match l with
  | [] => s
  | x :: rest => forEach f rest (Datatypes.S index) (f s x index)
  end.

(** ** [frequencyToMIDI] and [centsToPitchBend] *)

Definition frequencyToMIDI (frequency : number R) : number R * number R :=
  let midiFloat :=
    add (ofZ 69) (mul (ofZ 12) (log2 (div frequency (ofZ 440)))) in
  let midiNote := round midiFloat in
  let cents := mul (sub midiFloat midiNote) (ofZ 100) in
  (midiNote, cents).

Definition centsToPitchBend (cents : number R) : number R :=
  let bendRange := ofZ 200 in
  let bendValue := add (ofZ 8192) (mul (div cents bendRange) (ofZ 8192)) in
  max 0 (min 16383 (round bendValue)).

(** ** Byte encoding *)

(** [view.setUint32(_, v, false)] and [view.setUint16(_, v, false)] *)
Definition uint32BE (v : Z) : list Z :=
  [ Z.land (Z.shiftr v 24) 255; Z.land (Z.shiftr v 16) 255;
    Z.land (Z.shiftr v 8) 255; Z.land v 255 ].

Definition uint16BE (v : Z) : list Z :=
  [ Z.land (Z.shiftr v 8) 255; Z.land v 255 ].

Definition createHeaderChunk (numTracks : nat) : list Z :=
  [ 77; 84; 104; 100 ] ++ uint32BE 6 ++ uint16BE 1
    ++ uint16BE (Z.of_nat numTracks) ++ uint16BE ppq.

(** The [while (value > 0)] loop of [writeVarLength]; a 32-bit value
    shifted right by seven needs at most four iterations. *)
Fixpoint varLengthLoop (fuel : nat) (value : Z) (buffer : list Z) : list Z :=
  match fuel with
  | O => buffer
  | Datatypes.S fuel' =>
      if 0 <? value
      then varLengthLoop fuel' (Z.shiftr value 7)
             (buffer ++ [Z.lor (Z.land value 127) 128])
      else buffer
  end.

(** [writeVarLength(bytes, value)]: the array [bytes] afterwards. *)
Definition writeVarLength (bytes : list (number R)) (value : number R)
  : list (number R) :=
  let v := toInt32 value in
  let buffer := [Z.land v 127] in
  let buffer := varLengthLoop 5 (Z.shiftr v 7) buffer in
  bytes ++ map ofZ (rev buffer).

(** Body of [events.forEach] in [encodeTrackEvents]. *)
Definition pushEvent (bytes : list (number R)) (event : MIDIEvent)
  : list (number R) :=
  writeVarLength bytes (deltaTime event) ++ data event.

(** [new Uint8Array(bytes)] stores every element modulo 256. *)
Definition encodeTrackEvents (events : list MIDIEvent) : list Z :=
  map toUint8 (fold_left pushEvent events []).

Definition createTrackChunk (events : list MIDIEvent) : list Z :=
  let trackData := encodeTrackEvents events in
  let header := [ 77; 84; 114; 107 ] ++ uint32BE (Z.of_nat (List.length trackData)) in
  header ++ trackData.

Definition createMIDIFile (tracks : list (list MIDIEvent)) : list Z :=
  let chunks := createHeaderChunk (List.length tracks) :: map createTrackChunk tracks in
  List.concat chunks.

(** ** [generatePythagoreanMIDI] *)

Definition endOfTrack : MIDIEvent :=
  mkEvent (ofZ 0) [ofZ 255; ofZ 47; ofZ 0].

Definition tempoTrack (tempo : number R) : list MIDIEvent :=
  let microsecondsPerBeat := toInt32 (round (div (ofZ 60000000) tempo)) in
  [ mkEvent (ofZ 0)
      [ ofZ 255; ofZ 81; ofZ 3;
        ofZ (Z.land (Z.shiftr microsecondsPerBeat 16) 255);
        ofZ (Z.land (Z.shiftr microsecondsPerBeat 8) 255);
        ofZ (Z.land microsecondsPerBeat 255) ];
    endOfTrack ].

Definition channelOf (noteIndex : nat) : Z := Z.min (Z.of_nat noteIndex) 15.

(** Body of the first [pythagoreanNotes.forEach]: optional pitch bend,
    then note on. *)
Definition pushNoteOn (chordIndex : nat) (noteTrack : list MIDIEvent)
  (noteData : NoteData) (noteIndex : nat) : list MIDIEvent :=
  let (note, cents) := frequencyToMIDI (frequency noteData) in
  let channel := channelOf noteIndex in
  let noteTrack :=
    if gtb (abs cents) (/ 2) then
      let bend := toInt32 (centsToPitchBend cents) in
      noteTrack ++
        [ mkEvent
            (if (chordIndex =? 0)%nat && (noteIndex =? 0)%nat
             then ofZ 0 else ofZ 0)
            [ ofZ (Z.lor 224 channel); ofZ (Z.land bend 127);
              ofZ (Z.land (Z.shiftr bend 7) 127) ] ]
    else noteTrack in
  noteTrack ++ [ mkEvent (ofZ 0) [ofZ (Z.lor 144 channel); note; ofZ 80] ].

(** Body of the second [pythagoreanNotes.forEach]: note off. *)
Definition pushNoteOff (durationTicks : number R)
  (noteTrack : list MIDIEvent) (noteData : NoteData) (noteIndex : nat)
  : list MIDIEvent :=
  let note := fst (frequencyToMIDI (frequency noteData)) in
  let channel := channelOf noteIndex in
  noteTrack ++
    [ mkEvent (if (noteIndex =? 0)%nat then durationTicks else ofZ 0)
        [ofZ (Z.lor 128 channel); note; ofZ 0] ].

Definition ticksPerSecond (tempo : number R) : number R :=
  div (mul (ofZ ppq) tempo) (ofZ 60).

Definition durationTicksOf (baseDuration tempo : number R) (chord : ChordData)
  : number R :=
  round (mul (mul (duration chord) baseDuration) (ticksPerSecond tempo)).

(** Body of [chordSequence.forEach]; the state is the pair of [noteTrack]
    and [currentTicks]. *)
Definition pushChord (baseDuration tempo : number R)
  (st : list MIDIEvent * number R) (chord : ChordData) (chordIndex : nat)
  : list MIDIEvent * number R :=
  let (noteTrack, currentTicks) := st in
  let durationTicks := durationTicksOf baseDuration tempo chord in
  let noteTrack :=
    forEach (pushNoteOn chordIndex) (pythagoreanNotes chord) 0 noteTrack in
  let noteTrack :=
    forEach (pushNoteOff durationTicks) (pythagoreanNotes chord) 0 noteTrack in
  (noteTrack, add currentTicks durationTicks).

Definition noteTrack (chordSequence : list ChordData)
  (baseDuration tempo : number R) : list MIDIEvent :=
  fst (forEach (pushChord baseDuration tempo) chordSequence 0 ([], ofZ 0))
    ++ [endOfTrack].

Definition generatePythagoreanMIDI (chordSequence : list ChordData)
  (baseDuration tempo : number R) : list Z :=
  createMIDIFile
    [ tempoTrack tempo; noteTrack chordSequence baseDuration tempo ].

(** ** The track of notes, as the specification describes it *)

(** The elements of a list with their indices. *)
Definition indexed {A : Type} (l : list A) : list (nat * A) :=
  combine (seq 0 (List.length l)) l.

Definition pitchBendEvent (noteIndex : nat) (cents : number R) : MIDIEvent :=
  let bend := toInt32 (centsToPitchBend cents) in
  mkEvent (ofZ 0)
    [ ofZ (Z.lor 224 (channelOf noteIndex)); ofZ (Z.land bend 127);
      ofZ (Z.land (Z.shiftr bend 7) 127) ].

Definition noteOnEvent (noteIndex : nat) (note : number R) : MIDIEvent :=
  mkEvent (ofZ 0) [ofZ (Z.lor 144 (channelOf noteIndex)); note; ofZ 80].

Definition noteOffEvent (delta : number R) (noteIndex : nat)
  (note : number R) : MIDIEvent :=
  mkEvent delta [ofZ (Z.lor 128 (channelOf noteIndex)); note; ofZ 0].

(** A note's optional pitch bend followed by its note on. *)
Definition specNoteOn (p : nat * NoteData) : list MIDIEvent :=
  let (note, cents) := frequencyToMIDI (frequency (snd p)) in
  (if gtb (abs cents) (/ 2) then [pitchBendEvent (fst p) cents] else [])
    ++ [noteOnEvent (fst p) note].

(** A note's note off: the first one of a chord carries the duration. *)
Definition specNoteOff (durationTicks : number R) (p : nat * NoteData)
  : MIDIEvent :=
  noteOffEvent (if (fst p =? 0)%nat then durationTicks else ofZ 0) (fst p)
    (fst (frequencyToMIDI (frequency (snd p)))).

Definition specChord (baseDuration tempo : number R) (chord : ChordData)
  : list MIDIEvent :=
  flat_map specNoteOn (indexed (pythagoreanNotes chord))
    ++ map (specNoteOff (durationTicksOf baseDuration tempo chord))
         (indexed (pythagoreanNotes chord)).

Definition specNoteTrack (chordSequence : list ChordData)
  (baseDuration tempo : number R) : list MIDIEvent :=
  flat_map (specChord baseDuration tempo) chordSequence ++ [endOfTrack].

(** The bytes one event contributes to the track data. *)
Definition eventBytes (e : MIDIEvent) : list (number R) :=
  (writeVarLength [] (deltaTime e) ++ data e)%list.

(** The status byte of an event. *)
Definition statusOf (e : MIDIEvent) : Z :=
  match data e with
  | Num x :: _ => truncate x
  | _ => 0
  end.

Definition isPitchBend (e : MIDIEvent) : bool :=
  (224 <=? statusOf e) && (statusOf e <=? 239).

(** ** [generateEqualTemperamentMIDI] *)

Record ETChordData : Type := mkETChordData {
  equalTemperamentNotes : list NoteData;
  durationET : number R
}.

(** Body of the first [equalTemperamentNotes.forEach]: note on. *)
Definition pushNoteOnET (chordIndex : nat) (noteTrack : list MIDIEvent)
  (noteData : NoteData) (noteIndex : nat) : list MIDIEvent :=
  let note := fst (frequencyToMIDI (frequency noteData)) in
  let channel := channelOf noteIndex in
  noteTrack ++
    [ mkEvent
        (if (chordIndex =? 0)%nat && (noteIndex =? 0)%nat
         then ofZ 0 else ofZ 0)
        [ofZ (Z.lor 144 channel); note; ofZ 80] ].

(** Body of [chordSequence.forEach]; the second inner loop has the body
    of the Pythagorean one. *)
Definition pushChordET (baseDuration tempo : number R)
  (noteTrack : list MIDIEvent) (chord : ETChordData) (chordIndex : nat)
  : list MIDIEvent :=
  let durationTicks :=
    round (mul (mul (durationET chord) baseDuration)
               (ticksPerSecond tempo)) in
  let noteTrack :=
    forEach (pushNoteOnET chordIndex) (equalTemperamentNotes chord) 0
      noteTrack in
  forEach (pushNoteOff durationTicks) (equalTemperamentNotes chord) 0
    noteTrack.

Definition noteTrackET (chordSequence : list ETChordData)
  (baseDuration tempo : number R) : list MIDIEvent :=
  forEach (pushChordET baseDuration tempo) chordSequence 0 []
    ++ [endOfTrack].

Definition generateEqualTemperamentMIDI (chordSequence : list ETChordData)
  (baseDuration tempo : number R) : list Z :=
  createMIDIFile
    [ tempoTrack tempo; noteTrackET chordSequence baseDuration tempo ].

(** ** Reading a variable-length quantity back *)

(** The value of a variable-length quantity: seven bits per byte, most
    significant group first. *)
Definition decodeVarLength (bytes : list Z) : Z :=
  fold_left (fun acc b => acc * 128 + Z.land b 127) bytes 0.

(** The bytes [writeVarLength] pushes for a 32-bit integer. *)
Definition varLengthBytes (v : Z) : list Z :=
  rev (varLengthLoop 5 (Z.shiftr v 7) [Z.land v 127]).

(** The value of a big-endian 32-bit field. *)
Definition decodeUint32BE (bytes : list Z) : Z :=
  fold_left (fun acc b => acc * 256 + b) bytes 0.

(** The channel and the note number of a note event of kind [kind]. *)
Definition channelAndNote (kind : Z) (e : MIDIEvent) : Z * number R :=
  (statusOf e - kind, nth 1 (data e) NaN).

Definition notBend (e : MIDIEvent) : bool := negb (isPitchBend e).

(** The same chord with its notes read as equal-temperament notes. *)
Definition asET (chord : ChordData) : ETChordData :=
  mkETChordData (pythagoreanNotes chord) (duration chord).

(** ** The bytes of track 1, as the specification describes them *)

(** A note's optional pitch bend and its note on, each a delta-time of
    one byte, a status byte and two data bytes. *)
Definition noteOnBytes (p : nat * NoteData) : list Z :=
  let (note, cents) := frequencyToMIDI (frequency (snd p)) in
  let channel := Z.min (Z.of_nat (fst p)) 15 in
  let bend := toInt32 (centsToPitchBend cents) in
  ((if gtb (abs cents) (/ 2)
    then [0; 224 + channel; Z.land bend 127; Z.land (Z.shiftr bend 7) 127]
    else [])
   ++ [0; 144 + channel; toUint8 note; 80])%list.

(** A note's note off: the first one of a chord carries the duration as
    a variable-length quantity. *)
Definition noteOffBytes (durationTicks : number R) (p : nat * NoteData)
  : list Z :=
  let note := fst (frequencyToMIDI (frequency (snd p))) in
  let channel := Z.min (Z.of_nat (fst p)) 15 in
  ((if (fst p =? 0)%nat then varLengthBytes (toInt32 durationTicks) else [0])
   ++ [128 + channel; toUint8 note; 0])%list.

Definition chordBytes (durationTicks : number R) (notes : list NoteData)
  : list Z :=
  (flat_map noteOnBytes (indexed notes)
     ++ flat_map (noteOffBytes durationTicks) (indexed notes))%list.

End MIDIExporter.

(* ================================================================== *)
(** * The chord builder of the page (src/unnamed/part_002) and the
      on-screen keyboard (src/components/piano-keyboard.tsx) *)
(* ================================================================== *)

Module ChordTool.

Import JS.
Local Open Scope string_scope.
Local Open Scope Z_scope.

(** [String(n)] for an integer [n]. *)
Definition numberToString (n : Z) : string :=
  if n <? 0 then "-" ++ decimal (- n) else decimal n.

Fixpoint filter_string (p : ascii -> bool) (s : string) : string :=
  match s with
  | EmptyString => EmptyString
  | String c r =>
      if p c then String c (filter_string p r) else filter_string p r
  end.

Definition semitoneToScaleDegree : list (Z * string) :=
  [ (0, "1"); (1, "b2"); (2, "2"); (3, "b3"); (4, "3"); (5, "4");
    (6, "b5"); (7, "5"); (8, "b6"); (9, "6"); (10, "b7"); (11, "7") ].

Fixpoint lookupDegree (table : list (Z * string)) (key : Z) : option string :=
  match table with
  | [] => None
  | (k, v) :: rest => if k =? key then Some v else lookupDegree rest key
  end.

(** [semitonesToScaleDegree(totalSemitones)] for an integer argument. *)
Definition semitonesToScaleDegree (totalSemitones : Z) : string :=
  let octaves := totalSemitones / 12 in
  let semitonesInOctave := Z.rem totalSemitones 12 in
  let baseDegree :=
    match lookupDegree semitoneToScaleDegree semitonesInOctave with
    | Some d => if isEmpty d then "1" else d
    | None => "1"
    end in
  if octaves =? 0 then baseDegree
  else
    let degreeNumber := parseInt (filter_string isDigit baseDegree) in
    let accidental := filter_string (fun c => negb (isDigit c)) baseDegree in
    let compoundDegree := degreeNumber + octaves * 7 in
    accidental ++ numberToString compoundDegree.

End ChordTool.

Module PianoKeyboard.

Import JS.
Local Open Scope string_scope.
Local Open Scope bool_scope.
Local Open Scope Z_scope.

Definition noteMap : list (string * Q) :=
  map (fun p => (fst p, inject_Z (snd p)))
    [ ("C", 0); ("C#", 1); ("D", 2); ("D#", 3); ("E", 4); ("F", 5);
      ("F#", 6); ("G", 7); ("G#", 8); ("A", 9); ("A#", 10); ("B", 11) ].

(** [/^([A-G]#?)(\d+)$/]: the two capture groups. *)
Definition matchKey (s : string) : option (string * string) :=
  match s with
  | EmptyString => None
  | String l r =>
      if PythagoreanTuning.isNoteLetter l then
        match r with
        | String "#" r' =>
            if PythagoreanTuning.isDigits r'
            then Some (String l (String "#" EmptyString), r') else None
        | _ =>
            if PythagoreanTuning.isDigits r
            then Some (String l EmptyString, r) else None
        end
      else None
  end.

Definition getFrequency (note : string) : number R :=
  match matchKey note with
  | None => RealNumber.ofZ 440
  | Some (noteName, octaveStr) =>
      let octave := parseInt octaveStr in
      let noteNumber := PythagoreanTuning.getProperty noteMap noteName in
      let semitonesFromA4 :=
        match PythagoreanTuning.plus noteNumber (inject_Z (- 9)) with
        | Num x => Num (inject_Z ((octave - 4) * 12) + x)%Q
        | other => other
        end in
      RealNumber.mul (RealNumber.ofZ 440)
        (RealNumber.pow2
           (RealNumber.div (RealNumber.ofQ semitonesFromA4)
                           (RealNumber.ofZ 12)))
  end.

End PianoKeyboard.

Unset Implicit Arguments.

(* ================================================================== *)
(** * Properties of the sequence parser *)
(* ================================================================== *)

Section ParserFacts.

Import JS.
Import Parser.
Local Open Scope string_scope.
Local Open Scope bool_scope.

Lemma partsLoop_app (a b : list string) (st : list string * number Q) :
  partsLoop (a ++ b) st = bind (partsLoop a st) (partsLoop b).
Proof.
  revert st; induction a as [|p a IH]; intros st; simpl; [reflexivity|].
  destruct (partStep st p) as [st'|m]; simpl; [apply IH | reflexivity].
Qed.

Lemma partStep_interval (ivs : list string) (d : number Q) (p : string) :
  isDurationPart p = false ->
  partStep (ivs, d) p
  = Returned ((ivs ++ if isIntervalPart p then [p] else [])%list, d).
Proof.
  intros Hd; unfold partStep, isIntervalPart; rewrite Hd; simpl.
  destruct (isEmpty p); simpl; [rewrite List.app_nil_r|]; reflexivity.
Qed.

Lemma partStep_duration (ivs : list string) (d : number Q) (p : string)
  (st : list string * number Q) :
  isDurationPart p = true ->
  partStep (ivs, d) p = Returned st ->
  exists captured,
    matchDuration p = Some captured
    /\ isNaN (parseFloat captured) || leZero (parseFloat captured) = false
    /\ st = (ivs, parseFloat captured).
Proof.
  intros Hd; unfold partStep; rewrite Hd.
  destruct (matchDuration p) as [cap|]; [|discriminate].
  destruct (isNaN (parseFloat cap) || leZero (parseFloat cap)) eqn:E;
    [discriminate|].
  intros [= <-]; exists cap; auto.
Qed.

Lemma partStep_intervals (ivs : list string) (d : number Q) (p : string)
  (ivs' : list string) (d' : number Q) :
  partStep (ivs, d) p = Returned (ivs', d') ->
  ivs' = (ivs ++ if isIntervalPart p then [p] else [])%list.
Proof.
  destruct (isDurationPart p) eqn:Hd.
  - intros H; destruct (partStep_duration _ _ _ _ Hd H) as (cap & _ & _ & E).
    injection E as -> _. unfold isIntervalPart; rewrite Hd; simpl.
    now rewrite List.app_nil_r.
  - rewrite (partStep_interval _ _ _ Hd); now intros [= <- _].
Qed.

(** The intervals are the interval parts, in their written order. *)
Lemma partsLoop_intervals (parts : list string) :
  forall ivs d ivs' d',
    partsLoop parts (ivs, d) = Returned (ivs', d') ->
    ivs' = (ivs ++ filter isIntervalPart parts)%list.
Proof.
  induction parts as [|p parts IH]; intros ivs d ivs' d'; cbn [partsLoop bind].
  - intros [= <- _]; now rewrite List.app_nil_r.
  - destruct (partStep (ivs, d) p) as [[ivs1 d1]|m] eqn:E; cbn [partsLoop bind];
      [|discriminate].
    intros H. apply IH in H. apply partStep_intervals in E. subst.
    rewrite <- List.app_assoc. cbn [filter].
    now destruct (isIntervalPart p).
Qed.

(** Without a duration part the duration is left as it was. *)
Lemma partsLoop_no_duration (parts : list string) :
  forall ivs d ivs' d',
    (forall p, In p parts -> isDurationPart p = false) ->
    partsLoop parts (ivs, d) = Returned (ivs', d') -> d' = d.
Proof.
  induction parts as [|p parts IH]; intros ivs d ivs' d' Hno; cbn [partsLoop bind].
  - now intros [= _ <-].
  - rewrite (partStep_interval _ _ _ (Hno p (or_introl eq_refl))); cbn [partsLoop bind].
    apply IH. intros q Hq; apply Hno; now right.
Qed.

(** The last duration part decides the duration, wherever it stands. *)
Lemma partsLoop_last_duration (pre post : list string) (p : string) :
  forall ivs d ivs' d',
    isDurationPart p = true ->
    (forall q, In q post -> isDurationPart q = false) ->
    partsLoop (pre ++ p :: post) (ivs, d) = Returned (ivs', d') ->
    exists captured,
      matchDuration p = Some captured /\ d' = parseFloat captured.
Proof.
  intros ivs d ivs' d' Hp Hpost. rewrite partsLoop_app.
  destruct (partsLoop pre (ivs, d)) as [[ivs1 d1]|m]; cbn [partsLoop bind]; [|discriminate].
  destruct (partStep (ivs1, d1) p) as [st2|m] eqn:E; cbn [partsLoop bind]; [|discriminate].
  destruct (partStep_duration _ _ _ _ Hp E) as (cap & Hm & _ & ->).
  intros H. apply partsLoop_no_duration in H; [|assumption].
  exists cap; auto.
Qed.

(** Accepted parts never throw. *)
Lemma partsLoop_accepted (parts : list string) :
  forall st, Forall acceptedPart parts ->
    exists st', partsLoop parts st = Returned st'.
Proof.
  induction parts as [|p parts IH]; intros [ivs d] Hall; cbn [partsLoop bind].
  - eexists; reflexivity.
  - inversion Hall as [|? ? Hp Hrest]; subst.
    destruct (isDurationPart p) eqn:Hd.
    + destruct (Hp Hd) as (cap & Hm & Hok).
      unfold partStep; rewrite Hd, Hm, Hok; cbn [partsLoop bind]. now apply IH.
    + rewrite (partStep_interval _ _ _ Hd); cbn [partsLoop bind]. now apply IH.
Qed.

(** A duration part whose value is not a positive number throws, provided
    the parts before it were accepted. *)
Lemma partsLoop_bad_value (pre post : list string) (p captured : string) :
  forall st,
    Forall acceptedPart pre ->
    isDurationPart p = true ->
    matchDuration p = Some captured ->
    isNaN (parseFloat captured) || leZero (parseFloat captured) = true ->
    partsLoop (pre ++ p :: post) st = Thrown (errDurationValue captured).
Proof.
  intros st Hpre Hd Hm Hbad. rewrite partsLoop_app.
  destruct (partsLoop_accepted pre st Hpre) as ([ivs1 d1] & ->); cbn [partsLoop bind].
  unfold partStep; now rewrite Hd, Hm, Hbad.
Qed.

(** ** Comment lines *)

Lemma trimEnd_cons (c : ascii) (r : string) :
  isWhiteSpace c = false -> exists r', trimEnd (String c r) = String c r'.
Proof.
  intros Hc; simpl; rewrite Hc. destruct (trimEnd r); eexists; reflexivity.
Qed.

Lemma trim_empty (line : string) :
  trimStart line = EmptyString -> trim line = EmptyString.
Proof. unfold trim; now intros ->. Qed.

Lemma trim_hash (line : string) :
  startsWith (trimStart line) "#" = true -> startsWith (trim line) "#" = true.
Proof.
  unfold trim. destruct (trimStart line) as [|c r] eqn:E; [discriminate|].
  cbn [startsWith]. rewrite andb_true_r.
  destruct (Ascii.eqb_spec c "#") as [->|]; [|discriminate].
  intros _. destruct (trimEnd_cons "#" r eq_refl) as (r' & ->).
  cbn [startsWith]. reflexivity.
Qed.

Lemma trim_slashes (line : string) :
  startsWith (trimStart line) "//" = true ->
  startsWith (trim line) "//" = true.
Proof.
  unfold trim. destruct (trimStart line) as [|c r] eqn:E; [discriminate|].
  cbn [startsWith].
  destruct (Ascii.eqb_spec c "/") as [->|]; [|discriminate].
  destruct r as [|d r]; [discriminate|].
  destruct (Ascii.eqb_spec d "/") as [->|]; [|discriminate].
  intros _.
  destruct (trimEnd_cons "/" r eq_refl) as (r' & Hr').
  change (trimEnd (String "/" (String "/" r)))
    with (match trimEnd (String "/" r) with
          | EmptyString => String "/" EmptyString
          | String x y => String "/" (String x y)
          end).
  rewrite Hr'. reflexivity.
Qed.

(** ** The loop over the lines *)

Lemma linesLoop_skipped (lines : list string) :
  forall i chords,
    Forall (fun l => parseChordLine l = Returned None) lines ->
    linesLoop lines i chords = Returned chords.
Proof.
  induction lines as [|l lines IH]; intros i chords Hall; simpl;
    [reflexivity|].
  inversion Hall as [|? ? Hl Hrest]; subst. rewrite Hl. now apply IH.
Qed.

Lemma linesLoop_first_throw (before after : list string) (l message : string) :
  forall i chords,
    Forall (fun l' => throws (parseChordLine l') = false) before ->
    parseChordLine l = Thrown message ->
    linesLoop (before ++ l :: after) i chords
    = Thrown (errLine (i + List.length before + 1) message).
Proof.
  induction before as [|b before IH]; intros i chords Hall Hl; simpl.
  - rewrite Hl. now rewrite Nat.add_0_r.
  - inversion Hall as [|? ? Hb Hrest]; subst.
    destruct (parseChordLine b) as [[c|]|m]; [| |discriminate];
      rewrite IH by assumption; do 2 f_equal; lia.
Qed.

(** ** The claims about the parser *)

(** C8: [parseChordLine "C4: 1,3,5, duration=2"] is the chord with
    fundamental [C4], intervals [1], [3], [5] and duration 2.  Whenever a
    line yields a chord, its intervals are exactly the parts after the
    colon that are neither duration parts nor empty, in their written
    order and with repetitions kept; its duration is 1 when no part is a
    duration part; and a duration part is recognised at any position among
    the parts, the last one giving the duration. *)
Theorem parseChordLine_collects_parts :
  parseChordLine "C4: 1,3,5, duration=2"
  = Returned (Some (mkChord "C4" ["1"; "3"; "5"] (Num (2 # 1))))
  /\ parseChordLine "C4: 5, duration=3, 1, 5"
     = Returned (Some (mkChord "C4" ["5"; "1"; "5"] (Num (3 # 1))))
  /\ forall line chord,
       parseChordLine line = Returned (Some chord) ->
       exists colonIndex,
         indexOf (trim line) ":" = Some colonIndex
         /\ fundamental chord = trim (substringTo (trim line) colonIndex)
         /\ intervals chord
            = filter isIntervalPart (partsOf (trim line) colonIndex)
         /\ ((forall p, In p (partsOf (trim line) colonIndex) ->
                        isDurationPart p = false) ->
             duration chord = Num (1 # 1))
         /\ (forall pre p post,
                partsOf (trim line) colonIndex = (pre ++ p :: post)%list ->
                isDurationPart p = true ->
                (forall q, In q post -> isDurationPart q = false) ->
                exists captured,
                  matchDuration p = Some captured
                  /\ duration chord = parseFloat captured).
Proof.
  split; [vm_compute; reflexivity|].
  split; [vm_compute; reflexivity|].
  intros line chord. unfold parseChordLine.
  destruct (isSkipped (trim line)); [discriminate|].
  destruct (indexOf (trim line) ":") as [colonIndex|]; [|discriminate].
  destruct (partsLoop (partsOf (trim line) colonIndex) ([], one))
    as [[ivs d]|m] eqn:E; cbn [bind]; [|discriminate].
  destruct (List.length ivs =? 0)%nat; [discriminate|].
  intros [= <-]. exists colonIndex. cbn [fundamental intervals duration].
  split; [reflexivity|]. split; [reflexivity|].
  split; [exact (partsLoop_intervals _ _ _ _ _ E)|].
  split.
  - intros Hno. exact (partsLoop_no_duration _ _ _ _ _ Hno E).
  - intros pre p post Hparts Hp Hpost. rewrite Hparts in E.
    exact (partsLoop_last_duration _ _ _ _ _ _ _ Hp Hpost E).
Qed.

Lemma parseChordLine_collects_parts_witness :
  exists colonIndex,
    indexOf (trim "A3: 1,b3,5, duration=1.5") ":" = Some colonIndex
    /\ fundamental (mkChord "A3" ["1"; "b3"; "5"] (Num (3 # 2)))
       = trim (substringTo (trim "A3: 1,b3,5, duration=1.5") colonIndex)
    /\ intervals (mkChord "A3" ["1"; "b3"; "5"] (Num (3 # 2)))
       = filter isIntervalPart
           (partsOf (trim "A3: 1,b3,5, duration=1.5") colonIndex)
    /\ ((forall p,
            In p (partsOf (trim "A3: 1,b3,5, duration=1.5") colonIndex) ->
            isDurationPart p = false) ->
        duration (mkChord "A3" ["1"; "b3"; "5"] (Num (3 # 2))) = Num (1 # 1))
    /\ (forall pre p post,
           partsOf (trim "A3: 1,b3,5, duration=1.5") colonIndex
           = (pre ++ p :: post)%list ->
           isDurationPart p = true ->
           (forall q, In q post -> isDurationPart q = false) ->
           exists captured,
             matchDuration p = Some captured
             /\ duration (mkChord "A3" ["1"; "b3"; "5"] (Num (3 # 2)))
                = parseFloat captured).
Proof.
  apply (proj2 (proj2 parseChordLine_collects_parts)
           "A3: 1,b3,5, duration=1.5").
  vm_compute; reflexivity.
Defined.

(** C3: [parseChordSequence] fails at the first line on which
    [parseChordLine] throws, with that line's 1-based number in front of
    the message.  A line that is not skipped and has no colon throws; so
    does a duration part whose value is not-a-number or not positive, and a
    line none of whose parts is an interval.  A blank line, and a line whose
    first non-blank characters are [#] or [//], gives [null].  An input all
    of whose lines give [null] fails with the empty-sequence error. *)
Theorem parseChordSequence_fails_fast :
  (forall input before l after message,
      split input newline = (before ++ l :: after)%list ->
      Forall (fun l' => throws (parseChordLine l') = false) before ->
      parseChordLine l = Thrown message ->
      parseChordSequence input
      = Thrown ("Line " ++ decimal (Z.of_nat (List.length before + 1))
                  ++ ": " ++ message))
  /\ (forall line,
         isSkipped (trim line) = false ->
         indexOf (trim line) ":" = None ->
         parseChordLine line = Thrown errMissingColon)
  /\ (forall line colonIndex pre p post captured,
         isSkipped (trim line) = false ->
         indexOf (trim line) ":" = Some colonIndex ->
         partsOf (trim line) colonIndex = (pre ++ p :: post)%list ->
         Forall acceptedPart pre ->
         isDurationPart p = true ->
         matchDuration p = Some captured ->
         isNaN (parseFloat captured) = true
         \/ leZero (parseFloat captured) = true ->
         parseChordLine line = Thrown (errDurationValue captured))
  /\ (forall line colonIndex,
         isSkipped (trim line) = false ->
         indexOf (trim line) ":" = Some colonIndex ->
         Forall acceptedPart (partsOf (trim line) colonIndex) ->
         filter isIntervalPart (partsOf (trim line) colonIndex) = [] ->
         parseChordLine line
         = Thrown (errNoIntervals
                     (trim (substringTo (trim line) colonIndex))))
  /\ (forall line,
         trimStart line = EmptyString
         \/ startsWith (trimStart line) "#" = true
         \/ startsWith (trimStart line) "//" = true ->
         parseChordLine line = Returned None)
  /\ (forall input,
         Forall (fun l => parseChordLine l = Returned None)
                (split input newline) ->
         parseChordSequence input = Thrown errEmptySequence).
Proof.
  repeat split.
  - intros input before l after message Hsplit Hbefore Hl.
    unfold parseChordSequence. rewrite Hsplit.
    rewrite (linesLoop_first_throw before after l message 0 [] Hbefore Hl).
    reflexivity.
  - intros line Hskip Hcolon. unfold parseChordLine.
    now rewrite Hskip, Hcolon.
  - intros line colonIndex pre p post captured Hskip Hcolon Hparts Hpre Hp
      Hm Hbad.
    unfold parseChordLine. rewrite Hskip, Hcolon, Hparts.
    rewrite (partsLoop_bad_value pre post p captured _ Hpre Hp Hm);
      [reflexivity|].
    destruct Hbad as [-> | ->]; [reflexivity | apply orb_true_r].
  - intros line colonIndex Hskip Hcolon Hacc Hnone.
    unfold parseChordLine. rewrite Hskip, Hcolon.
    destruct (partsLoop_accepted _ ([], one) Hacc) as ([ivs d] & E).
    rewrite E; cbn [bind].
    rewrite (partsLoop_intervals _ _ _ _ _ E), Hnone. reflexivity.
  - intros line H. unfold parseChordLine, isSkipped.
    destruct H as [H | [H | H]].
    + now rewrite (trim_empty _ H).
    + rewrite (trim_hash _ H). now rewrite orb_true_r.
    + rewrite (trim_slashes _ H). now rewrite orb_true_r.
  - intros input Hall. unfold parseChordSequence.
    now rewrite (linesLoop_skipped _ 0 [] Hall).
Qed.

Lemma parseChordSequence_fails_fast_witness :
  parseChordSequence "# progression
C4: 1,3,5
F4 1,3,5
G4"
  = Thrown ("Line 3: " ++ errMissingColon).
Proof.
  apply (proj1 parseChordSequence_fails_fast
           _ ["# progression"; "C4: 1,3,5"] "F4 1,3,5" ["G4"]).
  - vm_compute; reflexivity.
  - repeat constructor.
  - vm_compute; reflexivity.
Defined.

End ParserFacts.

(* ================================================================== *)
(** * Properties of the tuning engine *)
(* ================================================================== *)

Section TuningFacts.

Import JS.
Import PythagoreanTuning.
Local Open Scope string_scope.
Local Open Scope bool_scope.
Local Open Scope Z_scope.

(** ** Characters *)

Ltac by_cases_on_char c :=
  destruct c as [[] [] [] [] [] [] [] []]; try discriminate; reflexivity.

Lemma isDigit_not_accidental (c : ascii) :
  isDigit c = true -> isAccidental c = false.
Proof. by_cases_on_char c. Qed.

Lemma isDigit_not_space (c : ascii) :
  isDigit c = true -> isWhiteSpace c = false.
Proof. by_cases_on_char c. Qed.

Lemma parseInt_digit_head (c : ascii) (r : string) :
  isDigit c = true -> parseInt (String c r) = digitsValue (String c r).
Proof. by_cases_on_char c. Qed.

(** ** Decimal numerals *)

Lemma string_of_uint_digits (u : Decimal.uint) :
  forall_string isDigit (NilEmpty.string_of_uint u) = true.
Proof. induction u; simpl; auto. Qed.

Lemma to_uint_nonnil (n : N) : N.to_uint n <> Decimal.Nil.
Proof.
  destruct n; simpl; [discriminate | apply DecimalPos.Unsigned.to_uint_nonnil].
Qed.

Lemma decimal_unfold (n : Z) :
  decimal n = NilEmpty.string_of_uint (N.to_uint (Z.to_N n)).
Proof.
  unfold decimal, NilZero.string_of_uint.
  destruct (N.to_uint (Z.to_N n)) eqn:E; try reflexivity.
  now destruct (to_uint_nonnil _ E).
Qed.

Lemma decimal_head (n : Z) :
  exists c r,
    decimal n = String c r /\ isDigit c = true
    /\ forall_string isDigit r = true.
Proof.
  pose proof (string_of_uint_digits (N.to_uint (Z.to_N n))) as H.
  rewrite <- decimal_unfold in H.
  destruct (decimal n) as [|c r] eqn:E.
  - rewrite decimal_unfold in E.
    destruct (N.to_uint (Z.to_N n)) eqn:E'; try discriminate.
    now destruct (to_uint_nonnil _ E').
  - cbn [forall_string] in H. apply andb_true_iff in H.
    exists c, r; tauto.
Qed.

Lemma decimal_isDigits (n : Z) : isDigits (decimal n) = true.
Proof.
  destruct (decimal_head n) as (c & r & -> & Hc & Hr).
  unfold isDigits; cbn [isEmpty negb forall_string andb]. now rewrite Hc, Hr.
Qed.

Lemma digitsValue_decimal (n : Z) : 0 <= n -> digitsValue (decimal n) = n.
Proof.
  intros Hn. unfold digitsValue.
  rewrite decimal_unfold, NilEmpty.usu, DecimalN.Unsigned.of_to.
  now apply Z2N.id.
Qed.

Lemma parseInt_decimal (n : Z) : 0 <= n -> parseInt (decimal n) = n.
Proof.
  intros Hn. destruct (decimal_head n) as (c & r & E & Hc & _).
  rewrite E, (parseInt_digit_head c r Hc), <- E.
  now apply digitsValue_decimal.
Qed.

(** ** Integers as doubles *)

Lemma pow2_53_lt_1024 : 2 ^ 53 < 2 ^ 1024.
Proof. apply Z.pow_lt_mono_r; lia. Qed.

Lemma nearestFinite_small (z : Z) :
  Z.abs z <= 2 ^ 53 -> nearestFinite z = z.
Proof.
  intros H. unfold nearestFinite.
  now replace (Z.abs z <=? 2 ^ 53) with true by (symmetry; apply Z.leb_le; exact H).
Qed.

Lemma nearestDouble_small (z : Z) :
  Z.abs z <= 2 ^ 53 -> nearestDouble z = Num z.
Proof.
  intros H. unfold nearestDouble. rewrite (nearestFinite_small z H).
  replace (2 ^ 1024 <=? Z.abs z) with false; [reflexivity|].
  symmetry; apply Z.leb_gt. pose proof pow2_53_lt_1024. lia.
Qed.

(** Rounding an integer above [2^53] does not take it below [2^53]. *)
Lemma nearestFinite_large (z : Z) :
  2 ^ 53 < z -> 2 ^ 53 <= nearestFinite z.
Proof.
  intros Hz. assert (0 < 2 ^ 53) as Hpos by (apply Z.pow_pos_nonneg; lia).
  unfold nearestFinite. rewrite Z.abs_eq, Z.sgn_pos by lia.
  replace (z <=? 2 ^ 53) with false by (symmetry; apply Z.leb_gt; exact Hz).
  cbv zeta.
  assert (53 <= Z.log2 z) as Hlog.
  { rewrite <- (Z.log2_pow2 53) by lia. apply Z.log2_le_mono. lia. }
  set (e := Z.log2 z - 52).
  assert (2 ^ 52 <= Z.shiftr z e) as Hm.
  { rewrite Z.shiftr_div_pow2 by (unfold e; lia).
    apply Z.div_le_lower_bound; [apply Z.pow_pos_nonneg; lia|].
    rewrite <- Z.pow_add_r by (unfold e; lia).
    replace (e + 52) with (Z.log2 z) by (unfold e; lia).
    apply Z.log2_spec. lia. }
  assert (2 ^ 1 <= 2 ^ e) as He
    by (apply Z.pow_le_mono_r; unfold e; lia).
  change (2 ^ 1) with 2 in He.
  assert (forall m', Z.shiftr z e <= m' -> 2 ^ 53 <= 1 * (m' * 2 ^ e)) as Hgoal.
  { intros m' Hm'. change (2 ^ 53) with (2 ^ 52 * 2).
    assert (0 < 2 ^ 52) by (apply Z.pow_pos_nonneg; lia). nia. }
  apply Hgoal.
  destruct (z mod 2 ^ e <? 2 ^ (e - 1)); [lia|].
  destruct (2 ^ (e - 1) <? z mod 2 ^ e); [lia|].
  destruct (Z.even (Z.shiftr z e)); lia.
Qed.

Lemma nearestFinite_ge_8 (z : Z) : 8 <= z -> 8 <= nearestFinite z.
Proof.
  intros Hz. assert (8 < 2 ^ 53) as H8 by reflexivity.
  destruct (Z.le_gt_cases z (2 ^ 53)) as [H | H].
  - rewrite nearestFinite_small by lia. exact Hz.
  - pose proof (nearestFinite_large z H). lia.
Qed.

(** The degree read from digits that denote more than 8 is above 8. *)
Lemma nearestDouble_above_8 (z : Z) :
  8 < z ->
  nearestDouble z = Infinity false
  \/ exists n, nearestDouble z = Num n /\ 8 < n.
Proof.
  intros Hz. assert (8 < 2 ^ 53) as H8 by reflexivity.
  unfold nearestDouble.
  replace (z <? 0) with false by (symmetry; apply Z.ltb_ge; lia).
  destruct (2 ^ 1024 <=? Z.abs (nearestFinite z)); [now left | right].
  eexists; split; [reflexivity|].
  pose proof (nearestFinite_ge_8 z ltac:(lia)) as H.
  destruct (Z.le_gt_cases z (2 ^ 53)) as [Hs | Hl].
  - rewrite nearestFinite_small by lia. exact Hz.
  - pose proof (nearestFinite_large z Hl). lia.
Qed.

Lemma digitsValue_nonneg (s : string) : 0 <= digitsValue s.
Proof. unfold digitsValue. destruct (NilEmpty.uint_of_string s); lia. Qed.

(** ** Trimming a symbol without blanks *)

Lemma trimEnd_noBlank (s : string) : noBlank s = true -> trimEnd s = s.
Proof.
  unfold noBlank. induction s as [|c r IH]; [reflexivity|].
  cbn [forall_string]. intros H; apply andb_true_iff in H as [Hc Hr].
  cbn [trimEnd]. rewrite (IH Hr).
  destruct r; [|reflexivity].
  apply negb_true_iff in Hc. now rewrite Hc.
Qed.

Lemma trim_noBlank (s : string) : noBlank s = true -> trim s = s.
Proof.
  intros H. unfold trim.
  assert (trimStart s = s) as ->; [|now apply trimEnd_noBlank].
  destruct s as [|c r]; [reflexivity|].
  unfold noBlank in H; cbn [forall_string] in H.
  apply andb_true_iff in H as [Hc _]. apply negb_true_iff in Hc.
  cbn [trimStart]. now rewrite Hc.
Qed.

Lemma digits_noBlank (s : string) :
  forall_string isDigit s = true -> noBlank s = true.
Proof.
  unfold noBlank. induction s as [|c r IH]; [reflexivity|].
  cbn [forall_string]. intros H; apply andb_true_iff in H as [Hc Hr].
  now rewrite (isDigit_not_space c Hc), (IH Hr).
Qed.

Lemma symbol_noBlank (a : string) (d : Z) :
  In a accidentals -> noBlank (a ++ decimal d) = true.
Proof.
  pose proof (decimal_isDigits d) as H. unfold isDigits in H.
  apply andb_true_iff in H as [_ H]. apply digits_noBlank in H.
  intros [<- | [<- | [<- | []]]]; cbn [append]; unfold noBlank in *;
    cbn [forall_string]; now rewrite ?H.
Qed.

(** ** Matching a symbol made of an accidental and a degree *)

Lemma matchInterval_symbol (a : string) (d : Z) :
  In a accidentals -> matchInterval (a ++ decimal d) = Some (a, decimal d).
Proof.
  pose proof (decimal_isDigits d) as H.
  intros [<- | [<- | [<- | []]]]; cbn [append].
  - destruct (decimal_head d) as (c & r & E & Hc & _).
    rewrite E in *. unfold matchInterval.
    now rewrite (isDigit_not_accidental c Hc), H.
  - unfold matchInterval. cbn. now rewrite H.
  - unfold matchInterval. cbn. now rewrite H.
Qed.

Lemma degreeOf_symbol (a : string) (d : Z) :
  In a accidentals -> 0 <= d -> degreeOf (a ++ decimal d) = d.
Proof.
  intros Ha Hd. unfold degreeOf. rewrite (matchInterval_symbol a d Ha).
  now apply parseInt_decimal.
Qed.

(** ** Reading the table of ratios *)

Lemma ownProperty_intervals_degree (s : string) (q : Q) :
  ownProperty intervals s = Some q -> degreeOf s <= 8.
Proof.
  unfold intervals; cbn [ownProperty].
  repeat match goal with
         | |- context [String.eqb ?k s] =>
             destruct (String.eqb_spec k s) as [<- | _];
             [intros _; vm_compute; discriminate|]
         end.
  discriminate.
Qed.

Lemma inherited_no_match (s : string) :
  existsb (String.eqb s) objectPrototype = true -> matchInterval s = None.
Proof.
  unfold objectPrototype; cbn [existsb].
  repeat match goal with
         | |- context [String.eqb s ?k] =>
             destruct (String.eqb_spec s k) as [-> | _];
             [intros _; reflexivity|]
         end.
  discriminate.
Qed.

Lemma getProperty_symbol (table : list (string * Q)) (a : string) (d : Z) :
  In a accidentals ->
  getProperty table (a ++ decimal d) = Undefined
  \/ exists q, ownProperty table (a ++ decimal d) = Some q
               /\ getProperty table (a ++ decimal d) = Number q.
Proof.
  intros Ha. unfold getProperty.
  destruct (ownProperty table (a ++ decimal d)) as [q|]; [right; eauto|].
  left. destruct (existsb _ objectPrototype) eqn:E; [|reflexivity].
  apply inherited_no_match in E.
  rewrite (matchInterval_symbol a d Ha) in E. discriminate.
Qed.

Lemma getProperty_compound (a : string) (d : Z) :
  In a accidentals -> 8 < d ->
  getProperty intervals (a ++ decimal d) = Undefined.
Proof.
  intros Ha Hd.
  destruct (getProperty_symbol intervals a d Ha) as [H | (q & Hq & _)];
    [exact H|].
  apply ownProperty_intervals_degree in Hq.
  rewrite (degreeOf_symbol a d Ha) in Hq; lia.
Qed.

(** A symbol with a degree up to 8 is looked up in the table, nothing
    else. *)
Lemma getIntervalRatio_simple (a : string) (k : Z) :
  In a accidentals -> 0 <= k <= 8 ->
  getIntervalRatio (a ++ decimal k)
  = match getProperty intervals (a ++ decimal k) with
    | Number q =>
        if truthy (Number q) then Returned (Ratio (Num q))
        else Thrown ("Unknown interval: " ++ a ++ decimal k)
    | _ => Thrown ("Unknown interval: " ++ a ++ decimal k)
    end.
Proof.
  intros Ha Hk. unfold getIntervalRatio.
  rewrite (trim_noBlank _ (symbol_noBlank a k Ha)).
  rewrite (matchInterval_symbol a k Ha), (parseInt_decimal k (proj1 Hk)).
  assert (8 < 2 ^ 53) as H8 by reflexivity.
  rewrite nearestDouble_small by lia. cbn [atMost].
  assert ((k <=? 8) = true) as -> by (apply Z.leb_le; lia).
  destruct (getProperty_symbol intervals a k Ha) as [-> | (q & _ & ->)];
    [reflexivity|].
  cbn [truthy]. destruct (Qeq_bool q 0); reflexivity.
Qed.

(** A symbol with a degree above 8 that a double holds exactly is reduced
    to its base symbol. *)
Lemma getIntervalRatio_reduce (a : string) (d : Z) :
  In a accidentals -> 8 < d <= 2 ^ 53 ->
  getIntervalRatio (a ++ decimal d)
  = let base := a ++ decimal ((d - 1) mod 7 + 1) in
    match getProperty intervals base with
    | Number q =>
        if truthy (Number q)
        then Returned (Ratio (times (Number q) (pow2Z (Num ((d - 1) / 7)))))
        else Thrown ("Unknown compound interval: " ++ (a ++ decimal d)
                       ++ " (derived from " ++ base ++ ")")
    | _ => Thrown ("Unknown compound interval: " ++ (a ++ decimal d)
                     ++ " (derived from " ++ base ++ ")")
    end.
Proof.
  intros Ha Hd. unfold getIntervalRatio.
  rewrite (trim_noBlank _ (symbol_noBlank a d Ha)).
  rewrite (getProperty_compound a d Ha (proj1 Hd)). cbn [truthy].
  rewrite (matchInterval_symbol a d Ha), (parseInt_decimal d) by lia.
  rewrite nearestDouble_small by lia. cbn [atMost reduceDegree].
  assert ((d <=? 8) = false) as -> by (apply Z.leb_gt; lia).
  rewrite nearestFinite_small by lia.
  rewrite Z.rem_mod_nonneg by lia. cbv zeta.
  destruct (getProperty_symbol intervals a ((d - 1) mod 7 + 1) Ha)
    as [-> | (q & _ & ->)]; [reflexivity|].
  cbn [truthy]. destruct (Qeq_bool q 0); reflexivity.
Qed.

(** ** The claims about interval ratios *)

(** C9: for every base interval symbol [getIntervalRatio] returns the
    ratio tabulated for it (14 symbols with 13 distinct ratios), for
    instance 3/2 for [5] and 81/64 for [3]; [#4] and [b5] both give
    729/512. *)
Theorem getIntervalRatio_base_table :
  map getIntervalRatio
    [ "1"; "b2"; "2"; "b3"; "3"; "4"; "#4"; "b5"; "5"; "b6"; "6"; "b7";
      "7"; "8" ]
  = map (fun q => Returned (Ratio (Num q)))
      [ 1 # 1; 256 # 243; 9 # 8; 32 # 27; 81 # 64; 4 # 3; 729 # 512;
        729 # 512; 3 # 2; 128 # 81; 27 # 16; 16 # 9; 243 # 128; 2 # 1 ]%Q
  /\ map fst intervals
     = [ "1"; "b2"; "2"; "b3"; "3"; "4"; "#4"; "b5"; "5"; "b6"; "6"; "b7";
         "7"; "8" ]
  /\ getIntervalRatio "5" = Returned (Ratio (Num (3 # 2)))
  /\ getIntervalRatio "3" = Returned (Ratio (Num (81 # 64)))
  /\ getIntervalRatio "#4" = Returned (Ratio (Num (729 # 512)))
  /\ getIntervalRatio "b5" = Returned (Ratio (Num (729 # 512))).
Proof. repeat split; vm_compute; reflexivity. Qed.

Lemma ownProperty_intervals_positive (s : string) (q : Q) :
  ownProperty intervals s = Some q -> (q ?= 0)%Q = Gt.
Proof.
  unfold intervals; cbn [ownProperty].
  repeat match goal with
         | |- context [String.eqb ?k s] =>
             destruct (String.eqb_spec k s) as [<- | _];
             [intros [= <-]; reflexivity|]
         end.
  discriminate.
Qed.

(** C4, the claim as stated fails: the digits [9007199254740993] denote
    the degree [2^53 + 1], whose base degree [((d-1) mod 7) + 1] is 5, and
    [b5] has the ratio 729/512; but [parseInt] makes the nearest double
    [2^53] of these digits, the base degree derived from it is 4, and
    [getIntervalRatio] throws on [b9007199254740993] because [b4] is not
    in the table. *)
Lemma getIntervalRatio_long_degree_is_rounded :
  9007199254740993 = 2 ^ 53 + 1
  /\ (9007199254740993 - 1) mod 7 + 1 = 5
  /\ getIntervalRatio ("b" ++ decimal 5)
     = Returned (Ratio (Num (729 # 512)))
  /\ nearestDouble (parseInt "9007199254740993") = Num (2 ^ 53)
  /\ getIntervalRatio ("b" ++ decimal 9007199254740993)
     = Thrown
         "Unknown compound interval: b9007199254740993 (derived from b4)"
  /\ throws (getIntervalRatio ("b" ++ decimal 9007199254740993))
     <> throws (getIntervalRatio
                  ("b" ++ decimal ((9007199254740993 - 1) mod 7 + 1))).
Proof.
  split; [reflexivity|]. split; [reflexivity|].
  split; [vm_compute; reflexivity|]. split; [vm_compute; reflexivity|].
  split; [vm_compute; reflexivity|]. vm_compute. discriminate.
Qed.

(** C4, amended: for a degree [d] with [8 < d <= 2^53] (the integers a
    double holds exactly) and an accidental [a] among the empty one, [#]
    and [b], [getIntervalRatio (a+d)] is [getIntervalRatio] of the base
    symbol [a + (((d-1) mod 7)+1)] times [2^floor((d-1)/7)]: it throws
    when the base symbol throws, and otherwise returns that product, which
    is infinite once [floor((d-1)/7)] reaches 1024.  In particular
    [getIntervalRatio "9"] is twice [getIntervalRatio "2"] and
    [getIntervalRatio "15"] is 4. *)
Theorem getIntervalRatio_compound :
  (forall a d,
      In a accidentals -> 8 < d <= 2 ^ 53 ->
      let base := a ++ decimal ((d - 1) mod 7 + 1) in
      let octaves := (d - 1) / 7 in
      throws (getIntervalRatio (a ++ decimal d))
      = throws (getIntervalRatio base)
      /\ forall r,
           getIntervalRatio base = Returned (Ratio (Num r)) ->
           getIntervalRatio (a ++ decimal d)
           = Returned (Ratio (if octaves <? 1024
                              then Num (r * inject_Z 2 ^ octaves)%Q
                              else Infinity false)))
  /\ getIntervalRatio "2" = Returned (Ratio (Num (9 # 8)))
  /\ getIntervalRatio "9" = Returned (Ratio (Num ((9 # 8) * (2 # 1))%Q))
  /\ getIntervalRatio "15" = Returned (Ratio (Num (4 # 1))).
Proof.
  split; [|repeat split; vm_compute; reflexivity].
  intros a d Ha Hd base octaves.
  pose proof (Z.mod_pos_bound (d - 1) 7 ltac:(lia)) as Hbase.
  assert (1 <= (d - 1) / 7) as Hoct
    by (apply Z.div_le_lower_bound; lia).
  subst base octaves.
  rewrite (getIntervalRatio_reduce a d Ha Hd).
  rewrite (getIntervalRatio_simple a ((d - 1) mod 7 + 1) Ha) by lia.
  cbv zeta.
  destruct (getProperty_symbol intervals a ((d - 1) mod 7 + 1) Ha)
    as [-> | (q & Hown & ->)]; cbn [throws];
    [split; [reflexivity | discriminate]|].
  destruct (truthy (Number q)); cbn [throws];
    (split; [reflexivity|]); [|discriminate].
  intros r [= <-]. do 2 f_equal. cbn [times pow2Z].
  destruct ((d - 1) / 7 <? 1024) eqn:E.
  - apply Z.ltb_lt in E.
    replace (1024 <=? (d - 1) / 7) with false
      by (symmetry; apply Z.leb_gt; exact E).
    now replace ((d - 1) / 7 <? -1074) with false
      by (symmetry; apply Z.ltb_ge; lia).
  - apply Z.ltb_ge in E.
    replace (1024 <=? (d - 1) / 7) with true
      by (symmetry; apply Z.leb_le; exact E).
    now rewrite (ownProperty_intervals_positive _ q Hown).
Qed.

Lemma getIntervalRatio_compound_witness :
  getIntervalRatio "#11"
  = Returned (Ratio (Num ((729 # 512) * inject_Z 2 ^ 1)%Q))
  /\ getIntervalRatio "7169" = Returned (Ratio (Infinity false)).
Proof.
  split.
  - refine (proj2 (proj1 getIntervalRatio_compound "#" 11 _ _)
              (729 # 512)%Q _).
    + right; left; reflexivity.
    + split; [reflexivity | discriminate].
    + vm_compute; reflexivity.
  - refine (proj2 (proj1 getIntervalRatio_compound EmptyString 7169 _ _)
              (1 # 1)%Q _).
    + left; reflexivity.
    + split; [reflexivity | discriminate].
    + vm_compute; reflexivity.
Defined.

(** C1: on the compound symbol [#9], whose base symbol [#2] is in neither
    table, [getIntervalRatio] throws, whereas [calculateEqualTemperament]
    throws nothing and returns not-a-number, whatever the fundamental. *)
Theorem calculateEqualTemperament_unknown_base_is_NaN :
  getIntervalRatio "#9"
  = Thrown "Unknown compound interval: #9 (derived from #2)"
  /\ semitonesOf "#9" = Returned NaN
  /\ forall fundamental,
       calculateEqualTemperament fundamental "#9" = Returned NaN.
Proof.
  split; [vm_compute; reflexivity|].
  split; [vm_compute; reflexivity|].
  intros fundamental. unfold calculateEqualTemperament.
  replace (semitonesOf "#9") with (@Returned (number Q) NaN)
    by (vm_compute; reflexivity).
  cbn [bind RealNumber.ofQ RealNumber.div RealNumber.ofZ RealNumber.pow2].
  destruct fundamental; reflexivity.
Qed.

End TuningFacts.

(* ================================================================== *)
(** * Arithmetic of numbers over the reals *)
(* ================================================================== *)

Section RealNumberFacts.

Import JS.
Import RealNumber.
Local Open Scope R_scope.

Lemma signOf_positive (x : R) : 0 < x -> signOf x = Positive.
Proof.
  intros H. unfold signOf.
  destruct (total_order_T x 0) as [[Hlt | Heq] | Hgt]; [lra | lra | reflexivity].
Qed.

Lemma signOf_negative (x : R) : x < 0 -> signOf x = Negative.
Proof.
  intros H. unfold signOf.
  destruct (total_order_T x 0) as [[Hlt | Heq] | Hgt]; [reflexivity | lra | lra].
Qed.

Lemma signOf_zero : signOf 0 = Zero.
Proof.
  unfold signOf.
  destruct (total_order_T 0 0) as [[Hlt | Heq] | Hgt]; [lra | reflexivity | lra].
Qed.

(** ** Quotients *)

Lemma Rabs_le_bounds (x b : R) : Rabs x <= b -> - b <= x <= b.
Proof. unfold Rabs. destruct (Rcase_abs x); lra. Qed.

Lemma minDouble_pos : 0 < minDouble.
Proof.
  unfold minDouble. apply Rinv_0_lt_compat. apply (IZR_lt 0).
  apply Z.pow_pos_nonneg; lia.
Qed.

Lemma minDouble_tiny : minDouble <= / 1073741824.
Proof.
  unfold minDouble. apply Rinv_le_contravar; [lra|]. apply IZR_le.
  change 1073741824%Z with (2 ^ 30)%Z. apply Z.pow_le_mono_r; lia.
Qed.

Lemma quotient_exact (x y : R) :
  x = 0 \/ minDouble / 2 < Rabs (x / y) -> quotient x y = x / y.
Proof.
  intros H. unfold quotient.
  destruct (Rle_dec (Rabs (x / y)) (minDouble / 2)) as [Hle|]; [|reflexivity].
  destruct H as [-> | H]; [unfold Rdiv; ring | lra].
Qed.

Lemma div_quotient (x y : R) :
  y <> 0 -> div (Num x) (Num y) = Num (quotient x y).
Proof.
  intros Hy. unfold div, signOf.
  destruct (total_order_T y 0) as [[Hlt | Heq] | Hgt];
    [reflexivity | contradiction | reflexivity].
Qed.

(** Division of a positive number by a positive number, away from the
    smallest double. *)
Lemma div_positive (x y : R) :
  0 < y -> minDouble / 2 * y < x -> div (Num x) (Num y) = Num (x / y).
Proof.
  intros Hy Hx. rewrite div_quotient by lra. f_equal.
  apply quotient_exact. right.
  pose proof minDouble_pos as Hm.
  assert (0 < x) as Hxpos.
  { apply Rlt_trans with (minDouble / 2 * y); [|exact Hx].
    apply Rmult_lt_0_compat; lra. }
  rewrite Rabs_pos_eq by (apply Rlt_le, Rdiv_lt_0_compat; assumption).
  apply Rmult_lt_reg_r with y; [exact Hy|].
  replace (x / y * y) with x by (field; lra). exact Hx.
Qed.

(** Division of an integer by a positive constant. *)
Lemma quotient_integer (k : Z) (y : R) :
  0 < y <= 1024 -> quotient (IZR k) y = IZR k / y.
Proof.
  intros Hy. apply quotient_exact.
  destruct (Z.eq_dec k 0) as [-> | Hk]; [now left | right].
  pose proof minDouble_tiny as Hm.
  assert (1 <= Rabs (IZR k)) as Habs.
  { rewrite <- abs_IZR. apply (IZR_le 1). lia. }
  unfold Rdiv. rewrite Rabs_mult, (Rabs_pos_eq (/ y))
    by (apply Rlt_le, Rinv_0_lt_compat; lra).
  assert (/ 1024 <= / y) as Hinv by (apply Rinv_le_contravar; lra).
  assert (0 < / y) as Hpos by (apply Rinv_0_lt_compat; lra).
  apply Rlt_le_trans with (1 * / 1024); [lra|].
  apply Rmult_le_compat; lra.
Qed.

Lemma div_integer (k : Z) (y : R) :
  0 < y <= 1024 -> div (ofZ k) (Num y) = Num (IZR k / y).
Proof.
  intros Hy. unfold ofZ. rewrite div_quotient by lra.
  now rewrite quotient_integer.
Qed.

Lemma Int_part_unique (r : R) (z : Z) :
  IZR z <= r < IZR z + 1 -> Int_part r = z.
Proof.
  intros [Hlo Hhi]. unfold Int_part.
  rewrite <- (tech_up r (z + 1)); [lia | |]; rewrite plus_IZR; lra.
Qed.

Lemma Int_part_bounds (r : R) : IZR (Int_part r) <= r < IZR (Int_part r) + 1.
Proof. destruct (base_Int_part r); lra. Qed.

Lemma Int_part_IZR (z : Z) : Int_part (IZR z) = z.
Proof. apply Int_part_unique; lra. Qed.

Lemma round_ofZ (z : Z) : round (ofZ z) = ofZ z.
Proof.
  unfold round, ofZ. do 2 f_equal. apply Int_part_unique; lra.
Qed.

Lemma truncate_IZR (z : Z) : truncate (IZR z) = z.
Proof.
  unfold truncate. destruct (Rle_dec 0 (IZR z)); [apply Int_part_IZR|].
  rewrite <- opp_IZR, Int_part_IZR. lia.
Qed.

Lemma toInt32_ofZ (z : Z) : toInt32 (ofZ z) = wrap32 z.
Proof. unfold toInt32, ofZ. now rewrite truncate_IZR. Qed.

Lemma wrap32_small (z : Z) :
  (- 2 ^ 31 <= z < 2 ^ 31)%Z -> wrap32 z = z.
Proof. intros H. unfold wrap32. rewrite Z.mod_small; lia. Qed.

Lemma toUint8_ofZ (z : Z) : toUint8 (ofZ z) = (z mod 256)%Z.
Proof. unfold toUint8, ofZ. now rewrite truncate_IZR. Qed.

Lemma Q2R_inject_Z (z : Z) : Q2R (inject_Z z) = IZR z.
Proof. unfold Q2R, inject_Z; simpl. rewrite Rinv_1. apply Rmult_1_r. Qed.

End RealNumberFacts.

(* ================================================================== *)
(** * Resolving the fundamental of a chord *)
(* ================================================================== *)

Section FundamentalFacts.

Import JS.
Import PythagoreanTuning.
Local Open Scope string_scope.
Local Open Scope bool_scope.

Lemma getIntervalRatio_message (i message : string) :
  getIntervalRatio i = Thrown message ->
  exists rest,
    message = "Invalid interval: " ++ rest
    \/ message = "Unknown interval: " ++ rest
    \/ message = "Unknown compound interval: " ++ rest.
Proof.
  unfold getIntervalRatio.
  destruct (truthy (getProperty intervals (trim i))).
  - destruct (getProperty intervals (trim i)); discriminate.
  - destruct (matchInterval (trim i)) as [[a ds]|].
    + destruct (atMost (nearestDouble (parseInt ds)) 8).
      * intros [= <-]. eexists; right; left; reflexivity.
      * destruct (reduceDegree (nearestDouble (parseInt ds))) as [o sn].
        match goal with
        | |- context [if ?b then _ else _] => destruct b
        end; [|discriminate].
        intros [= <-]. eexists; right; right; reflexivity.
    + intros [= <-]. eexists; left; reflexivity.
Qed.

Lemma mapNotes_message (f : number R) (l : list string) (message : string) :
  mapNotes f l = Thrown message ->
  exists rest,
    message = "Invalid interval: " ++ rest
    \/ message = "Unknown interval: " ++ rest
    \/ message = "Unknown compound interval: " ++ rest.
Proof.
  induction l as [|i l IH]; cbn [mapNotes]; [discriminate|].
  unfold calculateFrequency.
  destruct (getIntervalRatio i) as [r|m] eqn:E; cbn [bind].
  - destruct (mapNotes f l) as [ns|m]; cbn [bind]; [discriminate|].
    intros [= <-]. now apply IH.
  - intros [= <-]. exact (getIntervalRatio_message i m E).
Qed.

Lemma interval_message_not_fundamental (message s : string) :
  (exists rest,
      message = "Invalid interval: " ++ rest
      \/ message = "Unknown interval: " ++ rest
      \/ message = "Unknown compound interval: " ++ rest) ->
  message <> errInvalidFundamental s.
Proof.
  unfold errInvalidFundamental.
  intros (rest & [-> | [-> | ->]]); cbn [append]; discriminate.
Qed.

(** The two ways a string fundamental is resolved. *)
Lemma resolveFundamental_string (s : string) :
  resolveFundamental (FromString s)
  = match noteToFrequency s with
    | Returned f => Returned f
    | Thrown _ =>
        if isNaN (parseFloat s) then Thrown (errInvalidFundamental s)
        else Returned (RealNumber.ofQ (parseFloat s))
    end.
Proof. reflexivity. Qed.

(** The frequency of a note name: the equal-tempered offset from
    A4 = 440 Hz. *)
Lemma noteToFrequency_formula (s name digits : string) (offset : Z) :
  matchNote s = Some (name, digits) ->
  ownProperty noteToSemitone name = Some (inject_Z offset) ->
  noteToFrequency s
  = Returned
      (Num (440 * Rpower 2
                    (IZR (offset + (parseInt digits - 4) * 12) / 12))%R).
Proof.
  intros Hm Hown. unfold noteToFrequency, getProperty. rewrite Hm, Hown.
  cbn [plus RealNumber.ofQ].
  rewrite Q2R_plus, !Q2R_inject_Z, <- plus_IZR.
  change (Num (IZR (offset + (parseInt digits - 4) * 12)))
    with (RealNumber.ofZ (offset + (parseInt digits - 4) * 12)).
  change (RealNumber.ofZ 12) with (Num 12%R). rewrite div_integer by lra.
  reflexivity.
Qed.

(** ** The claim about the fundamental *)

(** C7, the claim as stated fails: the string [-440] is not a note name
    and is not a positive number, yet [calculateChord] does not fail on it;
    it takes the negative frequency -440 as the fundamental. *)
Lemma calculateChord_accepts_negative_fundamental :
  resolveFundamental (FromString "-440") = Returned (Num (Q2R (-440 # 1)))
  /\ (Q2R (-440 # 1) < 0)%R
  /\ ~ (calculateChord (FromString "-440") ["1"]
        = Thrown (errInvalidFundamental "-440")
        <-> throws (noteToFrequency "-440") = true
            /\ ~ positiveLiteral "-440").
Proof.
  split; [reflexivity|].
  split; [unfold Q2R; simpl; lra|].
  intros [_ H].
  assert (calculateChord (FromString "-440") ["1"]
          = Thrown (errInvalidFundamental "-440")) as E.
  { apply H. split; [reflexivity|].
    intros (q & Hq & Hpos). vm_compute in Hq. injection Hq as <-.
    revert Hpos. vm_compute. discriminate. }
  revert E. unfold calculateChord.
  replace (resolveFundamental (FromString "-440"))
    with (@Returned (number R) (Num (Q2R (-440 # 1)))) by reflexivity.
  cbn [bind mapNotes]. unfold calculateFrequency.
  replace (getIntervalRatio "1")
    with (Returned (Ratio (Num (1 # 1)))) by (vm_compute; reflexivity).
  cbn [bind]. discriminate.
Qed.

(** C7, amended: [calculateChord] resolves a string fundamental by first
    trying it as a note name, whose frequency is the equal-tempered offset
    from A4 = 440 Hz, and, if that throws, by reading it with [parseFloat];
    whatever [parseFloat] reads is accepted as the frequency unless it is
    not-a-number.  The call fails with the invalid-fundamental error if and
    only if the note-name parse throws and [parseFloat] gives
    not-a-number. *)
Theorem calculateChord_resolves_fundamental :
  (forall s name digits offset,
      matchNote s = Some (name, digits) ->
      ownProperty noteToSemitone name = Some (inject_Z offset) ->
      resolveFundamental (FromString s)
      = Returned
          (Num (440 * Rpower 2
                        (IZR (offset + (parseInt digits - 4) * 12) / 12))%R))
  /\ (forall s f,
         noteToFrequency s = Returned f ->
         resolveFundamental (FromString s) = Returned f)
  /\ (forall s,
         throws (noteToFrequency s) = true ->
         isNaN (parseFloat s) = false ->
         resolveFundamental (FromString s)
         = Returned (RealNumber.ofQ (parseFloat s)))
  /\ (forall s ivs,
         calculateChord (FromString s) ivs
         = Thrown (errInvalidFundamental s)
         <-> throws (noteToFrequency s) = true
             /\ isNaN (parseFloat s) = true).
Proof.
  repeat split.
  - intros s name digits offset Hm Hown. rewrite resolveFundamental_string.
    now rewrite (noteToFrequency_formula s name digits offset Hm Hown).
  - intros s f Hf. rewrite resolveFundamental_string. now rewrite Hf.
  - intros s Hthrow Hnum. rewrite resolveFundamental_string.
    destruct (noteToFrequency s); [discriminate|]. now rewrite Hnum.
  - unfold calculateChord in H. rewrite resolveFundamental_string in H.
    destruct (noteToFrequency s) as [f|m]; [|reflexivity].
    cbn [bind] in H.
    destruct (mapNotes f ivs) as [ns|m] eqn:E; [discriminate|].
    injection H as H.
    now destruct (interval_message_not_fundamental m s
                    (mapNotes_message f ivs m E)).
  - unfold calculateChord in H. rewrite resolveFundamental_string in H.
    destruct (noteToFrequency s) as [f|m].
    + cbn [bind] in H.
      destruct (mapNotes f ivs) as [ns|m] eqn:E; [discriminate|].
      injection H as H.
      now destruct (interval_message_not_fundamental m s
                      (mapNotes_message f ivs m E)).
    + destruct (isNaN (parseFloat s)); [reflexivity|].
      cbn [bind] in H.
      destruct (mapNotes (RealNumber.ofQ (parseFloat s)) ivs) as [ns|m'] eqn:E;
        [discriminate|].
      injection H as H.
      now destruct (interval_message_not_fundamental m' s
                      (mapNotes_message _ ivs m' E)).
  - intros [Hthrow Hnan]. unfold calculateChord.
    rewrite resolveFundamental_string.
    destruct (noteToFrequency s); [discriminate|]. now rewrite Hnan.
Qed.

Lemma calculateChord_resolves_fundamental_witness :
  resolveFundamental (FromString "C#3")
  = Returned (Num (440 * Rpower 2 (IZR (-8 + (parseInt "3" - 4) * 12) / 12))%R)
  /\ resolveFundamental (FromString "261.63")
     = Returned (RealNumber.ofQ (parseFloat "261.63"))
  /\ calculateChord (FromString "H4") ["1"; "3"; "5"]
     = Thrown (errInvalidFundamental "H4").
Proof.
  split; [|split].
  - apply (proj1 calculateChord_resolves_fundamental "C#3" "C#" "3" (-8)%Z);
      reflexivity.
  - apply (proj1 (proj2 (proj2 calculateChord_resolves_fundamental)));
      reflexivity.
  - apply (proj2 (proj2 (proj2 calculateChord_resolves_fundamental))).
    split; reflexivity.
Defined.

End FundamentalFacts.

(* ================================================================== *)
(** * Properties of the MIDI encoder *)
(* ================================================================== *)

Section MIDIFacts.

Import JS.
Import RealNumber.
Import MIDIExporter.
Local Open Scope Z_scope.

(** ** Loops that only append *)

Lemma forEach_append {A E : Type} (g : nat * A -> list E)
  (f : list E -> A -> nat -> list E) :
  (forall s x k, f s x k = (s ++ g (k, x))%list) ->
  forall l i s,
    forEach f l i s
    = (s ++ flat_map g (combine (seq i (List.length l)) l))%list.
Proof.
  intros Hf. induction l as [|x l IH]; intros i s; cbn.
  - now rewrite List.app_nil_r.
  - rewrite IH, Hf. now rewrite <- List.app_assoc.
Qed.

Lemma flat_map_singleton {A B : Type} (f : A -> B) (l : list A) :
  flat_map (fun x => [f x]) l = map f l.
Proof. induction l as [|x l IH]; cbn; [reflexivity | now rewrite IH]. Qed.

Lemma pushNoteOn_spec (chordIndex : nat) (track : list MIDIEvent)
  (noteData : NoteData) (noteIndex : nat) :
  pushNoteOn chordIndex track noteData noteIndex
  = (track ++ specNoteOn (noteIndex, noteData))%list.
Proof.
  unfold pushNoteOn, specNoteOn. cbn [fst snd].
  destruct (frequencyToMIDI (frequency noteData)) as [note cents].
  destruct (gtb (abs cents) (/ 2)).
  - rewrite <- List.app_assoc. do 2 f_equal.
    unfold pitchBendEvent. now destruct ((chordIndex =? 0)%nat && (noteIndex =? 0)%nat).
  - reflexivity.
Qed.

Lemma pushNoteOff_spec (durationTicks : number R) (track : list MIDIEvent)
  (noteData : NoteData) (noteIndex : nat) :
  pushNoteOff durationTicks track noteData noteIndex
  = (track ++ [specNoteOff durationTicks (noteIndex, noteData)])%list.
Proof. reflexivity. Qed.

Section Track.

Variables baseDuration tempo : number R.

Lemma pushChord_spec (track : list MIDIEvent) (ticks : number R)
  (chord : ChordData) (chordIndex : nat) :
  fst (pushChord baseDuration tempo (track, ticks) chord chordIndex)
  = (track ++ specChord baseDuration tempo chord)%list.
Proof.
  unfold pushChord, specChord, indexed. cbn [fst].
  rewrite (forEach_append (fun p => [specNoteOff _ p]) _
             (pushNoteOff_spec _)).
  rewrite (forEach_append specNoteOn _ (pushNoteOn_spec chordIndex)).
  now rewrite flat_map_singleton, <- List.app_assoc.
Qed.

Lemma forEach_pushChord (chords : list ChordData) :
  forall i st,
    fst (forEach (pushChord baseDuration tempo) chords i st)
    = (fst st ++ flat_map (specChord baseDuration tempo) chords)%list.
Proof.
  induction chords as [|c chords IH]; intros i [track ticks]; cbn [forEach].
  - cbn. now rewrite List.app_nil_r.
  - rewrite IH. destruct (pushChord baseDuration tempo (track, ticks) c i)
      as [track' ticks'] eqn:E.
    pose proof (pushChord_spec track ticks c i) as H.
    rewrite E in H. cbn [fst] in *. rewrite H. cbn [flat_map].
    now rewrite <- List.app_assoc.
Qed.

(** The track built by the nested loops is the track the specification
    describes. *)
Lemma noteTrack_spec (chords : list ChordData) :
  noteTrack chords baseDuration tempo
  = specNoteTrack chords baseDuration tempo.
Proof.
  unfold noteTrack, specNoteTrack. now rewrite forEach_pushChord.
Qed.

End Track.

(** ** Frequencies, cents and pitch bend on finite values *)

Lemma frequencyToMIDI_finite (f : R) :
  (220 * minDouble < f)%R ->
  frequencyToMIDI (Num f)
  = (ofZ (Int_part (69 + 12 * (ln (f / 440) / ln 2) + / 2)),
     Num ((69 + 12 * (ln (f / 440) / ln 2)
           + - IZR (Int_part (69 + 12 * (ln (f / 440) / ln 2) + / 2)))
          * 100)%R).
Proof.
  intros Hf. pose proof minDouble_pos as Hm. unfold frequencyToMIDI, ofZ.
  rewrite div_positive by lra. unfold log2.
  rewrite signOf_positive by (apply Rdiv_lt_0_compat; lra).
  reflexivity.
Qed.

(** A quotient that underflows changes nothing in the rounded bend
    value. *)
Lemma bend_quotient (c : R) :
  Int_part (8192 + quotient c 200 * 8192 + / 2)
  = Int_part (8192 + c / 200 * 8192 + / 2).
Proof.
  unfold quotient.
  destruct (Rle_dec (Rabs (c / 200)) (minDouble / 2)) as [Hle|];
    [|reflexivity].
  pose proof minDouble_tiny as Hm.
  assert (- (minDouble / 2) <= c / 200 <= minDouble / 2)%R as Hc.
  { apply Rabs_le_bounds. exact Hle. }
  rewrite (Int_part_unique (8192 + 0 * 8192 + / 2) 8192) by lra.
  symmetry. apply Int_part_unique. lra.
Qed.

Lemma centsToPitchBend_finite (c : R) :
  centsToPitchBend (Num c)
  = Num (Rmax 0 (Rmin 16383
                   (IZR (Int_part (8192 + c / 200 * 8192 + / 2))))).
Proof.
  unfold centsToPitchBend, ofZ. rewrite div_quotient by lra.
  cbn [mul add round min max]. now rewrite bend_quotient.
Qed.

Lemma land_127_bounds (x : Z) : 0 <= Z.land x 127 <= 127.
Proof.
  change 127 with (Z.ones 7) at 1 2. rewrite Z.land_ones by lia.
  pose proof (Z.mod_pos_bound x (2 ^ 7) ltac:(lia)). change (2 ^ 7) with 128 in *.
  lia.
Qed.

Lemma channelOf_bounds (i : nat) : 0 <= channelOf i <= 15.
Proof. unfold channelOf. lia. Qed.

(** A status byte is its kind plus the channel. *)
Lemma status_lor (kind : Z) (i : nat) :
  In kind [128; 144; 224] ->
  Z.lor kind (channelOf i) = kind + channelOf i
  /\ (kind + channelOf i) mod 16 = channelOf i.
Proof.
  intros Hk. pose proof (channelOf_bounds i) as Hc.
  assert (exists n, channelOf i = Z.of_nat n /\ (n <= 15)%nat) as (n & -> & Hn).
  { exists (Z.to_nat (channelOf i)). split; lia. }
  destruct Hk as [<- | [<- | [<- | []]]];
    do 16 (destruct n as [|n]; [split; reflexivity|]); lia.
Qed.

(** ** The events of track 1 *)

Lemma statusOf_pitchBend (i : nat) (cents : number R) :
  statusOf (pitchBendEvent i cents) = 224 + channelOf i.
Proof.
  unfold statusOf, pitchBendEvent, ofZ; cbn [data]. rewrite truncate_IZR.
  apply status_lor. cbn; tauto.
Qed.

Lemma statusOf_noteOn (i : nat) (note : number R) :
  statusOf (noteOnEvent i note) = 144 + channelOf i.
Proof.
  unfold statusOf, noteOnEvent, ofZ; cbn [data]. rewrite truncate_IZR.
  apply status_lor. cbn; tauto.
Qed.

Lemma statusOf_noteOff (delta : number R) (i : nat) (note : number R) :
  statusOf (noteOffEvent delta i note) = 128 + channelOf i.
Proof.
  unfold statusOf, noteOffEvent, ofZ; cbn [data]. rewrite truncate_IZR.
  apply status_lor. cbn; tauto.
Qed.

Lemma gtb_abs_half (c : R) :
  gtb (abs (Num c)) (/ 2) = true <-> (Rabs c > / 2)%R.
Proof.
  unfold gtb, abs. destruct (Rlt_dec (/ 2) (Rabs c)); split;
    intros H; try reflexivity; try discriminate; lra.
Qed.

Lemma indexed_positions {A : Type} (l : list A) :
  map fst (indexed l) = seq 0 (List.length l) /\ map snd (indexed l) = l.
Proof.
  unfold indexed. generalize O as i.
  induction l as [|x l IH]; intros i; cbn; [split; reflexivity|].
  destruct (IH (S i)) as [Hfst Hsnd]. now rewrite Hfst, Hsnd.
Qed.

(** ** Encoding events into bytes *)

(** The loop of [writeVarLength] ends within the five iterations it is
    given: more fuel changes nothing. *)
Lemma varLengthLoop_fuel (n : nat) :
  forall value buffer k,
    value < 2 ^ (7 * Z.of_nat n) ->
    varLengthLoop (n + k) value buffer = varLengthLoop n value buffer.
Proof.
  induction n as [|n IH]; intros value buffer k Hv.
  - change (2 ^ (7 * Z.of_nat 0)) with 1 in Hv.
    destruct k as [|k]; [reflexivity|]. cbn [Nat.add varLengthLoop].
    now replace (0 <? value) with false by (symmetry; apply Z.ltb_ge; lia).
  - cbn [Nat.add varLengthLoop]. destruct (0 <? value) eqn:E; [|reflexivity].
    apply IH. rewrite Z.shiftr_div_pow2 by lia.
    apply Z.div_lt_upper_bound; [lia|].
    rewrite <- Z.pow_add_r by lia.
    now replace (7 + 7 * Z.of_nat n) with (7 * Z.of_nat (S n)) by lia.
Qed.

Lemma toInt32_range (value : number R) :
  - 2 ^ 31 <= toInt32 value < 2 ^ 31.
Proof.
  destruct value as [| |x]; cbn [toInt32]; try lia. unfold wrap32.
  pose proof (Z.mod_pos_bound (truncate x + 2 ^ 31) (2 ^ 32) ltac:(lia)).
  lia.
Qed.

Lemma writeVarLength_fuel (value : number R) (buffer : list Z) (k : nat) :
  varLengthLoop (5 + k) (Z.shiftr (toInt32 value) 7) buffer
  = varLengthLoop 5 (Z.shiftr (toInt32 value) 7) buffer.
Proof.
  apply varLengthLoop_fuel. pose proof (toInt32_range value) as H.
  rewrite Z.shiftr_div_pow2 by lia.
  apply Z.div_lt_upper_bound; [lia|].
  change (2 ^ 7 * 2 ^ (7 * Z.of_nat 5)) with (2 ^ 42). lia.
Qed.

Lemma writeVarLength_append (bytes : list (number R)) (value : number R) :
  writeVarLength bytes value = (bytes ++ writeVarLength [] value)%list.
Proof. reflexivity. Qed.

Lemma writeVarLength_zero : writeVarLength [] (ofZ 0) = [ofZ 0].
Proof. unfold writeVarLength. rewrite toInt32_ofZ. reflexivity. Qed.

Lemma fold_pushEvent (events : list MIDIEvent) :
  forall bytes,
    fold_left pushEvent events bytes
    = (bytes ++ flat_map eventBytes events)%list.
Proof.
  induction events as [|e events IH]; intros bytes; cbn [fold_left flat_map].
  - now rewrite List.app_nil_r.
  - rewrite IH. unfold pushEvent, eventBytes.
    rewrite (writeVarLength_append bytes). now rewrite !List.app_assoc.
Qed.

Lemma encodeTrackEvents_app (es1 es2 : list MIDIEvent) :
  encodeTrackEvents (es1 ++ es2)
  = (encodeTrackEvents es1 ++ encodeTrackEvents es2)%list.
Proof.
  unfold encodeTrackEvents. rewrite !fold_pushEvent. cbn [app].
  now rewrite flat_map_app, map_app.
Qed.

Lemma encodeTrackEvents_endOfTrack :
  encodeTrackEvents [endOfTrack] = [0; 255; 47; 0].
Proof.
  unfold encodeTrackEvents. rewrite fold_pushEvent.
  cbn [app flat_map]. unfold eventBytes, endOfTrack. cbn [deltaTime data].
  rewrite writeVarLength_zero. cbn [app map].
  now rewrite !toUint8_ofZ.
Qed.

Lemma land_255_byte (x : Z) : Z.land x 255 mod 256 = Z.land x 255.
Proof.
  change 255 with (Z.ones 8). rewrite Z.land_ones by lia.
  change (2 ^ 8) with 256. apply Z.mod_mod. lia.
Qed.

Lemma encodeTrackEvents_tempoTrack (tempo : number R) :
  encodeTrackEvents (tempoTrack tempo)
  = let v := toInt32 (round (div (ofZ 60000000) tempo)) in
    [ 0; 255; 81; 3; Z.land (Z.shiftr v 16) 255; Z.land (Z.shiftr v 8) 255;
      Z.land v 255; 0; 255; 47; 0 ].
Proof.
  unfold tempoTrack.
  change (encodeTrackEvents [?e; endOfTrack])
    with (encodeTrackEvents ([e] ++ [endOfTrack])).
  rewrite encodeTrackEvents_app, encodeTrackEvents_endOfTrack.
  unfold encodeTrackEvents. rewrite fold_pushEvent.
  cbn [app flat_map]. unfold eventBytes. cbn [deltaTime data].
  rewrite writeVarLength_zero. cbn [app map].
  rewrite !toUint8_ofZ, !land_255_byte. reflexivity.
Qed.

Lemma tempo_bytes_value (v : Z) :
  Z.land (Z.shiftr v 16) 255 * 65536 + Z.land (Z.shiftr v 8) 255 * 256
    + Z.land v 255
  = v mod 2 ^ 24.
Proof.
  change 255 with (Z.ones 8). rewrite !Z.land_ones, !Z.shiftr_div_pow2 by lia.
  change (2 ^ 8) with 256. change (2 ^ 16) with 65536.
  change (2 ^ 24) with 16777216. Z.div_mod_to_equations. lia.
Qed.

(** ** The claim about the layout of the file *)

(** C6, the claim as stated fails: at a tempo of 1 beat per minute
    [round(60000000/tempo)] is 60000000, which does not fit in three
    bytes; the three bytes after [FF 51 03] are [93 87 00], the value
    9668352. *)
Lemma generatePythagoreanMIDI_slow_tempo_truncated :
  round (div (ofZ 60000000) (ofZ 1)) = ofZ 60000000
  /\ generatePythagoreanMIDI [] (ofZ 1) (ofZ 1)
     = [ 77; 84; 104; 100; 0; 0; 0; 6; 0; 1; 0; 2; 1; 224;
         77; 84; 114; 107; 0; 0; 0; 11;
         0; 255; 81; 3; 147; 135; 0; 0; 255; 47; 0;
         77; 84; 114; 107; 0; 0; 0; 4; 0; 255; 47; 0 ]
  /\ 147 * 65536 + 135 * 256 + 0 <> 60000000.
Proof.
  assert (round (div (ofZ 60000000) (ofZ 1)) = ofZ 60000000) as Hround.
  { unfold ofZ.
    rewrite div_positive by (pose proof minDouble_tiny; lra).
    unfold round. do 2 f_equal. apply Int_part_unique. lra. }
  split; [exact Hround|]. split; [|lia].
  unfold generatePythagoreanMIDI, createMIDIFile, createTrackChunk, noteTrack.
  cbn [map forEach fst app].
  rewrite encodeTrackEvents_endOfTrack, encodeTrackEvents_tempoTrack.
  rewrite Hround, toInt32_ofZ. reflexivity.
Qed.

(** C6, amended: every buffer [generatePythagoreanMIDI] returns begins
    with [4D 54 68 64 00 00 00 06 00 01], the track count [00 02] and the
    division [01 E0]; track 0 is the tempo meta-event [FF 51 03] with three
    data bytes and then end-of-track; the event stream of both tracks ends
    with [FF 2F 00].  The three data bytes are the low 24 bits, most
    significant byte first, of [round(60000000/tempo)] converted to a 32-bit
    integer; they are the value [round(60000000/tempo)] itself whenever it
    is an integer from 0 to [2^24 - 1]. *)
Theorem generatePythagoreanMIDI_layout
  (chords : list ChordData) (baseDuration tempo : number R) :
  let v := toInt32 (round (div (ofZ 60000000) tempo)) in
  let b1 := Z.land (Z.shiftr v 16) 255 in
  let b2 := Z.land (Z.shiftr v 8) 255 in
  let b3 := Z.land v 255 in
  let notes :=
    encodeTrackEvents (flat_map (specChord baseDuration tempo) chords) in
  generatePythagoreanMIDI chords baseDuration tempo
  = ([ 77; 84; 104; 100; 0; 0; 0; 6; 0; 1; 0; 2; 1; 224 ]
       ++ ([ 77; 84; 114; 107; 0; 0; 0; 11 ]
             ++ [ 0; 255; 81; 3; b1; b2; b3 ] ++ [ 0; 255; 47; 0 ])
       ++ ([ 77; 84; 114; 107 ]
             ++ uint32BE (Z.of_nat (List.length (notes ++ [0; 255; 47; 0])))
             ++ notes ++ [ 0; 255; 47; 0 ]))%list
  /\ b1 * 65536 + b2 * 256 + b3 = v mod 2 ^ 24
  /\ forall m,
       0 <= m < 2 ^ 24 ->
       round (div (ofZ 60000000) tempo) = ofZ m ->
       b1 * 65536 + b2 * 256 + b3 = m.
Proof.
  intros v b1 b2 b3 notes. split; [|split].
  - unfold generatePythagoreanMIDI, createMIDIFile, createTrackChunk.
    rewrite noteTrack_spec. unfold specNoteTrack.
    cbn [map List.concat].
    rewrite encodeTrackEvents_app, encodeTrackEvents_endOfTrack.
    rewrite encodeTrackEvents_tempoTrack. fold notes.
    cbv zeta. fold v. fold b1. fold b2. fold b3.
    rewrite List.app_nil_r. reflexivity.
  - apply tempo_bytes_value.
  - intros m Hm Hround. unfold b1, b2, b3. rewrite tempo_bytes_value.
    unfold v. rewrite Hround, toInt32_ofZ. unfold wrap32.
    change (2 ^ 24) with 16777216 in *.
    rewrite (Z.mod_small (m + 2 ^ 31)) by lia.
    rewrite Z.mod_small; lia.
Qed.

Lemma generatePythagoreanMIDI_layout_witness :
  Z.land (Z.shiftr (toInt32 (round (div (ofZ 60000000) (ofZ 120)))) 16) 255
    * 65536
  + Z.land (Z.shiftr (toInt32 (round (div (ofZ 60000000) (ofZ 120)))) 8) 255
    * 256
  + Z.land (toInt32 (round (div (ofZ 60000000) (ofZ 120)))) 255
  = 500000.
Proof.
  apply (proj2 (proj2 (generatePythagoreanMIDI_layout [] (ofZ 1) (ofZ 120)))).
  - lia.
  - unfold ofZ.
    rewrite div_positive by (pose proof minDouble_tiny; lra).
    unfold round. do 2 f_equal. apply Int_part_unique. lra.
Defined.

End MIDIFacts.

(* ================================================================== *)
(** * Further properties of the sequence parser *)
(* ================================================================== *)

Section ParserInvariants.

Import JS.
Import Parser.
Local Open Scope string_scope.
Local Open Scope bool_scope.

(** ** What the capture group of a duration part can be *)

Lemma span_all (p : ascii -> bool) (s : string) :
  forall_string p (fst (span p s)) = true.
Proof.
  induction s as [|c r IH]; cbn [span]; [reflexivity|].
  destruct (p c) eqn:E; [|reflexivity].
  destruct (span p r) as [a b]. cbn [fst forall_string] in *.
  now rewrite E, IH.
Qed.

Lemma matchDurationAt_captured (s captured : string) :
  matchDurationAt s = Some captured ->
  isEmpty captured = false /\ forall_string isDurationChar captured = true.
Proof.
  unfold matchDurationAt.
  destruct (matchLiteralCI "duration" s) as [r|]; [|discriminate].
  destruct (trimStart r) as [|c r1]; [discriminate|].
  destruct (Ascii.eqb_spec c "=") as [->|Hc].
  - pose proof (span_all isDurationChar (trimStart r1)) as Hall.
    destruct (span isDurationChar (trimStart r1)) as [cap rest].
    cbn [fst] in Hall. destruct (isEmpty cap) eqn:E; [discriminate|].
    now intros [= <-].
  - destruct c as [[] [] [] [] [] [] [] []]; try discriminate.
    now destruct Hc.
Qed.

Lemma matchDuration_captured (s captured : string) :
  matchDuration s = Some captured ->
  isEmpty captured = false /\ forall_string isDurationChar captured = true.
Proof.
  induction s as [|c r IH]; cbn [matchDuration].
  - destruct (matchDurationAt EmptyString) eqn:E; [|discriminate].
    intros [= <-]. exact (matchDurationAt_captured _ _ E).
  - destruct (matchDurationAt (String c r)) eqn:E; [|exact IH].
    intros [= <-]. exact (matchDurationAt_captured _ _ E).
Qed.

(** A string of digits and dots is read as not-a-number or as a finite
    number, never as an infinity. *)
Lemma parseFloat_duration_chars (c : ascii) (r : string) :
  isDurationChar c = true ->
  parseFloat (String c r) = NaN
  \/ exists q, parseFloat (String c r) = Num q.
Proof.
  intros Hc.
  assert (parseFloat (String c r) = parseUnsigned false (String c r)
          /\ startsWith (String c r) "Infinity" = false) as [-> Hinf].
  { destruct c as [[] [] [] [] [] [] [] []]; try discriminate;
      split; reflexivity. }
  unfold parseUnsigned. rewrite Hinf.
  destruct (span isDigit (String c r)) as [ip rest].
  destruct (match rest with
            | String "." r1 => span isDigit r1
            | _ => (EmptyString, rest)
            end) as [fp rest'].
  destruct (isEmpty ip && isEmpty fp); [now left | right; eauto].
Qed.

Lemma partStep_positive (ivs ivs' : list string) (d d' : number Q)
  (p : string) :
  positiveDuration d ->
  partStep (ivs, d) p = Returned (ivs', d') ->
  positiveDuration d'.
Proof.
  intros Hd. destruct (isDurationPart p) eqn:Hp.
  - intros H.
    destruct (partStep_duration _ _ _ _ Hp H) as (cap & Hm & Hok & E).
    injection E as _ ->. apply orb_false_iff in Hok as [Hnan Hle].
    destruct (matchDuration_captured _ _ Hm) as [Hne Hall].
    destruct cap as [|c r]; [discriminate|].
    cbn [forall_string] in Hall. apply andb_true_iff in Hall as [Hc _].
    destruct (parseFloat_duration_chars c r Hc) as [E | (q & E)];
      rewrite E in *; [discriminate|].
    exists q. split; [reflexivity|]. cbn [leZero] in Hle.
    apply Qnot_le_lt. intros Hq. apply Qle_bool_iff in Hq. congruence.
  - rewrite (partStep_interval _ _ _ Hp). now intros [= _ <-].
Qed.

Lemma partsLoop_positive (parts : list string) :
  forall ivs d ivs' d',
    positiveDuration d ->
    partsLoop parts (ivs, d) = Returned (ivs', d') ->
    positiveDuration d'.
Proof.
  induction parts as [|p parts IH]; intros ivs d ivs' d' Hd;
    cbn [partsLoop bind].
  - now intros [= _ <-].
  - destruct (partStep (ivs, d) p) as [[ivs1 d1]|m] eqn:E; cbn [bind];
      [|discriminate].
    apply IH. exact (partStep_positive _ _ _ _ _ Hd E).
Qed.

Lemma parseChordLine_chord_shape (line : string) (chord : ParsedChord) :
  parseChordLine line = Returned (Some chord) ->
  intervals chord <> []
  /\ Forall (fun i => isEmpty i = false /\ isDurationPart i = false)
       (intervals chord)
  /\ exists q, duration chord = Num q /\ (0 < q)%Q.
Proof.
  unfold parseChordLine.
  destruct (isSkipped (trim line)); [discriminate|].
  destruct (indexOf (trim line) ":") as [colonIndex|]; [|discriminate].
  destruct (partsLoop (partsOf (trim line) colonIndex) ([], one))
    as [[ivs d]|m] eqn:E; cbn [bind]; [|discriminate].
  destruct ivs as [|i ivs]; [discriminate|]. cbn [List.length Nat.eqb].
  intros [= <-]. cbn [intervals duration].
  split; [discriminate|]. split.
  - rewrite (partsLoop_intervals _ _ _ _ _ E). cbn [app].
    apply Forall_forall. intros x Hx. apply filter_In in Hx as [_ Hx].
    unfold isIntervalPart in Hx. apply andb_true_iff in Hx as [H1 H2].
    apply negb_true_iff in H1, H2. tauto.
  - apply (partsLoop_positive _ _ _ _ _ (ex_intro _ (1 # 1)%Q
             (conj eq_refl eq_refl)) E).
Qed.

(** X1: the chord a line yields always has at least one interval, every
    interval is a non-empty part that does not start with the duration
    keyword, and the duration passed the check of the loop: it is neither
    not-a-number nor zero or below. *)
Theorem parseChordLine_chord_invariant (line : string) (chord : ParsedChord) :
  parseChordLine line = Returned (Some chord) ->
  intervals chord <> []
  /\ Forall (fun i => isEmpty i = false /\ isDurationPart i = false)
       (intervals chord)
  /\ isNaN (duration chord) = false
  /\ leZero (duration chord) = false.
Proof.
  intros H. destruct (parseChordLine_chord_shape line chord H)
    as (Hne & Hall & q & -> & Hq).
  split; [exact Hne|]. split; [exact Hall|]. split; [reflexivity|].
  cbn [leZero]. destruct (Qle_bool q 0) eqn:E; [|reflexivity].
  apply Qle_bool_iff in E. now apply Qle_not_lt in E.
Qed.

Lemma parseChordLine_chord_invariant_witness :
  intervals (mkChord "440" ["1"; "b3"; "5"] (Num (3 # 2))) <> []
  /\ Forall (fun i => isEmpty i = false /\ isDurationPart i = false)
       (intervals (mkChord "440" ["1"; "b3"; "5"] (Num (3 # 2))))
  /\ isNaN (duration (mkChord "440" ["1"; "b3"; "5"] (Num (3 # 2)))) = false
  /\ leZero (duration (mkChord "440" ["1"; "b3"; "5"] (Num (3 # 2))))
     = false.
Proof.
  apply (parseChordLine_chord_invariant "440: 1,b3,5, duration=1.5").
  vm_compute; reflexivity.
Defined.

(** X2: on a chord that [parseChordLine] produced, [validateChord] can
    only fail for want of a fundamental: it returns [true] unless the text
    before the colon was blank, and then it throws "Missing fundamental". *)
Theorem validateChord_after_parse (line : string) (chord : ParsedChord) :
  parseChordLine line = Returned (Some chord) ->
  validateChord chord
  = if isEmpty (fundamental chord) then Thrown "Missing fundamental"
    else Returned true.
Proof.
  intros H. destruct (parseChordLine_chord_shape line chord H)
    as (Hne & _ & q & Hd & Hq).
  unfold validateChord. destruct (isEmpty (fundamental chord)); [reflexivity|].
  destruct (intervals chord) as [|i ivs]; [now destruct Hne|].
  cbn [List.length Nat.eqb]. rewrite Hd. cbn [leZero].
  destruct (Qle_bool q 0) eqn:E; [|reflexivity].
  apply Qle_bool_iff in E. now apply Qle_not_lt in E.
Qed.

Lemma validateChord_after_parse_witness :
  validateChord (mkChord EmptyString ["1"; "5"] (Num (1 # 1)))
  = Thrown "Missing fundamental".
Proof.
  apply (validateChord_after_parse " : 1, 5").
  vm_compute; reflexivity.
Defined.

(** ** The whole sequence *)

Lemma linesLoop_returned (lines : list string) :
  forall results i chords,
    map parseChordLine lines = map Returned results ->
    linesLoop lines i chords = Returned (chords ++ chordsOf results)%list.
Proof.
  induction lines as [|l lines IH]; intros results i chords H.
  - destruct results; [|discriminate]. cbn. now rewrite List.app_nil_r.
  - destruct results as [|r results]; [discriminate|].
    cbn [map] in H. injection H as Hl Hrest.
    cbn [linesLoop]. rewrite Hl.
    destruct r as [c|]; rewrite (IH results) by assumption; cbn [chordsOf flat_map].
    + now rewrite <- List.app_assoc.
    + reflexivity.
Qed.

(** X3: when no line throws, [parseChordSequence] returns the chords of
    the lines that gave one, in the order of the lines, and fails with the
    empty-sequence error exactly when no line gave a chord. *)
Theorem parseChordSequence_returns_chords_in_order
  (input : string) (results : list (option ParsedChord)) :
  map parseChordLine (split input newline) = map Returned results ->
  parseChordSequence input
  = match chordsOf results with
    | [] => Thrown errEmptySequence
    | chords => Returned chords
    end.
Proof.
  intros H. unfold parseChordSequence.
  rewrite (linesLoop_returned _ results 0 [] H). cbn [app bind].
  now destruct (chordsOf results).
Qed.

Lemma parseChordSequence_returns_chords_in_order_witness :
  parseChordSequence "// two chords
G4: 1,3,5

C4: 1,5, duration=2"
  = Returned [ mkChord "G4" ["1"; "3"; "5"] (Num (1 # 1));
               mkChord "C4" ["1"; "5"] (Num (2 # 1)) ].
Proof.
  apply (parseChordSequence_returns_chords_in_order _
           [ None; Some (mkChord "G4" ["1"; "3"; "5"] (Num (1 # 1))); None;
             Some (mkChord "C4" ["1"; "5"] (Num (2 # 1))) ]).
  vm_compute; reflexivity.
Defined.

(** ** Trailing blanks *)

Lemma trimEnd_app_blank (s : string) (c : ascii) :
  isWhiteSpace c = true -> trimEnd (s ++ String c EmptyString) = trimEnd s.
Proof.
  intros Hc. induction s as [|d r IH]; cbn [append trimEnd].
  - now rewrite Hc.
  - now rewrite IH.
Qed.

Lemma trim_app_blank (s : string) (c : ascii) :
  isWhiteSpace c = true -> trim (s ++ String c EmptyString) = trim s.
Proof.
  intros Hc. unfold trim. induction s as [|d r IH]; cbn [append trimStart].
  - now rewrite Hc.
  - destruct (isWhiteSpace d); [exact IH|].
    exact (trimEnd_app_blank (String d r) c Hc).
Qed.

(** X4: a blank character at the end of a line, such as the carriage
    return that a CR-LF line ending leaves after the split at the line
    feeds, does not change what [parseChordLine] returns or throws. *)
Theorem parseChordLine_ignores_trailing_blank (line : string) (c : ascii) :
  isWhiteSpace c = true ->
  parseChordLine (line ++ String c EmptyString) = parseChordLine line.
Proof.
  intros Hc. unfold parseChordLine. now rewrite (trim_app_blank line c Hc).
Qed.

Lemma parseChordLine_ignores_trailing_blank_witness :
  parseChordLine ("C4: 1,3,5" ++ String "013" EmptyString)
  = parseChordLine "C4: 1,3,5".
Proof.
  apply (parseChordLine_ignores_trailing_blank "C4: 1,3,5" "013").
  reflexivity.
Defined.

(** X5: a part that starts with the duration keyword is never taken as an
    interval: when the duration pattern does not match it, the line fails
    with the duration-format error naming that part, provided the parts
    before it were accepted. *)
Theorem parseChordLine_duration_format_error
  (line : string) (colonIndex : nat) (pre post : list string) (p : string) :
  isSkipped (trim line) = false ->
  indexOf (trim line) ":" = Some colonIndex ->
  partsOf (trim line) colonIndex = (pre ++ p :: post)%list ->
  Forall acceptedPart pre ->
  isDurationPart p = true ->
  matchDuration p = None ->
  parseChordLine line = Thrown (errDurationFormat p).
Proof.
  intros Hskip Hcolon Hparts Hpre Hp Hm.
  unfold parseChordLine. rewrite Hskip, Hcolon, Hparts, partsLoop_app.
  destruct (partsLoop_accepted pre ([], one) Hpre) as ([ivs d] & ->).
  cbn [bind partsLoop]. unfold partStep. now rewrite Hp, Hm.
Qed.

Lemma parseChordLine_duration_format_error_witness :
  parseChordLine "C4: 1, durations, 5"
  = Thrown (errDurationFormat "durations").
Proof.
  apply (parseChordLine_duration_format_error "C4: 1, durations, 5" 2
           ["1"] ["5"] "durations"); try reflexivity.
  repeat constructor. intros H; discriminate H.
Defined.

End ParserInvariants.

(* ================================================================== *)
(** * Further properties of the tuning engine *)
(* ================================================================== *)

Section TuningInvariants.

Import JS.
Import PythagoreanTuning.
Local Open Scope string_scope.
Local Open Scope bool_scope.
Local Open Scope Z_scope.

(** ** Symbols that the interval pattern matches *)

Lemma matchInterval_inv (s a ds : string) :
  matchInterval s = Some (a, ds) ->
  In a accidentals /\ s = a ++ ds /\ isDigits ds = true.
Proof.
  unfold matchInterval. destruct s as [|c r]; [discriminate|].
  destruct (isAccidental c) eqn:Ha.
  - destruct (isDigits r) eqn:Hd; [|discriminate].
    intros [= <- <-]. split; [|split; [reflexivity | exact Hd]].
    unfold isAccidental in Ha. apply orb_true_iff in Ha as [Ha | Ha];
      apply Ascii.eqb_eq in Ha; subst; cbn; tauto.
  - destruct (isDigits (String c r)) eqn:Hd; [|discriminate].
    intros [= <- <-]. split; [cbn; tauto|]. split; [reflexivity | exact Hd].
Qed.

Lemma matched_noBlank (s a ds : string) :
  matchInterval s = Some (a, ds) -> trim s = s.
Proof.
  intros H. destruct (matchInterval_inv s a ds H) as (Ha & -> & Hd).
  apply trim_noBlank. unfold isDigits in Hd.
  apply andb_true_iff in Hd as [_ Hd]. apply digits_noBlank in Hd.
  destruct Ha as [<- | [<- | [<- | []]]]; cbn [append]; unfold noBlank in *;
    cbn [forall_string]; now rewrite ?Hd.
Qed.

(** ** The two tables *)

Lemma ownProperty_None (table : list (string * Q)) (s : string) :
  ownProperty table s = None <-> ~ In s (map fst table).
Proof.
  induction table as [|[k v] table IH]; cbn [ownProperty map fst In].
  - tauto.
  - destruct (String.eqb_spec k s) as [-> | Hk].
    + split; [discriminate | tauto].
    + rewrite IH. tauto.
Qed.

Lemma same_keys (s : string) :
  ownProperty intervals s = None <-> ownProperty intervalToSemitones s = None.
Proof. rewrite !ownProperty_None. reflexivity. Qed.

Lemma ownProperty_intervals_value (s : string) (q : Q) :
  ownProperty intervals s = Some q ->
  (1 <= q)%Q /\ Qeq_bool q 0 = false /\ matchInterval s <> None.
Proof.
  unfold intervals; cbn [ownProperty].
  repeat match goal with
         | |- context [String.eqb ?k s] =>
             destruct (String.eqb_spec k s) as [<- | _];
             [intros [= <-]; repeat split; discriminate|]
         end.
  discriminate.
Qed.

Lemma getProperty_matched (table : list (string * Q)) (s a ds : string) :
  matchInterval s = Some (a, ds) ->
  getProperty table s
  = match ownProperty table s with
    | Some q => Number q
    | None => Undefined
    end.
Proof.
  intros H. unfold getProperty.
  destruct (ownProperty table s); [reflexivity|].
  destruct (existsb _ objectPrototype) eqn:E; [|reflexivity].
  apply inherited_no_match in E. congruence.
Qed.

Lemma pow2Z_range (o : Z) :
  1 <= o ->
  pow2Z (Num o) = Infinity false
  \/ exists p, pow2Z (Num o) = Num p /\ (1 <= p)%Q.
Proof.
  intros Ho. unfold pow2Z. destruct (1024 <=? o); [now left | right].
  replace (o <? -1074) with false by (symmetry; apply Z.ltb_ge; lia).
  eexists. split; [reflexivity|].
  destruct o as [|p|p]; [lia | | lia].
  apply Qpower_1_le_pos. discriminate.
Qed.

(** ** The degree of a matched symbol *)

Lemma parseInt_digits (ds : string) :
  isDigits ds = true -> 0 <= parseInt ds.
Proof.
  intros H. destruct ds as [|c r]; [discriminate|].
  unfold isDigits in H. cbn [isEmpty negb forall_string andb] in H.
  apply andb_true_iff in H as [Hc _].
  rewrite (parseInt_digit_head c r Hc). apply digitsValue_nonneg.
Qed.

(** The degree as [getIntervalRatio] sees it: the digits' value up to 8,
    a number above 8 or plus infinity beyond. *)
Lemma nearestDouble_degree (z : Z) :
  0 <= z ->
  (z <= 8 /\ nearestDouble z = Num z)
  \/ (8 < z /\ nearestDouble z = Infinity false)
  \/ (8 < z /\ exists n, nearestDouble z = Num n /\ 8 < n).
Proof.
  intros Hz. assert (8 < 2 ^ 53) as H8 by reflexivity.
  destruct (Z.le_gt_cases z 8) as [H | H].
  - left. split; [exact H|]. apply nearestDouble_small. lia.
  - right. destruct (nearestDouble_above_8 z H) as [E | E]; [left | right];
      now split.
Qed.

(** The base symbol a degree is reduced to is looked up in the table,
    nothing else. *)
Lemma getProperty_reduced (table : list (string * Q)) (a : string)
  (number : JS.number Z) :
  In a accidentals ->
  getProperty table (a ++ snd (reduceDegree number))
  = match ownProperty table (a ++ snd (reduceDegree number)) with
    | Some q => Number q
    | None => Undefined
    end.
Proof.
  intros Ha. destruct number as [| negative | n]; cbn [reduceDegree snd].
  - unfold getProperty. destruct (ownProperty table (a ++ "NaN"));
      [reflexivity|].
    destruct Ha as [<- | [<- | [<- | []]]]; reflexivity.
  - unfold getProperty. destruct (ownProperty table (a ++ "NaN"));
      [reflexivity|].
    destruct Ha as [<- | [<- | [<- | []]]]; reflexivity.
  - exact (getProperty_matched table _ a _ (matchInterval_symbol a _ Ha)).
Qed.

Lemma ownProperty_NaN (a : string) :
  In a accidentals ->
  ownProperty intervals (a ++ "NaN") = None
  /\ ownProperty intervalToSemitones (a ++ "NaN") = None.
Proof. intros [<- | [<- | [<- | []]]]; split; reflexivity. Qed.

(** What [getIntervalRatio] does on a matched symbol, by its degree. *)
Lemma getIntervalRatio_matched (s a ds : string) :
  matchInterval s = Some (a, ds) ->
  getIntervalRatio s
  = match ownProperty intervals s with
    | Some q => Returned (Ratio (Num q))
    | None =>
        let number := nearestDouble (parseInt ds) in
        if atMost number 8 then Thrown ("Unknown interval: " ++ s)
        else
          let base := a ++ snd (reduceDegree number) in
          match ownProperty intervals base with
          | Some q =>
              Returned (Ratio (times (Number q)
                                 (pow2Z (fst (reduceDegree number)))))
          | None =>
              Thrown ("Unknown compound interval: " ++ s
                        ++ " (derived from " ++ base ++ ")")
          end
    end.
Proof.
  intros H. unfold getIntervalRatio. rewrite (matched_noBlank s a ds H).
  rewrite (getProperty_matched intervals s a ds H).
  destruct (ownProperty intervals s) as [q|] eqn:E.
  - destruct (ownProperty_intervals_value s q E) as (_ & Hq & _).
    cbn [truthy]. now rewrite Hq.
  - cbn [truthy]. rewrite H.
    destruct (atMost (nearestDouble (parseInt ds)) 8); [reflexivity|].
    cbv zeta. destruct (matchInterval_inv s a ds H) as (Ha & _ & _).
    pose proof (getProperty_reduced intervals a
                  (nearestDouble (parseInt ds)) Ha) as Hbase.
    destruct (reduceDegree (nearestDouble (parseInt ds))) as [o sn].
    cbn [fst snd] in *. rewrite Hbase.
    destruct (ownProperty intervals (a ++ sn)) as [q|] eqn:E';
      [|reflexivity].
    destruct (ownProperty_intervals_value _ q E') as (_ & Hq & _).
    cbn [truthy negb]. now rewrite Hq.
Qed.

(** What [semitonesOf] does on a matched symbol, by its degree. *)
Lemma semitonesOf_matched (s a ds : string) :
  matchInterval s = Some (a, ds) ->
  semitonesOf s
  = let number := nearestDouble (parseInt ds) in
    if atMost number 8 then
      match ownProperty intervalToSemitones s with
      | Some q => Returned (Num q)
      | None => Thrown ("Unknown interval for equal temperament: " ++ s)
      end
    else
      let base := a ++ snd (reduceDegree number) in
      match ownProperty intervalToSemitones base with
      | Some q =>
          Returned (plusNumber (Number q)
                      (timesZ (fst (reduceDegree number)) 12))
      | None => Returned NaN
      end.
Proof.
  intros H. unfold semitonesOf. rewrite H. cbv zeta.
  destruct (atMost (nearestDouble (parseInt ds)) 8).
  - rewrite (getProperty_matched intervalToSemitones s a ds H).
    now destruct (ownProperty intervalToSemitones s).
  - destruct (matchInterval_inv s a ds H) as (Ha & _ & _).
    pose proof (getProperty_reduced intervalToSemitones a
                  (nearestDouble (parseInt ds)) Ha) as Hbase.
    destruct (reduceDegree (nearestDouble (parseInt ds))) as [o sn].
    cbn [fst snd] in *. rewrite Hbase.
    now destruct (ownProperty intervalToSemitones (a ++ sn)).
Qed.

(** ** Extras on interval ratios and semitone counts *)

(** X6: whatever [getIntervalRatio] returns is a ratio of at least 1,
    possibly plus infinity (never not-a-number, never below the unison),
    or, for the name of a property inherited from [Object.prototype], that
    inherited value. *)
Theorem getIntervalRatio_range (s : string) (r : ratioResult) :
  getIntervalRatio s = Returned r ->
  r = Ratio (Infinity false)
  \/ (exists q, r = Ratio (Num q) /\ (1 <= q)%Q)
  \/ (exists name, r = NotANumber name /\ In name objectPrototype).
Proof.
  destruct (matchInterval (trim s)) as [[a ds]|] eqn:Hm.
  - assert (getIntervalRatio s = getIntervalRatio (trim s)) as ->.
    { unfold getIntervalRatio.
      now rewrite (matched_noBlank (trim s) a ds Hm). }
    rewrite (getIntervalRatio_matched _ a ds Hm).
    destruct (matchInterval_inv _ a ds Hm) as (Ha & _ & Hds).
    destruct (ownProperty intervals (trim s)) as [q|] eqn:E.
    + intros [= <-]. right; left. exists q. split; [reflexivity|].
      exact (proj1 (ownProperty_intervals_value _ q E)).
    + cbv zeta.
      destruct (nearestDouble_degree (parseInt ds) (parseInt_digits ds Hds))
        as [[Hd ->] | [[Hd ->] | [Hd (n & -> & Hn)]]]; cbn [atMost].
      * replace (parseInt ds <=? 8) with true
          by (symmetry; apply Z.leb_le; exact Hd).
        discriminate.
      * cbn [reduceDegree fst snd].
        rewrite (proj1 (ownProperty_NaN a Ha)). discriminate.
      * replace (n <=? 8) with false by (symmetry; apply Z.leb_gt; exact Hn).
        cbn [reduceDegree fst snd].
        destruct (ownProperty intervals
                    (a ++ decimal (Z.rem (nearestFinite (n - 1)) 7 + 1)))
          as [q|] eqn:E'; [|discriminate].
        pose proof (nearestFinite_ge_8 (n - 1) ltac:(lia)) as Hless.
        destruct (pow2Z_range (nearestFinite (n - 1) / 7))
          as [-> | (p & -> & Hp)].
        { apply Z.div_le_lower_bound; lia. }
        -- cbn [times].
           rewrite (ownProperty_intervals_positive _ q E').
           intros [= <-]. now left.
        -- cbn [times]. intros [= <-].
           right; left. eexists. split; [reflexivity|].
           apply Qmult_le_1_compat;
             [exact (proj1 (ownProperty_intervals_value _ q E')) | exact Hp].
  - unfold getIntervalRatio. rewrite Hm. unfold getProperty.
    destruct (ownProperty intervals (trim s)) as [q|] eqn:E.
    + now destruct (proj2 (proj2 (ownProperty_intervals_value _ q E))).
    + destruct (existsb (String.eqb (trim s)) objectPrototype) eqn:Hp;
        cbn [truthy]; [|discriminate].
      intros [= <-]. right; right. exists (trim s). split; [reflexivity|].
      apply existsb_exists in Hp as (x & Hx & Heq).
      apply String.eqb_eq in Heq. now subst.
Qed.

Lemma getIntervalRatio_range_witness :
  Ratio (Num (64 # 9)) = Ratio (Infinity false)
  \/ (exists q, Ratio (Num (64 # 9)) = Ratio (Num q) /\ (1 <= q)%Q)
  \/ (exists name,
         Ratio (Num (64 # 9)) = NotANumber name
         /\ In name objectPrototype).
Proof.
  apply (getIntervalRatio_range " b21 "). vm_compute; reflexivity.
Defined.

Lemma semitonesOf_vs_ratio (s a ds : string) :
  matchInterval s = Some (a, ds) ->
  (parseInt ds <= 8 ->
   throws (semitonesOf s) = throws (getIntervalRatio s))
  /\ (8 < parseInt ds ->
      throws (semitonesOf s) = false
      /\ (semitonesOf s = Returned NaN
          <-> throws (getIntervalRatio s) = true)).
Proof.
  intros H.
  rewrite (semitonesOf_matched s a ds H), (getIntervalRatio_matched s a ds H).
  destruct (matchInterval_inv s a ds H) as (Ha & _ & Hds).
  pose proof (parseInt_digits ds Hds) as Hnonneg.
  cbv zeta. split; intros Hd.
  - assert (8 < 2 ^ 53) as H8 by reflexivity.
    rewrite nearestDouble_small by lia. cbn [atMost].
    apply Z.leb_le in Hd. rewrite Hd.
    destruct (ownProperty intervals s) as [q|] eqn:E.
    + destruct (ownProperty intervalToSemitones s) eqn:E';
        [reflexivity|].
      apply same_keys in E'. congruence.
    + apply same_keys in E. now rewrite E.
  - assert (ownProperty intervals s = None) as ->.
    { destruct (ownProperty intervals s) as [q|] eqn:E; [|reflexivity].
      apply ownProperty_intervals_degree in E. unfold degreeOf in E.
      rewrite H in E. lia. }
    destruct (nearestDouble_above_8 (parseInt ds) Hd)
      as [-> | (n & -> & Hn)]; cbn [atMost reduceDegree fst snd].
    + destruct (ownProperty_NaN a Ha) as [-> ->].
      split; [reflexivity|]. split; reflexivity.
    + replace (n <=? 8) with false by (symmetry; apply Z.leb_gt; exact Hn).
      destruct (ownProperty intervals _) as [q|] eqn:E.
      * destruct (ownProperty intervalToSemitones _) eqn:E'.
        -- split; [reflexivity|]. split; discriminate.
        -- apply same_keys in E'. congruence.
      * apply same_keys in E. rewrite E. split; [reflexivity|].
        split; reflexivity.
Qed.

(** X7: on every symbol that the interval pattern matches,
    [calculateEqualTemperament] and [getIntervalRatio] throw on the same
    symbols of degree up to 8; on a symbol of degree above 8
    [calculateEqualTemperament] never throws, and its semitone count is
    not-a-number exactly when [getIntervalRatio] throws.  On a symbol the
    pattern does not match it always throws. *)
Theorem semitonesOf_throws_like_getIntervalRatio :
  (forall s a ds,
      matchInterval s = Some (a, ds) ->
      (parseInt ds <= 8 ->
       throws (semitonesOf s) = throws (getIntervalRatio s))
      /\ (8 < parseInt ds ->
          throws (semitonesOf s) = false
          /\ (semitonesOf s = Returned NaN
              <-> throws (getIntervalRatio s) = true)))
  /\ (forall s f,
         matchInterval s = None ->
         calculateEqualTemperament f s = Thrown ("Invalid interval: " ++ s)).
Proof.
  split; [exact semitonesOf_vs_ratio|].
  - intros s f H. unfold calculateEqualTemperament, semitonesOf.
    now rewrite H.
Qed.

Lemma semitonesOf_throws_like_getIntervalRatio_witness :
  throws (semitonesOf "b11") = false
  /\ (semitonesOf "b11" = Returned NaN
      <-> throws (getIntervalRatio "b11") = true).
Proof.
  apply (proj1 semitonesOf_throws_like_getIntervalRatio "b11" "b" "11");
    [reflexivity | vm_compute; reflexivity].
Defined.

(** X8: where [getIntervalRatio] returns a ratio, so does the
    equal-temperament reference have a semitone count: for a symbol
    without blanks around it for which [getIntervalRatio] returns a ratio,
    [calculateEqualTemperament] does not throw and its semitone count is
    not not-a-number. *)
Theorem semitonesOf_defined_where_ratio_is (s : string) (r : number Q) :
  trim s = s ->
  getIntervalRatio s = Returned (Ratio r) ->
  exists k, semitonesOf s = Returned k /\ isNaN k = false.
Proof.
  intros Htrim Hr.
  destruct (matchInterval s) as [[a ds]|] eqn:Hm.
  - destruct (semitonesOf_vs_ratio s a ds Hm) as [Hle Hgt].
    destruct (Z.le_gt_cases (parseInt ds) 8) as [Hd | Hd].
    + specialize (Hle Hd). rewrite Hr in Hle. cbn [throws] in Hle.
      destruct (matchInterval_inv s a ds Hm) as (_ & _ & Hds).
      pose proof (parseInt_digits ds Hds) as Hnonneg.
      assert (8 < 2 ^ 53) as H8 by reflexivity.
      rewrite (semitonesOf_matched s a ds Hm) in *. cbv zeta in *.
      rewrite nearestDouble_small in * by lia. cbn [atMost] in *.
      apply Z.leb_le in Hd. rewrite Hd in *.
      destruct (ownProperty intervalToSemitones s);
        [eexists; split; reflexivity | discriminate].
    + destruct (Hgt Hd) as [Hthrow Hnan].
      destruct (semitonesOf s) as [k|m]; [|discriminate].
      exists k. split; [reflexivity|].
      destruct k; [|reflexivity|reflexivity].
      rewrite Hr in Hnan. cbn [throws] in Hnan.
      destruct Hnan as [Hnan _]. discriminate (Hnan eq_refl).
  - revert Hr. unfold getIntervalRatio. rewrite Htrim, Hm. unfold getProperty.
    destruct (ownProperty intervals s) as [q'|] eqn:E.
    + now destruct (proj2 (proj2 (ownProperty_intervals_value _ q' E))).
    + destruct (existsb (String.eqb s) objectPrototype); cbn [truthy];
        discriminate.
Qed.

Lemma semitonesOf_defined_where_ratio_is_witness :
  exists k, semitonesOf "#11" = Returned k /\ isNaN k = false.
Proof.
  apply (semitonesOf_defined_where_ratio_is "#11"
           (Num ((729 # 512) * inject_Z 2 ^ 1)%Q));
    vm_compute; reflexivity.
Defined.

End TuningInvariants.

(* ================================================================== *)
(** * Note names, cents and chords *)
(* ================================================================== *)

Section NoteFacts.

Import JS.
Import RealNumber.
Import PythagoreanTuning.
Local Open Scope string_scope.
Local Open Scope bool_scope.

(** ** Reading tables of integers *)

Lemma ownProperty_integer (l : list (string * Z)) (s : string) (q : Q) :
  ownProperty (map (fun p => (fst p, inject_Z (snd p))) l) s = Some q ->
  exists z, q = inject_Z z.
Proof.
  induction l as [|[k v] l IH]; cbn [ownProperty map fst snd];
    [discriminate|].
  destruct (String.eqb k s); [intros [= <-]; eauto | exact IH].
Qed.

(** ** Note names *)

Lemma noteLetter_not_inherited (l : ascii) (rest : string) :
  isNoteLetter l = true ->
  existsb (String.eqb (String l rest)) objectPrototype = false.
Proof. destruct l as [[] [] [] [] [] [] [] []]; try discriminate; reflexivity. Qed.

Lemma matchNote_name (s name ds : string) :
  matchNote s = Some (name, ds) ->
  existsb (String.eqb name) objectPrototype = false.
Proof.
  unfold matchNote. destruct s as [|l r]; [discriminate|].
  destruct (isNoteLetter l) eqn:Hl; [|discriminate].
  destruct r as [|a r']; [discriminate|].
  destruct (isAccidental a).
  - destruct (isSignedDigits r'); [|discriminate].
    intros [= <- _]. now apply noteLetter_not_inherited.
  - destruct (isSignedDigits (String a r')); [|discriminate].
    intros [= <- _]. now apply noteLetter_not_inherited.
Qed.

(** A returned frequency comes from a known note name by the
    equal-tempered formula. *)
Lemma noteToFrequency_returned (s : string) (f : number R) :
  noteToFrequency s = Returned f ->
  exists name ds offset,
    matchNote s = Some (name, ds)
    /\ ownProperty noteToSemitone name = Some (inject_Z offset)
    /\ f = Num (440 * Rpower 2
                        (IZR (offset + (parseInt ds - 4) * 12) / 12))%R.
Proof.
  intros H. destruct (matchNote s) as [[name ds]|] eqn:Hm.
  - destruct (ownProperty noteToSemitone name) as [q|] eqn:Hq.
    + destruct (ownProperty_integer _ _ _ Hq) as (offset & ->).
      rewrite (noteToFrequency_formula s name ds offset Hm Hq) in H.
      injection H as <-. now exists name, ds, offset.
    + revert H. unfold noteToFrequency, getProperty.
      rewrite Hm, Hq, (matchNote_name s name ds Hm). discriminate.
  - revert H. unfold noteToFrequency. rewrite Hm. discriminate.
Qed.

Lemma noteToSemitone_offset (name : string) (offset : Z) :
  ownProperty noteToSemitone name = Some (inject_Z offset) ->
  (-9 <= offset <= 2)%Z.
Proof.
  unfold noteToSemitone; cbn [map fst snd ownProperty].
  repeat match goal with
         | |- context [String.eqb ?k name] =>
             destruct (String.eqb_spec k name) as [<- | _];
             [intros [= <-]; lia|]
         end.
  discriminate.
Qed.

Lemma Rpower_2_6 : Rpower 2 6 = 64%R.
Proof.
  replace 6%R with (INR 6) by (simpl; lra).
  rewrite Rpower_pow by lra. simpl. lra.
Qed.

(** X9: for a note name with an octave number from -1 to 9, the octaves
    of the MIDI notes, [noteToFrequency] returns a finite frequency
    between 6.875 Hz and 28160 Hz, that is within six octaves of 440 Hz. *)
Theorem noteToFrequency_range (s name ds : string) (f : number R) :
  matchNote s = Some (name, ds) ->
  (-1 <= parseInt ds <= 9)%Z ->
  noteToFrequency s = Returned f ->
  exists x, f = Num x /\ (6.875 <= x <= 28160)%R.
Proof.
  intros Hm Hoct H.
  destruct (noteToFrequency_returned s f H)
    as (name' & ds' & offset & Hm' & Hown & ->).
  rewrite Hm in Hm'. injection Hm' as <- <-.
  pose proof (noteToSemitone_offset name offset Hown) as Hoff.
  eexists. split; [reflexivity|].
  set (k := (offset + (parseInt ds - 4) * 12)%Z).
  assert (-69 <= k <= 62)%Z as Hk by (unfold k; lia).
  assert (-6 <= IZR k / 12 <= 6)%R as Hx.
  { destruct Hk as [Hlo Hhi]. apply IZR_le in Hlo, Hhi. lra. }
  assert (Rpower 2 (Ropp 6) <= Rpower 2 (IZR k / 12) <= Rpower 2 6)%R as Hp.
  { split; apply Rle_Rpower; lra. }
  rewrite Rpower_Ropp, Rpower_2_6 in Hp. lra.
Qed.

Lemma noteToFrequency_range_witness :
  exists x,
    Num (440 * Rpower 2 (IZR (1 + (parseInt "-1" - 4) * 12) / 12))%R = Num x
    /\ (6.875 <= x <= 28160)%R.
Proof.
  apply (noteToFrequency_range "Bb-1" "Bb" "-1");
    [reflexivity | split; discriminate |].
  apply (noteToFrequency_formula "Bb-1" "Bb" "-1" 1); reflexivity.
Defined.

(** ** Cents *)

Lemma ln_2_pos : (0 < ln 2)%R.
Proof. pose proof ln_lt_2. lra. Qed.

(** ** Chords *)

Lemma mapNotes_returned (f : number R) (l : list string) :
  forall ns,
    mapNotes f l = Returned ns ->
    map interval ns = l
    /\ Forall (fun n =>
                 getIntervalRatio (interval n) = Returned (ratio n)
                 /\ frequency n = mul f (ratioNumber (ratio n))) ns.
Proof.
  induction l as [|i l IH]; intros ns; cbn [mapNotes].
  - intros [= <-]. split; [reflexivity | constructor].
  - unfold calculateFrequency.
    destruct (getIntervalRatio i) as [r|m] eqn:E; cbn [bind]; [|discriminate].
    destruct (mapNotes f l) as [ns'|m]; cbn [bind]; [|discriminate].
    intros [= <-]. destruct (IH ns' eq_refl) as [Hmap Hall].
    cbn [map interval]. split; [now rewrite Hmap|].
    constructor; [|exact Hall]. cbn [interval ratio frequency]. now split.
Qed.

Lemma mapNotes_first_throw (f : number R) (pre post : list string)
  (i message : string) :
  Forall (fun j => throws (getIntervalRatio j) = false) pre ->
  getIntervalRatio i = Thrown message ->
  mapNotes f (pre ++ i :: post) = Thrown message.
Proof.
  intros Hpre Hi. induction pre as [|j pre IH]; cbn [app mapNotes].
  - unfold calculateFrequency. now rewrite Hi.
  - inversion Hpre as [|? ? Hj Hrest]; subst. unfold calculateFrequency.
    destruct (getIntervalRatio j); [|discriminate]. cbn [bind].
    now rewrite (IH Hrest).
Qed.

(** X13: a chord [calculateChord] returns has one note per interval, in
    the order of the intervals and with repetitions kept; each note carries
    the ratio [getIntervalRatio] returns for its interval and the
    frequency fundamental times that ratio. *)
Theorem calculateChord_notes_follow_intervals
  (fundamental : fundamentalArg) (ivs : list string) (chord : Chord) :
  calculateChord fundamental ivs = Returned chord ->
  resolveFundamental fundamental
  = Returned (PythagoreanTuning.fundamental chord)
  /\ map interval (notes chord) = ivs
  /\ Forall (fun n =>
               getIntervalRatio (interval n) = Returned (ratio n)
               /\ frequency n
                  = mul (PythagoreanTuning.fundamental chord)
                        (ratioNumber (ratio n)))
       (notes chord).
Proof.
  unfold calculateChord.
  destruct (resolveFundamental fundamental) as [f|m]; cbn [bind];
    [|discriminate].
  destruct (mapNotes f ivs) as [ns|m] eqn:E; cbn [bind]; [|discriminate].
  intros [= <-]. cbn [PythagoreanTuning.fundamental notes].
  split; [reflexivity|]. exact (mapNotes_returned f ivs ns E).
Qed.

Lemma calculateChord_notes_follow_intervals_witness :
  resolveFundamental (FromNumber (Num 440%R)) = Returned (Num 440%R)
  /\ map interval
       [ mkNote "5" (mul (Num 440%R) (ofQ (Num (3 # 2)))) (Ratio (Num (3 # 2)));
         mkNote "5" (mul (Num 440%R) (ofQ (Num (3 # 2)))) (Ratio (Num (3 # 2))) ]
     = ["5"; "5"]
  /\ Forall (fun n =>
               getIntervalRatio (interval n) = Returned (ratio n)
               /\ frequency n = mul (Num 440%R) (ratioNumber (ratio n)))
       [ mkNote "5" (mul (Num 440%R) (ofQ (Num (3 # 2)))) (Ratio (Num (3 # 2)));
         mkNote "5" (mul (Num 440%R) (ofQ (Num (3 # 2)))) (Ratio (Num (3 # 2))) ].
Proof.
  apply (calculateChord_notes_follow_intervals (FromNumber (Num 440%R))
           ["5"; "5"]
           (mkChord (Num 440%R)
              [ mkNote "5" (mul (Num 440%R) (ofQ (Num (3 # 2))))
                  (Ratio (Num (3 # 2)));
                mkNote "5" (mul (Num 440%R) (ofQ (Num (3 # 2))))
                  (Ratio (Num (3 # 2))) ])).
  reflexivity.
Defined.

(** X14: one unresolvable interval fails the whole chord: when the
    fundamental resolves, [calculateChord] throws the error of the first
    interval on which [getIntervalRatio] throws, and returns no notes. *)
Theorem calculateChord_first_bad_interval
  (fundamental : fundamentalArg) (f : number R)
  (pre post : list string) (i message : string) :
  resolveFundamental fundamental = Returned f ->
  Forall (fun j => throws (getIntervalRatio j) = false) pre ->
  getIntervalRatio i = Thrown message ->
  calculateChord fundamental (pre ++ i :: post) = Thrown message.
Proof.
  intros Hf Hpre Hi. unfold calculateChord. rewrite Hf. cbn [bind].
  now rewrite (mapNotes_first_throw f pre post i message Hpre Hi).
Qed.

Lemma calculateChord_first_bad_interval_witness :
  calculateChord (FromString "A4") (["1"; "3"] ++ "#9" :: ["x"])
  = Thrown "Unknown compound interval: #9 (derived from #2)".
Proof.
  apply (calculateChord_first_bad_interval (FromString "A4")
           (Num (440 * Rpower 2 (IZR (0 + (parseInt "4" - 4) * 12) / 12))%R)).
  - rewrite resolveFundamental_string.
    now rewrite (noteToFrequency_formula "A4" "A" "4" 0 eq_refl eq_refl).
  - repeat constructor.
  - vm_compute; reflexivity.
Defined.

End NoteFacts.

(* ================================================================== *)
(** * The chord builder and the keyboard against the tuning engine *)
(* ================================================================== *)

Section BuilderFacts.

Import JS.
Import RealNumber.
Import PythagoreanTuning.
Import ChordTool.
Local Open Scope string_scope.
Local Open Scope bool_scope.
Local Open Scope Z_scope.

(** A compound symbol built from a base symbol of both tables. *)
Lemma compound_symbol (a : string) (deg o r : Z) (q : Q) :
  In a accidentals -> 1 <= deg <= 7 -> 1 <= o ->
  8 < deg + o * 7 <= 2 ^ 53 ->
  ownProperty intervalToSemitones (a ++ decimal deg) = Some (inject_Z r) ->
  ownProperty intervals (a ++ decimal deg) = Some q ->
  semitonesOf (a ++ decimal (deg + o * 7))
  = Returned (Num (inject_Z (o * 12 + r)))
  /\ getIntervalRatio (a ++ decimal (deg + o * 7))
     = Returned (Ratio (times (Number q) (pow2Z (Num o)))).
Proof.
  intros Ha Hdeg Ho Hd Hsemi Hratio.
  pose proof (matchInterval_symbol a (deg + o * 7) Ha) as Hm.
  assert (Z.rem (deg + o * 7 - 1) 7 + 1 = deg) as Hbase.
  { rewrite Z.rem_mod_nonneg by lia.
    replace (deg + o * 7 - 1) with (deg - 1 + o * 7) by lia.
    rewrite Z.mod_add, Z.mod_small by lia. lia. }
  assert ((deg + o * 7 - 1) / 7 = o) as Hoct.
  { replace (deg + o * 7 - 1) with (deg - 1 + o * 7) by lia.
    rewrite Z.div_add, Z.div_small by lia. lia. }
  split.
  - rewrite (semitonesOf_matched _ a _ Hm), parseInt_decimal by lia.
    cbv zeta. rewrite nearestDouble_small by lia.
    cbn [atMost reduceDegree fst snd].
    replace (deg + o * 7 <=? 8) with false by (symmetry; apply Z.leb_gt; lia).
    rewrite nearestFinite_small by lia.
    rewrite Hbase, Hoct, Hsemi. cbn [plusNumber timesZ]. do 2 f_equal.
    unfold Qplus, inject_Z. cbn [Qnum Qden]. f_equal. lia.
  - rewrite (getIntervalRatio_matched _ a _ Hm), parseInt_decimal by lia.
    assert (ownProperty intervals (a ++ decimal (deg + o * 7)) = None) as ->.
    { destruct (ownProperty intervals (a ++ decimal (deg + o * 7)))
        as [q'|] eqn:E; [|reflexivity].
      apply ownProperty_intervals_degree in E.
      rewrite (degreeOf_symbol a _ Ha) in E; lia. }
    cbv zeta. rewrite nearestDouble_small by lia.
    cbn [atMost reduceDegree fst snd].
    replace (deg + o * 7 <=? 8) with false by (symmetry; apply Z.leb_gt; lia).
    rewrite nearestFinite_small by lia.
    now rewrite Hbase, Hoct, Hratio.
Qed.

Lemma numberToString_nonneg (n : Z) : 0 <= n -> numberToString n = decimal n.
Proof.
  intros H. unfold numberToString.
  now replace (n <? 0) with false by (symmetry; apply Z.ltb_ge; lia).
Qed.

(** X15: for every integer semitone count [n] with [0 <= n < 2^53] the
    symbol the chord builder writes for it is accepted by the tuning
    engine: [getIntervalRatio] returns a ratio for it (an infinite one from
    1024 octaves on) and its equal-temperament semitone count is [n]
    again. *)
Theorem semitonesToScaleDegree_roundtrip (n : Z) :
  0 <= n < 2 ^ 53 ->
  semitonesOf (semitonesToScaleDegree n) = Returned (Num (inject_Z n))
  /\ exists ratio,
       getIntervalRatio (semitonesToScaleDegree n) = Returned (Ratio ratio).
Proof.
  intros [Hn Hbound].
  assert (exists o r,
             n / 12 = o /\ n mod 12 = r /\ n = o * 12 + r /\ 0 <= o
             /\ 0 <= r < 12) as (o & r & Ho' & Hr' & -> & Ho & Hr).
  { exists (n / 12), (n mod 12).
    pose proof (Z.div_mod n 12 ltac:(lia)).
    pose proof (Z.mod_pos_bound n 12 ltac:(lia)).
    assert (0 <= n / 12) by (apply Z.div_pos; lia). lia. }
  unfold semitonesToScaleDegree. rewrite Z.rem_mod_nonneg by lia.
  rewrite Ho', Hr'. clear Ho' Hr' Hn.
  assert (o * 7 + 7 <= 2 ^ 53) as Hdegree by lia.
  clear Hbound.
  assert (r = 0 \/ r = 1 \/ r = 2 \/ r = 3 \/ r = 4 \/ r = 5 \/ r = 6
          \/ r = 7 \/ r = 8 \/ r = 9 \/ r = 10 \/ r = 11) as Hcases by lia.
  clear Hr.
  destruct (Z.eqb_spec o 0) as [-> | Hne].
  - repeat (destruct Hcases as [-> | Hcases]); try subst r;
      (split; [vm_compute; reflexivity | eexists; vm_compute; reflexivity]).
  - assert (1 <= o) as Ho1 by lia.
    destruct (Z.eq_dec o 1) as [-> | Ho2].
    + repeat (destruct Hcases as [-> | Hcases]); try subst r;
        (split; [vm_compute; reflexivity | eexists; vm_compute; reflexivity]).
    + repeat (destruct Hcases as [-> | Hcases]); try subst r;
        cbn [lookupDegree semitoneToScaleDegree Z.eqb Pos.eqb isEmpty];
        match goal with
        | |- context [parseInt ?d] =>
            let v := eval vm_compute in (parseInt d) in
            change (parseInt d) with v
        end;
        match goal with
        | |- context [filter_string ?p ?d] =>
            let v := eval vm_compute in (filter_string p d) in
            change (filter_string p d) with v
        end;
        rewrite numberToString_nonneg by lia;
        match goal with
        | |- context [?a ++ decimal (?deg + o * 7)] =>
            edestruct (compound_symbol a deg o) as [Hs Hq];
            [ cbn; tauto | lia | lia | lia
            | vm_compute; reflexivity | vm_compute; reflexivity | ];
            rewrite Hs, Hq; split; [reflexivity | eexists; reflexivity]
        end.
Qed.

Lemma semitonesToScaleDegree_roundtrip_witness :
  semitonesOf (semitonesToScaleDegree 30) = Returned (Num (inject_Z 30))
  /\ exists ratio,
       getIntervalRatio (semitonesToScaleDegree 30)
       = Returned (Ratio ratio).
Proof.
  apply (semitonesToScaleDegree_roundtrip 30). split; [discriminate|].
  reflexivity.
Defined.

Lemma baseDegree_nonpositive (k : Z) :
  k <= 0 ->
  match lookupDegree semitoneToScaleDegree k with
  | Some d => if isEmpty d then "1" else d
  | None => "1"
  end = "1".
Proof.
  intros Hk. unfold semitoneToScaleDegree. cbn [lookupDegree].
  repeat match goal with
         | |- context [?c =? k] =>
             destruct (Z.eqb_spec c k) as [<- | _]; [try reflexivity; lia|]
         end.
  reflexivity.
Qed.

(** X16: for a negative integer semitone count [n] above [-2^53] (an
    interval note below the fundamental) the chord builder writes a minus
    sign followed by a number, and the tuning engine rejects that symbol as
    an invalid interval. *)
Theorem semitonesToScaleDegree_negative_rejected (n : Z) :
  - 2 ^ 53 < n < 0 ->
  semitonesToScaleDegree n = "-" ++ decimal (- (1 + n / 12 * 7))
  /\ getIntervalRatio (semitonesToScaleDegree n)
     = Thrown ("Invalid interval: " ++ semitonesToScaleDegree n).
Proof.
  intros [_ Hn].
  assert (n / 12 < 0) as Ho by (apply Z.div_lt_upper_bound; lia).
  assert (Z.rem n 12 <= 0) as Hr by (apply Z.rem_nonpos; lia).
  assert (semitonesToScaleDegree n = "-" ++ decimal (- (1 + n / 12 * 7)))
    as ->.
  { unfold semitonesToScaleDegree.
    rewrite (baseDegree_nonpositive _ Hr).
    replace (n / 12 =? 0) with false by (symmetry; apply Z.eqb_neq; lia).
    change (parseInt (filter_string isDigit "1")) with 1.
    change (filter_string (fun c => negb (isDigit c)) "1") with EmptyString.
    unfold numberToString.
    now replace (1 + n / 12 * 7 <? 0) with true
      by (symmetry; apply Z.ltb_lt; lia). }
  split; [reflexivity|].
  set (m := - (1 + n / 12 * 7)).
  assert (noBlank ("-" ++ decimal m) = true) as Hnb.
  { pose proof (decimal_isDigits m) as H. unfold isDigits in H.
    apply andb_true_iff in H as [_ H]. apply digits_noBlank in H.
    cbn [append]. unfold noBlank in *. cbn [forall_string]. now rewrite H. }
  unfold getIntervalRatio. rewrite (trim_noBlank _ Hnb). reflexivity.
Qed.

Lemma semitonesToScaleDegree_negative_rejected_witness :
  semitonesToScaleDegree (-5) = "-" ++ decimal (- (1 + -5 / 12 * 7))
  /\ getIntervalRatio (semitonesToScaleDegree (-5))
     = Thrown ("Invalid interval: " ++ semitonesToScaleDegree (-5)).
Proof.
  apply (semitonesToScaleDegree_negative_rejected (-5)).
  split; reflexivity.
Defined.

(** ** The keyboard's own frequency formula *)

Lemma isDigits_signed (s : string) :
  isDigits s = true -> isSignedDigits s = true.
Proof.
  destruct s as [|c r]; [discriminate|]. intros H.
  assert (isDigit c = true) as Hc.
  { unfold isDigits in H. cbn [isEmpty negb forall_string andb] in H.
    now apply andb_true_iff in H as [Hc _]. }
  revert H. destruct c as [[] [] [] [] [] [] [] []]; try discriminate Hc;
    exact (fun H => H).
Qed.

Lemma matchKey_matchNote (note name ds : string) :
  PianoKeyboard.matchKey note = Some (name, ds) ->
  matchNote note = Some (name, ds).
Proof.
  unfold PianoKeyboard.matchKey, matchNote.
  destruct note as [|l r]; [discriminate|].
  destruct (isNoteLetter l); [|discriminate].
  destruct r as [|a r'].
  - discriminate.
  - destruct (Ascii.eqb_spec a "#") as [-> | Ha].
    + destruct (isDigits r') eqn:Hd; [|discriminate].
      intros [= <- <-]. cbn [isAccidental Ascii.eqb Bool.eqb orb].
      now rewrite (isDigits_signed _ Hd).
    + assert (forall X Y : option (string * string),
                 match a with
                 | "#"%char => X
                 | _ => Y
                 end = Y) as Hdefault.
      { intros X Y.
        destruct a as [[] [] [] [] [] [] [] []]; try reflexivity.
        now destruct Ha. }
      rewrite Hdefault.
      destruct (isDigits (String a r')) eqn:Hd; [|discriminate].
      intros [= <- <-].
      assert (isDigit a = true) as Hdig.
      { unfold isDigits in Hd. cbn [isEmpty negb forall_string andb] in Hd.
        now apply andb_true_iff in Hd as [Hdig _]. }
      now rewrite (isDigit_not_accidental a Hdig), (isDigits_signed _ Hd).
Qed.

(** X17: on every key name (a letter A to G, an optional sharp, an
    octave number) whose note is in its table, the keyboard's
    [getFrequency] is the frequency [noteToFrequency] returns; on a string
    that is not of that form it answers 440 and throws nothing. *)
Theorem getFrequency_agrees_with_noteToFrequency :
  (forall note name ds,
      PianoKeyboard.matchKey note = Some (name, ds) ->
      In name (map fst PianoKeyboard.noteMap) ->
      noteToFrequency note = Returned (PianoKeyboard.getFrequency note))
  /\ (forall note,
         PianoKeyboard.matchKey note = None ->
         PianoKeyboard.getFrequency note = ofZ 440).
Proof.
  split.
  - intros note name ds Hk Hname.
    pose proof (matchKey_matchNote note name ds Hk) as Hm.
    unfold PianoKeyboard.getFrequency. rewrite Hk.
    cbn [PianoKeyboard.noteMap map fst] in Hname.
    repeat (destruct Hname as [<- | Hname]);
      try (match type of Hm with
           | _ = Some (?nm, _) =>
               let v := eval vm_compute in (ownProperty noteToSemitone nm) in
               match v with
               | Some (Qmake ?z _) =>
                   rewrite (noteToFrequency_formula note nm ds z Hm eq_refl)
               end
           end;
           unfold getProperty;
           match goal with
           | |- context [ownProperty PianoKeyboard.noteMap ?k] =>
               let v := eval vm_compute in
                          (ownProperty PianoKeyboard.noteMap k) in
               change (ownProperty PianoKeyboard.noteMap k) with v
           end;
           cbn [plus ofQ]; unfold ofZ; rewrite div_quotient by lra;
           cbn [pow2 mul]; do 4 f_equal;
           match goal with
           | |- (IZR ?k / 12)%R = quotient ?x 12 =>
               replace x with (IZR k)
                 by (rewrite !Q2R_plus, !Q2R_inject_Z, plus_IZR;
                     unfold Q2R; cbn [Qnum Qden]; lra);
               symmetry; apply quotient_integer; lra
           end).
    destruct Hname.
  - intros note Hk. unfold PianoKeyboard.getFrequency. now rewrite Hk.
Qed.

Lemma getFrequency_agrees_with_noteToFrequency_witness :
  noteToFrequency "G#2" = Returned (PianoKeyboard.getFrequency "G#2").
Proof.
  apply (proj1 getFrequency_agrees_with_noteToFrequency "G#2" "G#" "2");
    [reflexivity | cbn; tauto].
Defined.

End BuilderFacts.

(* ================================================================== *)
(** * Further properties of the MIDI encoder *)
(* ================================================================== *)

Section EncoderFacts.

Import JS.
Import RealNumber.
Import MIDIExporter.
Local Open Scope Z_scope.

(** ** Variable-length quantities *)

Lemma continuation_byte (w : Z) :
  Z.lor (Z.land w 127) 128 = w mod 128 + 128
  /\ Z.land (Z.lor (Z.land w 127) 128) 127 = w mod 128.
Proof.
  assert (Z.land (Z.land w 127) 128 = 0) as Hdisjoint.
  { rewrite <- Z.land_assoc. change (Z.land 127 128) with 0.
    apply Z.land_0_r. }
  assert (Z.land w 127 = w mod 128) as Hlow.
  { change 127 with (Z.ones 7). now rewrite Z.land_ones by lia. }
  split.
  - rewrite <- Z.lxor_lor, <- Z.add_nocarry_lxor by assumption.
    now rewrite Hlow.
  - rewrite Z.land_lor_distr_l. change (Z.land 128 127) with 0.
    rewrite Z.lor_0_r, <- Z.land_assoc. change (Z.land 127 127) with 127.
    exact Hlow.
Qed.

Lemma decodeVarLength_acc (bytes : list Z) :
  forall acc,
    fold_left (fun a b => a * 128 + Z.land b 127) bytes acc
    = acc * 128 ^ Z.of_nat (List.length bytes) + decodeVarLength bytes.
Proof.
  unfold decodeVarLength.
  induction bytes as [|b bytes IH]; intros acc; cbn [fold_left List.length].
  - change (128 ^ Z.of_nat 0) with 1. lia.
  - rewrite IH, (IH (0 * 128 + Z.land b 127)).
    rewrite Nat2Z.inj_succ, Z.pow_succ_r by lia. ring.
Qed.

Lemma decodeVarLength_rev_snoc (buffer : list Z) (x : Z) :
  decodeVarLength (rev (buffer ++ [x]))
  = Z.land x 127 * 128 ^ Z.of_nat (List.length buffer)
    + decodeVarLength (rev buffer).
Proof.
  rewrite rev_app_distr. cbn [rev app]. unfold decodeVarLength at 1.
  cbn [fold_left]. rewrite decodeVarLength_acc, length_rev. ring.
Qed.

(** What the loop appends: continuation bytes that carry the value. *)
Lemma varLengthLoop_spec (n : nat) :
  forall w buffer,
    0 <= w < 2 ^ (7 * Z.of_nat n) ->
    exists ext,
      varLengthLoop n w buffer = (buffer ++ ext)%list
      /\ Forall (fun b => 128 <= b <= 255) ext
      /\ (List.length ext <= n)%nat
      /\ decodeVarLength (rev (buffer ++ ext))
         = w * 128 ^ Z.of_nat (List.length buffer)
           + decodeVarLength (rev buffer).
Proof.
  induction n as [|n IH]; intros w buffer Hw.
  - change (2 ^ (7 * Z.of_nat 0)) with 1 in Hw. exists [].
    rewrite List.app_nil_r. cbn [varLengthLoop List.length].
    repeat split; [constructor | lia | ].
    replace w with 0 by lia. lia.
  - cbn [varLengthLoop]. destruct (0 <? w) eqn:E.
    + apply Z.ltb_lt in E.
      destruct (continuation_byte w) as [Hbyte Hlow].
      pose proof (Z.mod_pos_bound w 128 ltac:(lia)) as Hmod.
      destruct (IH (Z.shiftr w 7) (buffer ++ [Z.lor (Z.land w 127) 128])%list)
        as (ext & Heq & Hall & Hlen & Hval).
      { rewrite Z.shiftr_div_pow2 by lia. split; [apply Z.div_pos; lia|].
        apply Z.div_lt_upper_bound; [lia|].
        rewrite <- Z.pow_add_r by lia.
        now replace (7 + 7 * Z.of_nat n) with (7 * Z.of_nat (S n)) by lia. }
      exists (Z.lor (Z.land w 127) 128 :: ext).
      rewrite <- List.app_assoc in Heq, Hval. cbn [app] in Heq, Hval.
      split; [exact Heq|]. split; [constructor; [lia | exact Hall]|].
      split; [cbn [List.length]; lia|].
      rewrite Hval, decodeVarLength_rev_snoc, Hlow, length_app.
      cbn [List.length]. rewrite Z.shiftr_div_pow2 by lia.
      replace (Z.of_nat (List.length buffer + 1))
        with (Z.succ (Z.of_nat (List.length buffer))) by lia.
      rewrite Z.pow_succ_r by lia. change (2 ^ 7) with 128.
      pose proof (Z.div_mod w 128 ltac:(lia)). nia.
    + apply Z.ltb_ge in E. exists []. rewrite List.app_nil_r.
      cbn [List.length]. repeat split; [constructor | lia |].
      replace w with 0 by lia. lia.
Qed.

(** A value from 0 to [2^31 - 1] is written as continuation bytes and a
    last byte that read back as the value. *)
Lemma varLengthBytes_roundtrip (v : Z) :
  0 <= v < 2 ^ 31 ->
  decodeVarLength (varLengthBytes v) = v
  /\ exists conts last,
       varLengthBytes v = (conts ++ [last])%list
       /\ Forall (fun b => 128 <= b <= 255) conts
       /\ 0 <= last <= 127
       /\ (List.length conts <= 4)%nat.
Proof.
  intros Hv.
  assert (0 <= Z.shiftr v 7 < 2 ^ (7 * Z.of_nat 4)) as Hw.
  { rewrite Z.shiftr_div_pow2 by lia. split; [apply Z.div_pos; lia|].
    apply Z.div_lt_upper_bound; [lia|].
    change (2 ^ 7 * 2 ^ (7 * Z.of_nat 4)) with (2 ^ 35). lia. }
  destruct (varLengthLoop_spec 4 (Z.shiftr v 7) [Z.land v 127] Hw)
    as (ext & Heq & Hall & Hlen & Hval).
  assert (varLengthBytes v = (rev ext ++ [Z.land v 127])%list) as Hbytes.
  { unfold varLengthBytes.
    rewrite (varLengthLoop_fuel 4 _ _ 1 (proj2 Hw)), Heq.
    cbn [app]. reflexivity. }
  pose proof (land_127_bounds v) as Hlast.
  split.
  - unfold varLengthBytes.
    rewrite (varLengthLoop_fuel 4 _ _ 1 (proj2 Hw)), Heq, Hval.
    cbn [List.length rev app]. unfold decodeVarLength at 1. cbn [fold_left].
    rewrite <- Z.land_assoc. change (Z.land 127 127) with 127.
    change 127 with (Z.ones 7). rewrite Z.land_ones by lia.
    rewrite Z.shiftr_div_pow2 by lia. change (2 ^ 7) with 128.
    change (128 ^ Z.of_nat 1) with 128.
    pose proof (Z.div_mod v 128 ltac:(lia)). lia.
  - exists (rev ext), (Z.land v 127). split; [exact Hbytes|].
    split; [now apply Forall_rev|]. split; [exact Hlast|].
    now rewrite length_rev.
Qed.

(** A negative value is written as the byte of its low seven bits. *)
Lemma varLengthBytes_negative (v : Z) :
  v < 0 -> varLengthBytes v = [v mod 128].
Proof.
  intros Hneg. unfold varLengthBytes.
  assert (Z.shiftr v 7 < 0) as Hs by now apply Z.shiftr_neg.
  cbn [varLengthLoop].
  replace (0 <? Z.shiftr v 7) with false by (symmetry; apply Z.ltb_ge; lia).
  cbn [rev app]. change 127 with (Z.ones 7).
  now rewrite Z.land_ones by lia.
Qed.

(** X18: for a delta-time [v] from 0 to [2^31 - 1], [writeVarLength]
    appends between one and five bytes, all but the last with the high bit
    set and the last with it clear, and reading them back as a
    variable-length quantity gives [v] again. *)
Theorem writeVarLength_roundtrip (bytes : list (number R)) (v : Z) :
  0 <= v < 2 ^ 31 ->
  writeVarLength bytes (ofZ v) = (bytes ++ map ofZ (varLengthBytes v))%list
  /\ decodeVarLength (varLengthBytes v) = v
  /\ exists conts last,
       varLengthBytes v = (conts ++ [last])%list
       /\ Forall (fun b => 128 <= b <= 255) conts
       /\ 0 <= last <= 127
       /\ (List.length conts <= 4)%nat.
Proof.
  intros Hv. split; [|exact (varLengthBytes_roundtrip v Hv)].
  unfold writeVarLength. rewrite toInt32_ofZ, wrap32_small by lia.
  reflexivity.
Qed.

Lemma writeVarLength_roundtrip_witness :
  writeVarLength [] (ofZ 960) = ([] ++ map ofZ (varLengthBytes 960))%list
  /\ decodeVarLength (varLengthBytes 960) = 960
  /\ exists conts last,
       varLengthBytes 960 = (conts ++ [last])%list
       /\ Forall (fun b => 128 <= b <= 255) conts
       /\ 0 <= last <= 127
       /\ (List.length conts <= 4)%nat.
Proof. apply (writeVarLength_roundtrip [] 960). lia. Defined.

(** X19: a delta-time whose 32-bit value is negative is written as the
    single byte of its low seven bits: the rest of the value is lost. *)
Theorem writeVarLength_negative (bytes : list (number R)) (value : number R) :
  toInt32 value < 0 ->
  writeVarLength bytes value
  = (bytes ++ [ofZ (toInt32 value mod 128)])%list.
Proof.
  intros Hneg. unfold writeVarLength.
  assert (Z.shiftr (toInt32 value) 7 < 0) as Hs by now apply Z.shiftr_neg.
  cbn [varLengthLoop].
  replace (0 <? Z.shiftr (toInt32 value) 7) with false
    by (symmetry; apply Z.ltb_ge; lia).
  cbn [rev app map]. change 127 with (Z.ones 7).
  now rewrite Z.land_ones by lia.
Qed.

Lemma writeVarLength_negative_witness :
  writeVarLength [] (ofZ (-960)) = ([] ++ [ofZ (toInt32 (ofZ (-960)) mod 128)])%list.
Proof.
  apply (writeVarLength_negative [] (ofZ (-960))).
  rewrite toInt32_ofZ. reflexivity.
Defined.

(** ** Pitch bend values *)

Lemma Rmin_IZR (a b : Z) : Rmin (IZR a) (IZR b) = IZR (Z.min a b).
Proof.
  destruct (Z.le_ge_cases a b) as [H | H].
  - rewrite Z.min_l, Rmin_left by (try apply IZR_le; assumption). reflexivity.
  - rewrite Z.min_r, Rmin_right by (try apply IZR_le; lia). reflexivity.
Qed.

Lemma Rmax_IZR (a b : Z) : Rmax (IZR a) (IZR b) = IZR (Z.max a b).
Proof.
  destruct (Z.le_ge_cases a b) as [H | H].
  - rewrite Z.max_r, Rmax_right by (try apply IZR_le; assumption). reflexivity.
  - rewrite Z.max_l, Rmax_left by (try apply IZR_le; lia). reflexivity.
Qed.

Lemma centsToPitchBend_clamped (c : R) :
  centsToPitchBend (Num c)
  = ofZ (Z.max 0 (Z.min 16383 (Int_part (8192 + c / 200 * 8192 + / 2)))).
Proof.
  rewrite centsToPitchBend_finite. unfold ofZ.
  now rewrite Rmin_IZR, Rmax_IZR.
Qed.

Lemma centsToPitchBend_integer (cents : number R) :
  isNaN cents = false ->
  exists bend, centsToPitchBend cents = ofZ bend /\ 0 <= bend <= 16383.
Proof.
  destruct cents as [| s | c]; intros Hnan; [discriminate | |].
  - unfold centsToPitchBend, ofZ, div.
    rewrite signOf_positive by lra. unfold mul.
    rewrite signOf_positive by lra. cbn [add round].
    destruct s; cbn [min max].
    + exists 0. split; [reflexivity | lia].
    + exists 16383. split; [|lia]. f_equal. apply Rmax_right. lra.
  - rewrite centsToPitchBend_clamped. eexists. split; [reflexivity|]. lia.
Qed.

(** X20: for every cents value other than not-a-number
    [centsToPitchBend] returns an integer from 0 to 16383; it is 8192 for
    0 cents, 16383 from 200 cents up and 0 from -200 cents down; for
    not-a-number it returns not-a-number. *)
Theorem centsToPitchBend_range :
  (forall cents,
      isNaN cents = false ->
      exists bend, centsToPitchBend cents = ofZ bend /\ 0 <= bend <= 16383)
  /\ centsToPitchBend (Num 0%R) = ofZ 8192
  /\ (forall c : R, (200 <= c)%R -> centsToPitchBend (Num c) = ofZ 16383)
  /\ (forall c : R, (c <= -200)%R -> centsToPitchBend (Num c) = ofZ 0)
  /\ centsToPitchBend NaN = NaN.
Proof.
  split; [|split; [|split; [|split]]].
  - exact centsToPitchBend_integer.
  - rewrite centsToPitchBend_clamped. do 2 f_equal.
    assert (Int_part (8192 + 0 / 200 * 8192 + / 2) = 8192) as ->;
      [apply Int_part_unique; lra | reflexivity].
  - intros c Hc. rewrite centsToPitchBend_clamped. f_equal.
    pose proof (Int_part_bounds (8192 + c / 200 * 8192 + / 2)) as H.
    assert (16383 < Int_part (8192 + c / 200 * 8192 + / 2))
      by (apply lt_IZR; lra).
    lia.
  - intros c Hc. rewrite centsToPitchBend_clamped. f_equal.
    pose proof (Int_part_bounds (8192 + c / 200 * 8192 + / 2)) as H.
    assert (Int_part (8192 + c / 200 * 8192 + / 2) < 1)
      by (apply lt_IZR; lra).
    lia.
  - reflexivity.
Qed.

Lemma centsToPitchBend_range_witness :
  centsToPitchBend (Num 250%R) = ofZ 16383.
Proof.
  apply (proj1 (proj2 (proj2 centsToPitchBend_range)) 250%R). lra.
Defined.

Lemma bend_split (b : Z) :
  0 <= b <= 16383 ->
  Z.land b 127 + 128 * Z.land (Z.shiftr b 7) 127 = b.
Proof.
  intros Hb. change 127 with (Z.ones 7).
  rewrite !Z.land_ones, Z.shiftr_div_pow2 by lia. change (2 ^ 7) with 128.
  Z.div_mod_to_equations. lia.
Qed.

Lemma gtb_abs_not_NaN (cents : number R) (y : R) :
  gtb (abs cents) y = true -> isNaN cents = false.
Proof. destruct cents; [discriminate | reflexivity | reflexivity]. Qed.

(** A frequency a quarter tone above 440 Hz lies halfway between two MIDI
    notes: it is given the upper one and a deviation of -50 cents. *)
Lemma frequencyToMIDI_quarter_tone :
  frequencyToMIDI (Num (440 * Rpower 2 (/ 24))%R) = (ofZ 70, Num (-50)%R).
Proof.
  pose proof ln_2_pos as H2. pose proof minDouble_tiny as Hm.
  assert (1 <= Rpower 2 (/ 24))%R as Hp.
  { rewrite <- (Rpower_O 2) by lra. apply Rle_Rpower; lra. }
  rewrite frequencyToMIDI_finite by lra.
  assert (69 + 12 * (ln (440 * Rpower 2 (/ 24) / 440) / ln 2)
          = 69 + / 2)%R as ->.
  { replace (440 * Rpower 2 (/ 24) / 440)%R
      with (Rpower 2 (/ 24)) by (field; lra).
    unfold Rpower. rewrite ln_exp. field. lra. }
  assert (Int_part (69 + / 2 + / 2) = 70%Z) as ->
    by (apply Int_part_unique; lra).
  unfold ofZ. do 2 f_equal. lra.
Qed.

Lemma gtb_abs_quarter_tone : gtb (abs (Num (-50)%R)) (/ 2) = true.
Proof.
  unfold gtb, abs. destruct (Rlt_dec (/ 2) (Rabs (-50))) as [|Hn];
    [reflexivity|].
  exfalso. apply Hn. unfold Rabs. destruct (Rcase_abs (-50)); lra.
Qed.

(** X21: when the generator pushes a pitch-bend event for a note, the
    event has delta-time 0 and its two data bytes are the low and the high
    seven bits of the bend value: both lie between 0 and 127, and the first
    plus 128 times the second is [centsToPitchBend] of the note's cents
    deviation. *)
Theorem pushNoteOn_bend_recombines
  (chordIndex : nat) (track : list MIDIEvent) (noteData : NoteData)
  (i : nat) :
  gtb (abs (snd (frequencyToMIDI (frequency noteData)))) (/ 2) = true ->
  exists lsb msb,
    pushNoteOn chordIndex track noteData i
    = (track
         ++ [ mkEvent (ofZ 0)
                [ofZ (Z.lor 224 (Z.min (Z.of_nat i) 15)); ofZ lsb; ofZ msb];
              mkEvent (ofZ 0)
                [ ofZ (Z.lor 144 (Z.min (Z.of_nat i) 15));
                  fst (frequencyToMIDI (frequency noteData)); ofZ 80 ] ])%list
    /\ 0 <= lsb <= 127 /\ 0 <= msb <= 127
    /\ centsToPitchBend (snd (frequencyToMIDI (frequency noteData)))
       = ofZ (lsb + 128 * msb).
Proof.
  intros Hbend.
  destruct (centsToPitchBend_integer _ (gtb_abs_not_NaN _ _ Hbend))
    as (b & Hb & Hrange).
  unfold pushNoteOn, channelOf.
  destruct (frequencyToMIDI (frequency noteData)) as [note cents].
  cbn [fst snd] in *. rewrite Hbend, Hb, toInt32_ofZ, wrap32_small by lia.
  eexists _, _. split.
  - rewrite <- List.app_assoc. cbn [app].
    now destruct ((chordIndex =? 0)%nat && (i =? 0)%nat).
  - split; [apply land_127_bounds|]. split; [apply land_127_bounds|].
    now rewrite (bend_split b Hrange).
Qed.

Lemma pushNoteOn_bend_recombines_witness :
  exists lsb msb,
    pushNoteOn 0 [] (mkNoteData (Num (440 * Rpower 2 (/ 24))%R)) 3
    = ([]
         ++ [ mkEvent (ofZ 0)
                [ofZ (Z.lor 224 (Z.min (Z.of_nat 3) 15)); ofZ lsb; ofZ msb];
              mkEvent (ofZ 0)
                [ ofZ (Z.lor 144 (Z.min (Z.of_nat 3) 15));
                  fst (frequencyToMIDI
                         (frequency
                            (mkNoteData (Num (440 * Rpower 2 (/ 24))%R))));
                  ofZ 80 ] ])%list
    /\ 0 <= lsb <= 127 /\ 0 <= msb <= 127
    /\ centsToPitchBend
         (snd (frequencyToMIDI
                 (frequency (mkNoteData (Num (440 * Rpower 2 (/ 24))%R)))))
       = ofZ (lsb + 128 * msb).
Proof.
  apply (pushNoteOn_bend_recombines 0 []
           (mkNoteData (Num (440 * Rpower 2 (/ 24))%R)) 3).
  cbn [frequency]. rewrite frequencyToMIDI_quarter_tone. cbn [snd].
  exact gtb_abs_quarter_tone.
Defined.

(** ** Kinds of events *)

Lemma isPitchBend_pitchBend (i : nat) (cents : number R) :
  isPitchBend (pitchBendEvent i cents) = true.
Proof.
  unfold isPitchBend. rewrite statusOf_pitchBend.
  pose proof (channelOf_bounds i).
  apply andb_true_iff; split; apply Z.leb_le; lia.
Qed.

Lemma isPitchBend_noteOn (i : nat) (note : number R) :
  isPitchBend (noteOnEvent i note) = false.
Proof.
  unfold isPitchBend. rewrite statusOf_noteOn.
  pose proof (channelOf_bounds i).
  apply andb_false_iff; left; apply Z.leb_gt; lia.
Qed.

Lemma isPitchBend_noteOff (delta : number R) (i : nat) (note : number R) :
  isPitchBend (noteOffEvent delta i note) = false.
Proof.
  unfold isPitchBend. rewrite statusOf_noteOff.
  pose proof (channelOf_bounds i).
  apply andb_false_iff; left; apply Z.leb_gt; lia.
Qed.

Lemma isPitchBend_endOfTrack : isPitchBend endOfTrack = false.
Proof.
  unfold isPitchBend, statusOf, endOfTrack, ofZ. cbn [data].
  rewrite truncate_IZR. reflexivity.
Qed.

Lemma filter_flat_map {A B : Type} (p : B -> bool) (f : A -> list B)
  (l : list A) :
  filter p (flat_map f l) = flat_map (fun x => filter p (f x)) l.
Proof.
  induction l as [|x l IH]; cbn [flat_map]; [reflexivity|].
  now rewrite filter_app, IH.
Qed.

Lemma filter_specNoteOn (p : nat * NoteData) :
  filter notBend (specNoteOn p)
  = [noteOnEvent (fst p) (fst (frequencyToMIDI (frequency (snd p))))].
Proof.
  unfold specNoteOn, notBend.
  destruct (frequencyToMIDI (frequency (snd p))) as [note cents].
  cbn [fst]. rewrite filter_app. cbn [filter].
  rewrite isPitchBend_noteOn. cbn [negb].
  destruct (gtb (abs cents) (/ 2)); cbn [filter];
    [rewrite isPitchBend_pitchBend|]; reflexivity.
Qed.

Lemma filter_specNoteOff (d : number R) (l : list (nat * NoteData)) :
  filter notBend (map (specNoteOff d) l) = map (specNoteOff d) l.
Proof.
  induction l as [|p l IH]; cbn [map filter]; [reflexivity|].
  unfold notBend at 1, specNoteOff at 1. rewrite isPitchBend_noteOff.
  cbn [negb]. now rewrite IH.
Qed.

(** ** The equal-temperament file *)

Lemma pushNoteOnET_spec (chordIndex : nat) (track : list MIDIEvent)
  (noteData : NoteData) (noteIndex : nat) :
  pushNoteOnET chordIndex track noteData noteIndex
  = (track ++ filter notBend (specNoteOn (noteIndex, noteData)))%list.
Proof.
  rewrite filter_specNoteOn. unfold pushNoteOnET, noteOnEvent. cbn [fst snd].
  now destruct ((chordIndex =? 0)%nat && (noteIndex =? 0)%nat).
Qed.

Lemma pushChordET_spec (baseDuration tempo : number R)
  (track : list MIDIEvent) (chord : ChordData) (chordIndex : nat) :
  pushChordET baseDuration tempo track (asET chord) chordIndex
  = (track ++ filter notBend (specChord baseDuration tempo chord))%list.
Proof.
  unfold pushChordET, specChord, asET, indexed, durationTicksOf.
  cbn [equalTemperamentNotes durationET].
  rewrite (forEach_append (fun p => [specNoteOff _ p]) _
             (pushNoteOff_spec _)).
  rewrite (forEach_append (fun p => filter notBend (specNoteOn p)) _
             (pushNoteOnET_spec chordIndex)).
  rewrite filter_app, filter_flat_map, filter_specNoteOff.
  now rewrite flat_map_singleton, <- List.app_assoc.
Qed.

Lemma forEach_pushChordET (baseDuration tempo : number R)
  (chords : list ChordData) :
  forall i track,
    forEach (pushChordET baseDuration tempo) (map asET chords) i track
    = (track
         ++ filter notBend
              (flat_map (specChord baseDuration tempo) chords))%list.
Proof.
  induction chords as [|c chords IH]; intros i track;
    cbn [map forEach flat_map].
  - cbn. now rewrite List.app_nil_r.
  - rewrite pushChordET_spec, IH, filter_app. now rewrite <- List.app_assoc.
Qed.

(** X22: fed the same notes and durations,
    [generateEqualTemperamentMIDI] writes the file
    [generatePythagoreanMIDI] writes with the pitch-bend events left out
    of track 1: same tempo track, same note-on and note-off events in the
    same order, and no pitch-bend event at all. *)
Theorem generateEqualTemperamentMIDI_is_pythagorean_without_bends
  (chords : list ChordData) (baseDuration tempo : number R) :
  generateEqualTemperamentMIDI (map asET chords) baseDuration tempo
  = createMIDIFile
      [ tempoTrack tempo;
        filter (fun e => negb (isPitchBend e))
          (noteTrack chords baseDuration tempo) ]
  /\ Forall (fun e => isPitchBend e = false)
       (noteTrackET (map asET chords) baseDuration tempo).
Proof.
  assert (noteTrackET (map asET chords) baseDuration tempo
          = filter notBend (noteTrack chords baseDuration tempo)) as H.
  { unfold noteTrackET. rewrite forEach_pushChordET, noteTrack_spec.
    unfold specNoteTrack. rewrite filter_app. cbn [app filter].
    unfold notBend at 3. now rewrite isPitchBend_endOfTrack. }
  split.
  - unfold generateEqualTemperamentMIDI. now rewrite H.
  - rewrite H. apply Forall_forall. intros e He.
    apply filter_In in He as [_ He]. now apply negb_true_iff in He.
Qed.

(** ** Bytes and lengths *)

Lemma decode_uint32BE (v : Z) :
  decodeUint32BE (uint32BE v) = v mod 2 ^ 32.
Proof.
  unfold decodeUint32BE, uint32BE. cbn [fold_left].
  change 255 with (Z.ones 8). rewrite !Z.land_ones, !Z.shiftr_div_pow2 by lia.
  change (2 ^ 8) with 256. change (2 ^ 16) with 65536.
  change (2 ^ 24) with 16777216. change (2 ^ 32) with 4294967296.
  Z.div_mod_to_equations. lia.
Qed.

(** X24: a track chunk is the four bytes [MTrk], a four-byte length
    field and the track data; the field read as a big-endian integer is the
    number of data bytes (modulo [2^32]), so the chunk is exactly eight
    bytes longer than its data, and a file is the 14-byte header followed
    by its chunks. *)
Theorem createTrackChunk_length_field :
  (forall events,
      exists field,
        createTrackChunk events
        = ([77; 84; 114; 107] ++ field ++ encodeTrackEvents events)%list
        /\ List.length field = 4%nat
        /\ decodeUint32BE field
           = Z.of_nat (List.length (encodeTrackEvents events)) mod 2 ^ 32
        /\ List.length (createTrackChunk events)
           = (8 + List.length (encodeTrackEvents events))%nat)
  /\ (forall tracks,
         List.length (createMIDIFile tracks)
         = (14 + list_sum
                   (map (fun t => 8 + List.length (encodeTrackEvents t))%nat
                      tracks))%nat).
Proof.
  split.
  - intros events.
    exists (uint32BE (Z.of_nat (List.length (encodeTrackEvents events)))).
    split; [reflexivity|]. split; [reflexivity|].
    split; [apply decode_uint32BE|].
    unfold createTrackChunk. rewrite !length_app. reflexivity.
  - intros tracks. unfold createMIDIFile. cbn [List.concat].
    rewrite length_app. f_equal.
    induction tracks as [|t tracks IH]; cbn [map List.concat list_sum];
      [reflexivity|].
    rewrite length_app, IH. f_equal.
    unfold createTrackChunk. rewrite !length_app. reflexivity.
Qed.

(** ** Frequencies and MIDI notes *)

(** An equal-tempered frequency within six octaves of 440 Hz lies on its
    MIDI note. *)
Lemma frequencyToMIDI_equal_tempered (n : Z) :
  -72 <= n <= 72 ->
  frequencyToMIDI (Num (440 * Rpower 2 (IZR n / 12))%R)
  = (ofZ (69 + n), Num 0%R).
Proof.
  intros [Hlo Hhi]. pose proof ln_2_pos as H2.
  pose proof minDouble_tiny as Hm.
  assert (/ 64 <= Rpower 2 (IZR n / 12))%R as Hp.
  { apply IZR_le in Hlo, Hhi.
    apply Rle_trans with (Rpower 2 (Ropp 6)).
    - rewrite Rpower_Ropp, Rpower_2_6. lra.
    - apply Rle_Rpower; lra. }
  rewrite frequencyToMIDI_finite by lra.
  assert (69 + 12 * (ln (440 * Rpower 2 (IZR n / 12) / 440) / ln 2)
          = IZR (69 + n))%R as ->.
  { replace (440 * Rpower 2 (IZR n / 12) / 440)%R
      with (Rpower 2 (IZR n / 12)) by (field; lra).
    unfold Rpower. rewrite ln_exp, plus_IZR. field. lra. }
  assert (Int_part (IZR (69 + n) + / 2) = (69 + n)%Z) as ->
    by (apply Int_part_unique; lra).
  do 2 f_equal. ring.
Qed.

(** X26: a note name with an octave number from -1 to 9 needs no pitch
    bend: [frequencyToMIDI] places the frequency [noteToFrequency] returns
    for it on the MIDI note [69 + offset + 12 * (octave - 4)], a number
    from 0 to 131, and the generator pushes its note on without a
    pitch-bend event before it. *)
Theorem note_name_needs_no_bend
  (s name ds : string) (offset : Z) :
  PythagoreanTuning.matchNote s = Some (name, ds) ->
  PythagoreanTuning.ownProperty PythagoreanTuning.noteToSemitone name
  = Some (inject_Z offset) ->
  -1 <= parseInt ds <= 9 ->
  let note := 69 + offset + (parseInt ds - 4) * 12 in
  exists f,
    PythagoreanTuning.noteToFrequency s = Returned f
    /\ fst (frequencyToMIDI f) = ofZ note
    /\ 0 <= note <= 131
    /\ forall chordIndex track i,
         pushNoteOn chordIndex track (mkNoteData f) i
         = (track
              ++ [ mkEvent (ofZ 0)
                     [ ofZ (Z.lor 144 (Z.min (Z.of_nat i) 15)); ofZ note;
                       ofZ 80 ] ])%list.
Proof.
  intros Hm Hown Hoct note.
  pose proof (noteToSemitone_offset name offset Hown) as Hoff.
  eexists. split; [exact (noteToFrequency_formula s name ds offset Hm Hown)|].
  assert (frequencyToMIDI
            (Num (440 * Rpower 2
                          (IZR (offset + (parseInt ds - 4) * 12) / 12))%R)
          = (ofZ note, Num 0%R)) as Hnote.
  { rewrite frequencyToMIDI_equal_tempered by lia. unfold note.
    do 2 f_equal. lia. }
  rewrite Hnote. cbn [fst]. split; [reflexivity|].
  split; [unfold note; lia|].
  intros chordIndex track i. rewrite pushNoteOn_spec. f_equal.
  unfold specNoteOn. cbn [fst snd frequency]. rewrite Hnote.
  assert (gtb (abs (Num 0%R)) (/ 2) = false) as ->; [|reflexivity].
  unfold gtb, abs. destruct (Rlt_dec (/ 2) (Rabs 0)) as [Hlt|]; [|reflexivity].
  rewrite Rabs_R0 in Hlt. lra.
Qed.

Lemma note_name_needs_no_bend_witness :
  exists f,
    PythagoreanTuning.noteToFrequency "C4" = Returned f
    /\ fst (frequencyToMIDI f) = ofZ (69 + -9 + (parseInt "4" - 4) * 12)
    /\ 0 <= 69 + -9 + (parseInt "4" - 4) * 12 <= 131
    /\ forall chordIndex track i,
         pushNoteOn chordIndex track (mkNoteData f) i
         = (track
              ++ [ mkEvent (ofZ 0)
                     [ ofZ (Z.lor 144 (Z.min (Z.of_nat i) 15));
                       ofZ (69 + -9 + (parseInt "4" - 4) * 12);
                       ofZ 80 ] ])%list.
Proof.
  apply (note_name_needs_no_bend "C4" "C" "4" (-9));
    [reflexivity | reflexivity | split; discriminate].
Defined.

(** X27: for a frequency that is zero or negative [frequencyToMIDI]
    gives a not-a-number cents deviation and a note that is minus infinity
    or not-a-number; the generator then pushes the note on without a pitch
    bend, and the note byte stored in the file is 0. *)
Theorem frequencyToMIDI_nonpositive (f : R) :
  (f <= 0)%R ->
  snd (frequencyToMIDI (Num f)) = NaN
  /\ (fst (frequencyToMIDI (Num f)) = Infinity true
      \/ fst (frequencyToMIDI (Num f)) = NaN)
  /\ toUint8 (fst (frequencyToMIDI (Num f))) = 0
  /\ forall chordIndex track i,
       pushNoteOn chordIndex track (mkNoteData (Num f)) i
       = (track ++ [noteOnEvent i (fst (frequencyToMIDI (Num f)))])%list.
Proof.
  intros Hf.
  assert (frequencyToMIDI (Num f) = (Infinity true, NaN)
          \/ frequencyToMIDI (Num f) = (NaN, NaN)) as Hcases.
  { unfold frequencyToMIDI, ofZ. rewrite div_quotient by lra. unfold log2.
    assert (quotient f 440 <= 0)%R as Hq.
    { unfold quotient.
      destruct (Rle_dec (Rabs (f / 440)) (minDouble / 2)); lra. }
    destruct (Rle_lt_or_eq_dec _ 0 Hq) as [Hlt | ->].
    - right. now rewrite signOf_negative.
    - left. rewrite signOf_zero. unfold mul.
      rewrite signOf_positive by lra. reflexivity. }
  assert (forall chordIndex track i p,
             frequencyToMIDI (Num f) = (p, NaN) ->
             pushNoteOn chordIndex track (mkNoteData (Num f)) i
             = (track ++ [noteOnEvent i p])%list) as Hon.
  { intros chordIndex track i p Hp. rewrite pushNoteOn_spec. f_equal.
    unfold specNoteOn. cbn [fst snd frequency]. rewrite Hp. reflexivity. }
  destruct Hcases as [H | H]; rewrite H; cbn [fst snd toUint8];
    (split; [reflexivity|]); (split; [tauto|]); (split; [reflexivity|]);
    intros chordIndex track i; now apply Hon.
Qed.

Lemma frequencyToMIDI_nonpositive_witness :
  snd (frequencyToMIDI (Num 0%R)) = NaN
  /\ (fst (frequencyToMIDI (Num 0%R)) = Infinity true
      \/ fst (frequencyToMIDI (Num 0%R)) = NaN)
  /\ toUint8 (fst (frequencyToMIDI (Num 0%R))) = 0
  /\ forall chordIndex track i,
       pushNoteOn chordIndex track (mkNoteData (Num 0%R)) i
       = (track ++ [noteOnEvent i (fst (frequencyToMIDI (Num 0%R)))])%list.
Proof. apply (frequencyToMIDI_nonpositive 0). lra. Defined.

(** ** Notes switched on and off *)

(** X28: within a chord every note that is switched on is switched off:
    the track of a chord is its note-on events (with their pitch bends)
    followed by its note-off events, and the two name the same channels
    and note numbers in the same order. *)
Theorem chord_notes_on_are_switched_off
  (baseDuration tempo : number R) (chord : ChordData) :
  map (channelAndNote 144)
    (filter (fun e => negb (isPitchBend e))
       (flat_map specNoteOn (indexed (pythagoreanNotes chord))))
  = map (channelAndNote 128)
      (map (specNoteOff (durationTicksOf baseDuration tempo chord))
         (indexed (pythagoreanNotes chord)))
  /\ noteTrack [chord] baseDuration tempo
     = (flat_map specNoteOn (indexed (pythagoreanNotes chord))
          ++ map (specNoteOff (durationTicksOf baseDuration tempo chord))
               (indexed (pythagoreanNotes chord))
          ++ [endOfTrack])%list.
Proof.
  split;
    [|rewrite noteTrack_spec; unfold specNoteTrack, specChord;
      cbn [flat_map]; now rewrite List.app_nil_r, <- List.app_assoc].
  change (fun e => negb (isPitchBend e)) with notBend.
  rewrite filter_flat_map.
  induction (indexed (pythagoreanNotes chord)) as [|p l IH];
    cbn [flat_map map]; [reflexivity|].
  rewrite filter_specNoteOn. cbn [app map]. rewrite IH. f_equal.
  unfold channelAndNote, specNoteOff.
  rewrite statusOf_noteOn, statusOf_noteOff.
  unfold noteOnEvent, noteOffEvent. cbn [data nth]. f_equal. lia.
Qed.

End EncoderFacts.

(* ================================================================== *)
(** * The bytes of track 1 *)
(* ================================================================== *)

Section TrackBytes.

Import JS.
Import RealNumber.
Import MIDIExporter.
Local Open Scope Z_scope.

(** ** From events to bytes *)

Lemma encodeTrackEvents_cons (e : MIDIEvent) (es : list MIDIEvent) :
  encodeTrackEvents (e :: es)
  = (map toUint8 (eventBytes e) ++ encodeTrackEvents es)%list.
Proof.
  change (e :: es) with ([e] ++ es)%list. rewrite encodeTrackEvents_app.
  f_equal; unfold encodeTrackEvents; rewrite fold_pushEvent;
    cbn [app flat_map]; now rewrite List.app_nil_r.
Qed.

Lemma encodeTrackEvents_flat_map {A : Type} (f : A -> list MIDIEvent)
  (l : list A) :
  encodeTrackEvents (flat_map f l)
  = flat_map (fun x => encodeTrackEvents (f x)) l.
Proof.
  induction l as [|x l IH]; cbn [flat_map]; [reflexivity|].
  now rewrite encodeTrackEvents_app, IH.
Qed.

Lemma encodeTrackEvents_map {A : Type} (f : A -> MIDIEvent) (l : list A) :
  encodeTrackEvents (map f l)
  = flat_map (fun x => encodeTrackEvents [f x]) l.
Proof.
  induction l as [|x l IH]; cbn [map flat_map]; [reflexivity|].
  change (f x :: map f l) with ([f x] ++ map f l)%list.
  now rewrite encodeTrackEvents_app, IH.
Qed.

Lemma varLengthLoop_bytes (n : nat) :
  forall w buffer,
    Forall (fun b => 0 <= b <= 255) buffer ->
    Forall (fun b => 0 <= b <= 255) (varLengthLoop n w buffer).
Proof.
  induction n as [|n IH]; intros w buffer Hall; cbn [varLengthLoop];
    [exact Hall|].
  destruct (0 <? w); [|exact Hall].
  apply IH. apply Forall_app. split; [exact Hall|].
  constructor; [|constructor].
  rewrite (proj1 (continuation_byte w)).
  pose proof (Z.mod_pos_bound w 128 ltac:(lia)). lia.
Qed.

Lemma varLengthBytes_bytes (v : Z) :
  Forall (fun b => 0 <= b <= 255) (varLengthBytes v).
Proof.
  unfold varLengthBytes. apply Forall_rev. apply varLengthLoop_bytes.
  constructor; [|constructor]. pose proof (land_127_bounds v). lia.
Qed.

Lemma toUint8_bytes (l : list Z) :
  Forall (fun b => 0 <= b <= 255) l -> map toUint8 (map ofZ l) = l.
Proof.
  induction 1 as [|b l Hb _ IH]; cbn [map]; [reflexivity|].
  rewrite toUint8_ofZ, Z.mod_small, IH by lia. reflexivity.
Qed.

(** The delta-time of an event as [writeVarLength] stores it. *)
Lemma deltaTime_bytes (delta : number R) :
  map toUint8 (writeVarLength [] delta) = varLengthBytes (toInt32 delta).
Proof.
  unfold writeVarLength. cbn [app].
  exact (toUint8_bytes _ (varLengthBytes_bytes (toInt32 delta))).
Qed.

Lemma deltaTime_zero : varLengthBytes (toInt32 (ofZ 0)) = [0].
Proof. rewrite toInt32_ofZ. reflexivity. Qed.

Lemma status_byte (kind : Z) (i : nat) :
  In kind [128; 144; 224] ->
  toUint8 (ofZ (Z.lor kind (channelOf i))) = kind + Z.min (Z.of_nat i) 15.
Proof.
  intros Hk. rewrite toUint8_ofZ, (proj1 (status_lor kind i Hk)).
  pose proof (channelOf_bounds i) as Hc. unfold channelOf in *.
  destruct Hk as [<- | [<- | [<- | []]]]; apply Z.mod_small; lia.
Qed.

Lemma data_byte (x : Z) : toUint8 (ofZ (Z.land x 127)) = Z.land x 127.
Proof.
  rewrite toUint8_ofZ. pose proof (land_127_bounds x).
  apply Z.mod_small. lia.
Qed.

Lemma encode_specNoteOn (p : nat * NoteData) :
  encodeTrackEvents (specNoteOn p) = noteOnBytes p.
Proof.
  unfold specNoteOn, noteOnBytes.
  destruct (frequencyToMIDI (frequency (snd p))) as [note cents].
  rewrite encodeTrackEvents_app. f_equal.
  - destruct (gtb (abs cents) (/ 2)); [|reflexivity].
    rewrite encodeTrackEvents_cons. unfold eventBytes, pitchBendEvent.
    cbn [deltaTime data]. rewrite map_app, deltaTime_bytes, deltaTime_zero.
    cbn [map app]. rewrite (status_byte 224) by (cbn; tauto).
    now rewrite !data_byte.
  - rewrite encodeTrackEvents_cons. unfold eventBytes, noteOnEvent.
    cbn [deltaTime data]. rewrite map_app, deltaTime_bytes, deltaTime_zero.
    cbn [map app]. rewrite (status_byte 144) by (cbn; tauto).
    now rewrite toUint8_ofZ.
Qed.

Lemma encode_specNoteOff (durationTicks : number R) (p : nat * NoteData) :
  encodeTrackEvents [specNoteOff durationTicks p]
  = noteOffBytes durationTicks p.
Proof.
  unfold specNoteOff, noteOffBytes, noteOffEvent.
  rewrite encodeTrackEvents_cons. unfold eventBytes.
  cbn [deltaTime data]. rewrite map_app, deltaTime_bytes.
  cbn [map app]. rewrite (status_byte 128) by (cbn; tauto).
  rewrite toUint8_ofZ, List.app_nil_r.
  destruct (fst p =? 0)%nat; [reflexivity|]. now rewrite deltaTime_zero.
Qed.

Lemma encode_specChord (baseDuration tempo : number R) (chord : ChordData) :
  encodeTrackEvents (specChord baseDuration tempo chord)
  = chordBytes (durationTicksOf baseDuration tempo chord)
      (pythagoreanNotes chord).
Proof.
  unfold specChord, chordBytes.
  rewrite encodeTrackEvents_app, encodeTrackEvents_flat_map,
    encodeTrackEvents_map.
  f_equal.
  - apply flat_map_ext. intros p. apply encode_specNoteOn.
  - apply flat_map_ext. intros p. apply encode_specNoteOff.
Qed.

(** The file [generatePythagoreanMIDI] returns, byte by byte. *)
Lemma generatePythagoreanMIDI_bytes
  (chords : list ChordData) (baseDuration tempo : number R) :
  let v := toInt32 (round (div (ofZ 60000000) tempo)) in
  let track :=
    (flat_map
       (fun chord =>
          chordBytes
            (round (mul (mul (duration chord) baseDuration)
                      (div (mul (ofZ 480) tempo) (ofZ 60))))
            (pythagoreanNotes chord))
       chords ++ [0; 255; 47; 0])%list in
  generatePythagoreanMIDI chords baseDuration tempo
  = ([ 77; 84; 104; 100; 0; 0; 0; 6; 0; 1; 0; 2; 1; 224 ]
       ++ [ 77; 84; 114; 107; 0; 0; 0; 11;
            0; 255; 81; 3; Z.land (Z.shiftr v 16) 255;
            Z.land (Z.shiftr v 8) 255; Z.land v 255; 0; 255; 47; 0 ]
       ++ [ 77; 84; 114; 107 ]
       ++ uint32BE (Z.of_nat (List.length track))
       ++ track)%list.
Proof.
  intros v track.
  unfold generatePythagoreanMIDI, createMIDIFile, createTrackChunk.
  rewrite noteTrack_spec. unfold specNoteTrack.
  cbn [map List.concat].
  rewrite encodeTrackEvents_app, encodeTrackEvents_endOfTrack.
  rewrite encodeTrackEvents_tempoTrack, encodeTrackEvents_flat_map.
  rewrite (flat_map_ext _ _ (encode_specChord baseDuration tempo)).
  cbv zeta. fold v. rewrite List.app_nil_r. reflexivity.
Qed.

(** ** The claims about track 1 *)

Lemma round_tempo_120 : round (div (ofZ 60000000) (ofZ 120)) = ofZ 500000.
Proof.
  unfold ofZ. rewrite div_positive by (pose proof minDouble_tiny; lra).
  unfold round. do 2 f_equal. apply Int_part_unique. lra.
Qed.

Lemma frequencyToMIDI_440 : frequencyToMIDI (ofZ 440) = (ofZ 69, Num 0%R).
Proof.
  pose proof (frequencyToMIDI_equal_tempered 0 ltac:(lia)) as H.
  replace (440 * Rpower 2 (IZR 0 / 12))%R with 440%R in H; [exact H|].
  replace (IZR 0 / 12)%R with 0%R by lra. rewrite Rpower_O by lra. ring.
Qed.

Lemma gtb_abs_zero : gtb (abs (Num 0%R)) (/ 2) = false.
Proof.
  unfold gtb, abs. destruct (Rlt_dec (/ 2) (Rabs 0)) as [Hlt|]; [|reflexivity].
  rewrite Rabs_R0 in Hlt. lra.
Qed.

(** C2, the claim as stated fails: a chord of one note at 440 Hz lasting
    3000000 beats at 120 beats per minute has a duration of 2880000000
    ticks; [writeVarLength] takes its argument as a 32-bit integer, which
    is negative here, and writes the single byte [00]: in the file the note
    off follows the note on with delta-time 0. *)
Lemma generatePythagoreanMIDI_long_chord_released_at_once :
  durationTicksOf (ofZ 1) (ofZ 120)
    (mkChordData [mkNoteData (ofZ 440)] (ofZ 3000000))
  = ofZ 2880000000
  /\ generatePythagoreanMIDI
       [mkChordData [mkNoteData (ofZ 440)] (ofZ 3000000)] (ofZ 1) (ofZ 120)
     = [ 77; 84; 104; 100; 0; 0; 0; 6; 0; 1; 0; 2; 1; 224;
         77; 84; 114; 107; 0; 0; 0; 11;
         0; 255; 81; 3; 7; 161; 32; 0; 255; 47; 0;
         77; 84; 114; 107; 0; 0; 0; 12;
         0; 144; 69; 80; 0; 128; 69; 0; 0; 255; 47; 0 ]
  /\ decodeVarLength [0] <> 2880000000.
Proof.
  assert (round (mul (mul (ofZ 3000000) (ofZ 1))
                   (div (mul (ofZ 480) (ofZ 120)) (ofZ 60)))
          = ofZ 2880000000) as Hticks.
  { unfold ofZ. cbn [mul].
    rewrite div_positive by (pose proof minDouble_tiny; lra).
    cbn [mul round]. do 2 f_equal. apply Int_part_unique. lra. }
  split; [exact Hticks|]. split; [|discriminate].
  rewrite generatePythagoreanMIDI_bytes. cbv zeta.
  cbn [flat_map pythagoreanNotes duration]. rewrite Hticks, round_tempo_120.
  unfold chordBytes, indexed. cbn [List.length seq combine flat_map].
  unfold noteOnBytes, noteOffBytes. cbn [fst snd frequency Nat.eqb].
  rewrite frequencyToMIDI_440. cbn [fst]. rewrite gtb_abs_zero.
  rewrite !toInt32_ofZ, toUint8_ofZ. reflexivity.
Qed.

(** C2, amended: track 1 of every file is, chord after chord, the bytes
    of the chord's note-on events followed by those of one note off per
    note, then end-of-track.  Every pitch-bend and note-on event is written
    with the one-byte delta-time [00] and channel [min(noteIndex, 15)],
    and the note on has velocity 80.  Every note off is on the channel of
    its note; the note offs after the first have delta-time [00], and the
    first has the variable-length bytes of
    [round(duration * baseDuration * (480 * tempo / 60))] taken as a 32-bit
    integer.  Those bytes read back as the number of ticks when it is an
    integer from 0 to [2^31 - 1]; when the 32-bit integer is negative they
    are the single byte of its low seven bits. *)
Theorem chord_notes_simultaneous :
  (forall chords baseDuration tempo,
      let v := toInt32 (round (div (ofZ 60000000) tempo)) in
      let track :=
        (flat_map
           (fun chord =>
              flat_map noteOnBytes (indexed (pythagoreanNotes chord))
                ++ flat_map
                     (noteOffBytes
                        (round
                           (mul (mul (duration chord) baseDuration)
                              (div (mul (ofZ 480) tempo) (ofZ 60)))))
                     (indexed (pythagoreanNotes chord)))
           chords ++ [0; 255; 47; 0])%list in
      generatePythagoreanMIDI chords baseDuration tempo
      = ([ 77; 84; 104; 100; 0; 0; 0; 6; 0; 1; 0; 2; 1; 224 ]
           ++ [ 77; 84; 114; 107; 0; 0; 0; 11;
                0; 255; 81; 3; Z.land (Z.shiftr v 16) 255;
                Z.land (Z.shiftr v 8) 255; Z.land v 255; 0; 255; 47; 0 ]
           ++ [ 77; 84; 114; 107 ]
           ++ uint32BE (Z.of_nat (List.length track))
           ++ track)%list)
  /\ (forall notes : list NoteData,
         map fst (indexed notes) = seq 0 (List.length notes)
         /\ map snd (indexed notes) = notes)
  /\ (forall i noteData,
         let note := toUint8 (fst (frequencyToMIDI (frequency noteData))) in
         let channel := Z.min (Z.of_nat i) 15 in
         noteOnBytes (i, noteData) = [0; 144 + channel; note; 80]
         \/ exists lsb msb,
              noteOnBytes (i, noteData)
              = [0; 224 + channel; lsb; msb; 0; 144 + channel; note; 80])
  /\ (forall durationTicks noteData,
         noteOffBytes durationTicks (O, noteData)
         = (varLengthBytes (toInt32 durationTicks)
              ++ [ 128; toUint8 (fst (frequencyToMIDI (frequency noteData)));
                   0 ])%list)
  /\ (forall durationTicks i noteData,
         noteOffBytes durationTicks (S i, noteData)
         = [ 0; 128 + Z.min (Z.of_nat (S i)) 15;
             toUint8 (fst (frequencyToMIDI (frequency noteData))); 0 ])
  /\ (forall ticks,
         0 <= ticks < 2 ^ 31 ->
         toInt32 (ofZ ticks) = ticks
         /\ decodeVarLength (varLengthBytes ticks) = ticks
         /\ exists conts last,
              varLengthBytes ticks = (conts ++ [last])%list
              /\ Forall (fun b => 128 <= b <= 255) conts
              /\ 0 <= last <= 127)
  /\ (forall durationTicks,
         toInt32 durationTicks < 0 ->
         varLengthBytes (toInt32 durationTicks)
         = [toInt32 durationTicks mod 128]).
Proof.
  split; [exact generatePythagoreanMIDI_bytes|].
  split; [intros notes; apply indexed_positions|].
  split.
  { intros i noteData note channel. subst note channel.
    unfold noteOnBytes. cbn [fst snd].
    destruct (frequencyToMIDI (frequency noteData)) as [note cents].
    cbn [fst]. destruct (gtb (abs cents) (/ 2));
      [right; eexists _, _; reflexivity | left; reflexivity]. }
  split; [reflexivity|]. split; [reflexivity|].
  split.
  { intros ticks Hticks. split.
    - rewrite toInt32_ofZ. apply wrap32_small. lia.
    - destruct (varLengthBytes_roundtrip ticks Hticks)
        as (Hdecode & conts & last & Hbytes & Hconts & Hlast & _).
      split; [exact Hdecode|]. now exists conts, last. }
  intros durationTicks. apply varLengthBytes_negative.
Qed.

Lemma chord_notes_simultaneous_witness :
  toInt32 (ofZ 960) = 960
  /\ decodeVarLength (varLengthBytes 960) = 960
  /\ exists conts last,
       varLengthBytes 960 = (conts ++ [last])%list
       /\ Forall (fun b => 128 <= b <= 255) conts
       /\ 0 <= last <= 127.
Proof.
  apply (proj1 (proj2 (proj2 (proj2 (proj2 (proj2
           chord_notes_simultaneous))))) 960).
  split; [discriminate | reflexivity].
Defined.

(** C5: [centsToPitchBend] maps a cents deviation to
    [round(8192 + cents/200 * 8192)] clamped to [0, 16383].  In the track
    [generatePythagoreanMIDI] writes, the bytes of a note are those of its
    note on, preceded by those of a pitch-bend event (delta-time [00],
    status byte [0xE0 | channel], the low and the high seven bits of the
    bend value) exactly when the absolute value of the note's cents
    deviation exceeds 0.5; otherwise the note on comes first and no
    pitch-bend event precedes it. *)
Theorem pitch_bend_iff_off_centre :
  (forall c : R,
      centsToPitchBend (Num c)
      = Num (Rmax 0 (Rmin 16383
                       (IZR (Int_part (8192 + c / 200 * 8192 + / 2))))))
  /\ (forall chords baseDuration tempo,
         let v := toInt32 (round (div (ofZ 60000000) tempo)) in
         let track :=
           (flat_map
              (fun chord =>
                 flat_map noteOnBytes (indexed (pythagoreanNotes chord))
                   ++ flat_map
                        (noteOffBytes
                           (round
                              (mul (mul (duration chord) baseDuration)
                                 (div (mul (ofZ 480) tempo) (ofZ 60)))))
                        (indexed (pythagoreanNotes chord)))
              chords ++ [0; 255; 47; 0])%list in
         generatePythagoreanMIDI chords baseDuration tempo
         = ([ 77; 84; 104; 100; 0; 0; 0; 6; 0; 1; 0; 2; 1; 224 ]
              ++ [ 77; 84; 114; 107; 0; 0; 0; 11;
                   0; 255; 81; 3; Z.land (Z.shiftr v 16) 255;
                   Z.land (Z.shiftr v 8) 255; Z.land v 255; 0; 255; 47; 0 ]
              ++ [ 77; 84; 114; 107 ]
              ++ uint32BE (Z.of_nat (List.length track))
              ++ track)%list)
  /\ (forall i noteData,
         let note := fst (frequencyToMIDI (frequency noteData)) in
         let cents := snd (frequencyToMIDI (frequency noteData)) in
         let channel := Z.min (Z.of_nat i) 15 in
         let bend := toInt32 (centsToPitchBend cents) in
         noteOnBytes (i, noteData)
         = (if gtb (abs cents) (/ 2)
            then [ 0; Z.lor 224 channel; Z.land bend 127;
                   Z.land (Z.shiftr bend 7) 127;
                   0; Z.lor 144 channel; toUint8 note; 80 ]
            else [ 0; Z.lor 144 channel; toUint8 note; 80 ])
         /\ Z.lor 224 channel = 224 + channel
         /\ Z.lor 144 channel = 144 + channel
         /\ (224 <=? nth 1 (noteOnBytes (i, noteData)) 0)
            = gtb (abs cents) (/ 2))
  /\ (forall c : R, gtb (abs (Num c)) (/ 2) = true <-> (Rabs c > / 2)%R)
  /\ gtb (abs NaN) (/ 2) = false.
Proof.
  split; [exact centsToPitchBend_finite|].
  split; [exact generatePythagoreanMIDI_bytes|].
  split; [|split; [exact gtb_abs_half | reflexivity]].
  intros i noteData note cents channel bend.
  pose proof (proj1 (status_lor 224 i ltac:(cbn; tauto))) as H224.
  pose proof (proj1 (status_lor 144 i ltac:(cbn; tauto))) as H144.
  pose proof (channelOf_bounds i) as Hc.
  unfold channelOf in H224, H144, Hc. fold channel in H224, H144, Hc.
  split; [|split; [exact H224 | split; [exact H144|]]].
  - rewrite H224, H144. subst note cents bend. unfold noteOnBytes.
    cbn [fst snd]. fold channel.
    destruct (frequencyToMIDI (frequency noteData)) as [n c]. cbn [fst snd].
    now destruct (gtb (abs c) (/ 2)).
  - subst cents. unfold noteOnBytes. cbn [fst snd]. fold channel.
    destruct (frequencyToMIDI (frequency noteData)) as [n c]. cbn [fst snd].
    destruct (gtb (abs c) (/ 2)); cbn [app nth].
    + apply Z.leb_le. lia.
    + apply Z.leb_gt. lia.
Qed.

Lemma pitch_bend_iff_off_centre_witness :
  gtb (abs (Num (-50)%R)) (/ 2) = true.
Proof.
  apply (proj1 (proj2 (proj2 (proj2 pitch_bend_iff_off_centre))) (-50)%R).
  unfold Rabs. destruct (Rcase_abs (-50)); lra.
Defined.

(** ** The claim about the cents deviation *)

Lemma quotient_underflow (f : R) :
  (0 < f <= 220 * minDouble)%R -> quotient f 440 = 0%R.
Proof.
  intros Hf. unfold quotient.
  destruct (Rle_dec (Rabs (f / 440)) (minDouble / 2)) as [|Hn];
    [reflexivity|].
  exfalso. apply Hn. rewrite Rabs_pos_eq by lra. lra.
Qed.

Lemma frequencyToMIDI_underflow (f : R) :
  (0 < f <= 220 * minDouble)%R ->
  frequencyToMIDI (Num f) = (Infinity true, NaN).
Proof.
  intros Hf. unfold frequencyToMIDI, ofZ.
  rewrite div_quotient, (quotient_underflow f Hf) by lra.
  unfold log2. rewrite signOf_zero. unfold mul.
  rewrite signOf_positive by lra. reflexivity.
Qed.

(** C10, the claim as stated fails: the smallest positive double,
    [2^-1074], is a positive frequency whose quotient by 440 is too small
    for a double and is zero; its logarithm is minus infinity and the cents
    deviation is not-a-number.  So is the cents deviation of an infinite
    frequency, which [calculateChord] hands on when the fundamental is the
    string [Infinity]. *)
Lemma frequencyToMIDI_smallest_frequency_has_no_cents :
  (0 < minDouble)%R
  /\ frequencyToMIDI (Num minDouble) = (Infinity true, NaN)
  /\ ~ (exists cents : R,
          snd (frequencyToMIDI (Num minDouble)) = Num cents
          /\ (-50 <= cents <= 50)%R)
  /\ PythagoreanTuning.resolveFundamental
       (PythagoreanTuning.FromString "Infinity")
     = Returned (Infinity false)
  /\ frequencyToMIDI (Infinity false) = (Infinity false, NaN).
Proof.
  pose proof minDouble_pos as Hm.
  assert (frequencyToMIDI (Num minDouble) = (Infinity true, NaN)) as H
    by (apply frequencyToMIDI_underflow; lra).
  split; [exact Hm|]. split; [exact H|]. split.
  - rewrite H. intros (cents & Hc & _). discriminate Hc.
  - split; [reflexivity|].
    unfold frequencyToMIDI, ofZ, div, mul.
    rewrite !signOf_positive by lra. reflexivity.
Qed.

(** C10, amended: a positive frequency of at most [220 * 2^-1074] has a
    cents deviation that is not-a-number.  For a frequency above that bound
    [frequencyToMIDI] returns a cents deviation between -50 and 50;
    [centsToPitchBend] of that deviation is an integer between 6144 and
    10240, equal to the unclamped rounded value; the two data bytes
    [bend & 0x7F] and [(bend >> 7) & 0x7F] that the generator pushes are
    between 0 and 127 and hold the bend value without loss. *)
Theorem frequencyToMIDI_cents_in_range (f : R) :
  ((0 < f <= 220 * minDouble)%R ->
   frequencyToMIDI (Num f) = (Infinity true, NaN))
  /\ ((220 * minDouble < f)%R ->
      exists (note : Z) (cents : R) (bend : Z),
        frequencyToMIDI (Num f) = (ofZ note, Num cents)
        /\ (-50 <= cents <= 50)%R
        /\ round (add (ofZ 8192) (mul (div (Num cents) (ofZ 200)) (ofZ 8192)))
           = ofZ bend
        /\ centsToPitchBend (Num cents) = ofZ bend
        /\ 6144 <= bend <= 10240
        /\ toInt32 (centsToPitchBend (Num cents)) = bend
        /\ 0 <= Z.land bend 127 <= 127
        /\ 0 <= Z.land (Z.shiftr bend 7) 127 <= 127
        /\ Z.land bend 127 + 128 * Z.land (Z.shiftr bend 7) 127 = bend
        /\ forall chordIndex track i,
             pushNoteOn chordIndex track (mkNoteData (Num f)) i
             = (track
                  ++ (if gtb (abs (Num cents)) (/ 2)
                      then [ mkEvent (ofZ 0)
                               [ ofZ (Z.lor 224 (Z.min (Z.of_nat i) 15));
                                 ofZ (Z.land bend 127);
                                 ofZ (Z.land (Z.shiftr bend 7) 127) ] ]
                      else [])
                  ++ [ mkEvent (ofZ 0)
                         [ ofZ (Z.lor 144 (Z.min (Z.of_nat i) 15));
                           ofZ note; ofZ 80 ] ])%list).
Proof.
  split; [exact (frequencyToMIDI_underflow f)|].
  intros Hf. pose proof (frequencyToMIDI_finite f Hf) as Hfreq.
  set (m := (69 + 12 * (ln (f / 440) / ln 2))%R) in *.
  set (cents := ((m + - IZR (Int_part (m + / 2))) * 100)%R) in *.
  set (bend := Int_part (8192 + cents / 200 * 8192 + / 2)).
  exists (Int_part (m + / 2)), cents, bend.
  assert (-50 <= cents <= 50)%R as Hcents.
  { pose proof (Int_part_bounds (m + / 2)) as H. unfold cents. lra. }
  assert (6144 <= bend <= 10240) as Hbend.
  { pose proof (Int_part_bounds (8192 + cents / 200 * 8192 + / 2)) as H.
    fold bend in H.
    assert (6143 < bend) by (apply lt_IZR; lra).
    assert (bend < 10241) by (apply lt_IZR; lra).
    lia. }
  assert (centsToPitchBend (Num cents) = ofZ bend) as Hclamp.
  { rewrite centsToPitchBend_finite. fold bend. unfold ofZ. f_equal.
    assert (IZR bend <= 16383)%R by (apply IZR_le; lia).
    assert (0 <= IZR bend)%R by (apply IZR_le; lia).
    rewrite Rmin_right by assumption. now rewrite Rmax_right. }
  assert (toInt32 (centsToPitchBend (Num cents)) = bend) as Hint.
  { rewrite Hclamp, toInt32_ofZ. apply wrap32_small. lia. }
  split; [exact Hfreq|]. split; [exact Hcents|].
  split.
  { unfold ofZ. rewrite div_quotient by lra. cbn [mul add round].
    now rewrite bend_quotient. }
  split; [exact Hclamp|]. split; [exact Hbend|]. split; [exact Hint|].
  split; [apply land_127_bounds|]. split; [apply land_127_bounds|].
  split; [apply bend_split; lia|].
  intros chordIndex track i. unfold pushNoteOn, channelOf.
  cbn [frequency]. rewrite Hfreq, Hint.
  destruct (gtb (abs (Num cents)) (/ 2)); [|reflexivity].
  rewrite <- List.app_assoc. cbn [app].
  now destruct ((chordIndex =? 0)%nat && (i =? 0)%nat).
Qed.

Lemma frequencyToMIDI_cents_in_range_witness :
  exists (note : Z) (cents : R) (bend : Z),
    frequencyToMIDI (Num 440%R) = (ofZ note, Num cents)
    /\ (-50 <= cents <= 50)%R
    /\ round (add (ofZ 8192) (mul (div (Num cents) (ofZ 200)) (ofZ 8192)))
       = ofZ bend
    /\ centsToPitchBend (Num cents) = ofZ bend
    /\ 6144 <= bend <= 10240
    /\ toInt32 (centsToPitchBend (Num cents)) = bend
    /\ 0 <= Z.land bend 127 <= 127
    /\ 0 <= Z.land (Z.shiftr bend 7) 127 <= 127
    /\ Z.land bend 127 + 128 * Z.land (Z.shiftr bend 7) 127 = bend
    /\ forall chordIndex track i,
         pushNoteOn chordIndex track (mkNoteData (Num 440%R)) i
         = (track
              ++ (if gtb (abs (Num cents)) (/ 2)
                  then [ mkEvent (ofZ 0)
                           [ ofZ (Z.lor 224 (Z.min (Z.of_nat i) 15));
                             ofZ (Z.land bend 127);
                             ofZ (Z.land (Z.shiftr bend 7) 127) ] ]
                  else [])
              ++ [ mkEvent (ofZ 0)
                     [ ofZ (Z.lor 144 (Z.min (Z.of_nat i) 15));
                       ofZ note; ofZ 80 ] ])%list.
Proof.
  apply (proj2 (frequencyToMIDI_cents_in_range 440)).
  pose proof minDouble_tiny. lra.
Defined.

End TrackBytes.
